(** * Midi-Device-Database: the merge script and the mapping diagnostics

    A shallow embedding of the merge script (the version of [merge.js] that
    loads its alias tables from [mapping.json]), of the mapping diagnostics
    script and of [merge.js] with its built-in tables (module [Legacy]),
    with the properties of the entity-resolution and merge engine.

    Modelling conventions.
    - JSON data is the type [JsValue]; numbers are integers ([Z]) or [NaN].
    - Strings are ASCII: [toLowerCase] folds [A-Z] and the class [\s] is
      tab, line feed, vertical tab, form feed, carriage return and space.
      The script folds a non-ASCII letter and replaces a non-ASCII space
      with the Unicode tables; the embedding agrees with it on the strings
      accepted by [is_ascii].
    - A JavaScript object whose iteration order matters is a property list
      in creation order with one entry per key ([obj]); [obj_entries] gives
      the order of [Object.entries] (array-index keys ascending, then
      creation order).
    - The alias tables are only ever looked up, so they are finite maps.
    - Property names inherited from [Object.prototype] (such as
      [constructor]) are not modelled: an object has its own properties
      only. In the script the lookup of such a name in an alias table or
      in an object of the engine finds the inherited member (the
      normalizer then throws on it), and an assignment to [__proto__]
      stores nothing; the embedding agrees with the script on the names
      accepted by [plain_key] and on the runs accepted by [ordinary_run],
      and the properties that depend on it are stated for those.
    - A thrown exception is [None]; in the merge script it ends in the
      [catch] of the main block, which writes no output.
    - File and console output are not modelled: the merge script is the
      function from the parsed inputs to [finalDb]. *)

From Stdlib Require Import ZArith Ascii String DecimalString Sorted.
From stdpp Require Import base option list strings gmap.

Open Scope string_scope.
Open Scope list_scope.

#[local] Set Warnings "-register-all".

(** ** Strings *)

Module Str.

Definition is_upper (c : ascii) : bool :=
  let n := nat_of_ascii c in (65 <=? n)%nat && (n <=? 90)%nat.

Definition lower_char (c : ascii) : ascii :=
  if is_upper c then ascii_of_nat (nat_of_ascii c + 32) else c.

(** [s.toLowerCase()] *)
Fixpoint toLowerCase (s : string) : string :=
  match s with
  | EmptyString => EmptyString
  | String c s' => String (lower_char c) (toLowerCase s')
  end.

(** the class [\s] *)
Definition is_space (c : ascii) : bool :=
  let n := nat_of_ascii c in
  ((9 <=? n)%nat && (n <=? 13)%nat) || (n =? 32)%nat.

Definition is_digit (c : ascii) : bool :=
  let n := nat_of_ascii c in (48 <=? n)%nat && (n <=? 57)%nat.

(** [s.replace(/\s+/g, r)]: [in_run] tells that the previous character
    belonged to the run being replaced. *)
Fixpoint replace_spaces_from (r : string) (in_run : bool) (s : string) : string :=
  match s with
  | EmptyString => EmptyString
  | String c s' =>
      if is_space c
      then (if in_run then replace_spaces_from r true s'
            else r +:+ replace_spaces_from r true s')
      else String c (replace_spaces_from r false s')
  end.

Definition replace_spaces (r : string) (s : string) : string :=
  replace_spaces_from r false s.

(** [s.replace(/c/g, r)] for a one-character pattern *)
Fixpoint replace_char (c : ascii) (r : string) (s : string) : string :=
  match s with
  | EmptyString => EmptyString
  | String d s' =>
      if Ascii.eqb d c then r +:+ replace_char c r s'
      else String d (replace_char c r s')
  end.

(** [s.startsWith(p)], ignoring case when [ci] is set (the [i] flag;
    the patterns used are lower case) *)
Fixpoint starts_with (ci : bool) (p s : string) : bool :=
  match p, s with
  | EmptyString, _ => true
  | String _ _, EmptyString => false
  | String a p', String b s' =>
      Ascii.eqb a (if ci then lower_char b else b) && starts_with ci p' s'
  end.

Fixpoint drop (n : nat) (s : string) : string :=
  match n, s with
  | O, _ => s
  | S n', EmptyString => EmptyString
  | S n', String _ s' => drop n' s'
  end.

Definition next_is_digit (s : string) : bool :=
  match s with
  | String c _ => is_digit c
  | EmptyString => false
  end.

(** [s.replace(/p/i, r)], or [s.replace(/p(\d+)/i, r + '$1')] when
    [need_digit] is set: the leftmost match only (no [g] flag). *)
Fixpoint replace_first_ci (need_digit : bool) (p r : string) (s : string) : string :=
  match s with
  | EmptyString => EmptyString
  | String c s' =>
      if starts_with true p s &&
         (negb need_digit || next_is_digit (drop (String.length p) s))
      then r +:+ drop (String.length p) s
      else String c (replace_first_ci need_digit p r s')
  end.

(** the internal identifier: [s.toLowerCase().replace(/\s+/g, '_')] *)
Definition normalize_id (s : string) : string :=
  replace_spaces "_" (toLowerCase s).

End Str.

(** ** The alias tables (what [loadMappings] returns) *)

Record Mappings := {
  manufacturerMapping : gmap string string;
  deviceMapping : gmap string string;
  brandDisplayNames : gmap string string;
  modelDisplayNames : gmap string (gmap string string)
}.

Definition emptyMappings : Mappings :=
  {| manufacturerMapping := ∅; deviceMapping := ∅;
     brandDisplayNames := ∅; modelDisplayNames := ∅ |}.

(** [table[key]] used as a condition: a missing entry is [undefined] and
    the empty string is falsy. Only the table's own entries are looked up:
    for a key that names a member of [Object.prototype] the script finds
    the inherited member instead (see [inherited]). *)
Definition truthy_entry (t : gmap string string) (key : string) : option string :=
  match t !! key with
  | Some v => if decide (v = "") then None else Some v
  | None => None
  end.

(** ** The key normalizer *)

Record NormalizedKey := {
  normalized : string;
  canonical : string
}.

(** [displayNameTable ? (displayNameTable[normalizedKey] || normalizedKey)
                       : normalizedKey] *)
Definition displayNameOf (displayNameTable : option (gmap string string))
    (normalizedKey : string) : string :=
  match displayNameTable with
  | Some t => default normalizedKey (truthy_entry t normalizedKey)
  | None => normalizedKey
  end.

(** [normalizeAndMapKey(key, mappingTable, displayNameTable)]. The
    function is total on the tables of the embedding (string values, own
    entries); in the script it throws when a lookup finds a member of
    [Object.prototype], as for the key [constructor], which [plain_key]
    excludes. *)
Definition normalizeAndMapKey (key : string) (mappingTable : gmap string string)
    (displayNameTable : option (gmap string string)) : NormalizedKey :=
  match truthy_entry mappingTable key with
  | Some normalizedKey =>
      {| normalized := Str.normalize_id normalizedKey;
         canonical := displayNameOf displayNameTable normalizedKey |}
  | None =>
      let lowercaseKey := Str.toLowerCase key in
      match truthy_entry mappingTable lowercaseKey with
      | Some normalizedKey =>
          {| normalized := Str.normalize_id normalizedKey;
             canonical := displayNameOf displayNameTable normalizedKey |}
      | None =>
          {| normalized := Str.normalize_id key; canonical := key |}
      end
  end.

Definition getModelDisplayName (m : Mappings) (brandKey modelKey : string) : string :=
  match modelDisplayNames m !! brandKey with
  | Some models => default modelKey (truthy_entry models modelKey)
  | None => modelKey
  end.

(** ** JSON values and the JavaScript operators the scripts apply to them *)

Inductive JsValue : Type :=
  | VUndefined
  | VNull
  | VBool (b : bool)
  | VNum (n : Z)
  | VNaN
  | VStr (s : string)
  | VArr (elems : list JsValue)
  | VObj (props : list (string * JsValue)).

(** ToBoolean *)
Definition truthy (v : JsValue) : bool :=
  match v with
  | VUndefined | VNull | VNaN => false
  | VBool b => b
  | VNum n => negb (n =? 0)%Z
  | VStr s => negb (String.eqb s "")
  | VArr _ | VObj _ => true
  end.

(** [a || b] *)
Definition js_or (a b : JsValue) : JsValue := if truthy a then a else b.

(** [Array.isArray(v)] *)
Definition isArray (v : JsValue) : bool :=
  match v with VArr _ => true | _ => false end.

(** [v !== undefined] *)
Definition is_defined (v : JsValue) : bool :=
  match v with VUndefined => false | _ => true end.

(** *** Objects as ordered property lists *)

Definition obj (V : Type) : Type := list (string * V).

Fixpoint obj_get {V} (o : obj V) (k : string) : option V :=
  match o with
  | [] => None
  | (k', v) :: o' => if String.eqb k' k then Some v else obj_get o' k
  end.

(** [o[k] = v]: an existing property keeps its place, a new one is added
    at the end. *)
Fixpoint obj_set {V} (o : obj V) (k : string) (v : V) : obj V :=
  match o with
  | [] => [(k, v)]
  | (k', v') :: o' =>
      if String.eqb k' k then (k', v) :: o' else (k', v') :: obj_set o' k v
  end.


Fixpoint digits_value (acc : N) (s : string) : option N :=
  match s with
  | EmptyString => Some acc
  | String c s' =>
      if Str.is_digit c
      then digits_value (acc * 10 + (N.of_nat (nat_of_ascii c) - 48))%N s'
      else None
  end.

(** An array index is a canonical decimal numeral below [2^32 - 1]. *)
Definition array_index (k : string) : option N :=
  match k with
  | EmptyString => None
  | String c rest =>
      if Ascii.eqb c "0" && negb (String.eqb rest "") then None
      else match digits_value 0 k with
           | Some n => if (n <? 4294967295)%N then Some n else None
           | None => None
           end
  end.

Fixpoint insert_index {V} (n : N) (e : string * V) (l : list (N * (string * V)))
    : list (N * (string * V)) :=
  match l with
  | [] => [(n, e)]
  | (m, e') :: l' =>
      if (n <? m)%N then (n, e) :: l else (m, e') :: insert_index n e l'
  end.

Fixpoint index_props {V} (o : obj V) : list (N * (string * V)) :=
  match o with
  | [] => []
  | (k, v) :: o' =>
      match array_index k with
      | Some n => insert_index n (k, v) (index_props o')
      | None => index_props o'
      end
  end.

Fixpoint named_props {V} (o : obj V) : list (string * V) :=
  match o with
  | [] => []
  | (k, v) :: o' =>
      match array_index k with
      | Some _ => named_props o'
      | None => (k, v) :: named_props o'
      end
  end.

(** [Object.entries(o)]: array-index keys in ascending order, then the
    other keys in creation order. *)
Definition obj_entries {V} (o : obj V) : list (string * V) :=
  map snd (index_props o) ++ named_props o.

Definition obj_keys {V} (o : obj V) : list string := map fst (obj_entries o).

Definition nat_to_string (n : nat) : string :=
  DecimalString.NilZero.string_of_uint (Nat.to_uint n).

Fixpoint indexed_from {A} (i : nat) (l : list A) : list (string * A) :=
  match l with
  | [] => []
  | x :: l' => (nat_to_string i, x) :: indexed_from (S i) l'
  end.

Fixpoint chars (s : string) : list JsValue :=
  match s with
  | EmptyString => []
  | String c s' => VStr (String c EmptyString) :: chars s'
  end.

(** [v[k]] for the property names the scripts read ([version], [cc],
    [name], ...): none of them is defined on a primitive or an array, and
    reading a property of [null] or [undefined] throws. *)
Definition js_get (v : JsValue) (k : string) : option JsValue :=
  match v with
  | VUndefined | VNull => None
  | VObj props => Some (default VUndefined (obj_get props k))
  | _ => Some VUndefined
  end.

(** [v?.[k]] *)
Definition js_get_opt (v : JsValue) (k : string) : JsValue :=
  default VUndefined (js_get v k).

(** [Object.entries(v)] *)
Definition js_entries (v : JsValue) : option (list (string * JsValue)) :=
  match v with
  | VUndefined | VNull => None
  | VObj props => Some (obj_entries props)
  | VArr elems => Some (indexed_from 0 elems)
  | VStr s => Some (indexed_from 0 (chars s))
  | VBool _ | VNum _ | VNaN => Some []
  end.

(** [v.length] of a truthy value *)
Definition js_length (v : JsValue) : JsValue :=
  match v with
  | VStr s => VNum (Z.of_nat (String.length s))
  | VArr elems => VNum (Z.of_nat (length elems))
  | VObj props => default VUndefined (obj_get props "length")
  | _ => VUndefined
  end.

(** [a >= b] on numbers; a comparison with [undefined] or [NaN] is false.
    The operands are results of [.length]: only an object that carries a
    [length] property of its own yields anything but a number or
    [undefined], and such operands are compared like [NaN]. *)
Definition js_ge (a b : JsValue) : bool :=
  match a, b with
  | VNum x, VNum y => (y <=? x)%Z
  | _, _ => false
  end.

Fixpoint skip_spaces (s : string) : string :=
  match s with
  | String c s' => if Str.is_space c then skip_spaces s' else s
  | EmptyString => s
  end.

Fixpoint leading_digits (acc : option Z) (s : string) : option Z :=
  match s with
  | String c s' =>
      if Str.is_digit c
      then leading_digits
             (Some (default 0 acc * 10 + (Z.of_nat (nat_of_ascii c) - 48))%Z) s'
      else acc
  | EmptyString => acc
  end.

(** [parseInt(s, 10)]. The result is the exact integer; the script's
    numbers are doubles, which round an integer beyond [2^53]. *)
Definition parseInt (s : string) : JsValue :=
  let s := skip_spaces s in
  let '(neg, s) :=
    match s with
    | String "-" s' => (true, s')
    | String "+" s' => (false, s')
    | _ => (false, s)
    end in
  match leading_digits None s with
  | Some n => VNum (if neg then - n else n)
  | None => VNaN
  end.

(** [typeof v === 'string' ? parseInt(v, 10) : v] *)
Definition coerce_int (v : JsValue) : JsValue :=
  match v with VStr s => parseInt s | _ => v end.

(** [typeof v === 'string' ? parseInt(v, 10) : (v !== undefined ? v : d)] *)
Definition coerce_int_default (v : JsValue) (d : Z) : JsValue :=
  match v with
  | VStr s => parseInt s
  | VUndefined => VNum d
  | _ => v
  end.

(** ** Device records (the objects [createStandardDevice] builds) *)

Module CC.
Record t := mk {
  name : JsValue; description : JsValue; usage : JsValue; curve : JsValue;
  value : JsValue; min : JsValue; max : JsValue; type : JsValue
}.
End CC.

Module NRPN.
Record t := mk {
  name : JsValue; description : JsValue; usage : JsValue; curve : JsValue;
  msb : JsValue; lsb : JsValue; min : JsValue; max : JsValue; type : JsValue
}.
End NRPN.

Module MidiChannel.
Record t := mk { instructions : JsValue }.
End MidiChannel.

Record DeviceRecord := {
  brand : JsValue;
  device_name : JsValue;
  midi_thru : JsValue;
  midi_in : JsValue;
  midi_clock : JsValue;
  phantom_power : JsValue;
  midi_channel : MidiChannel.t;
  instructions : JsValue;
  cc : list CC.t;
  nrpn : list NRPN.t;
  pc : list CC.t
}.

(** Field assignments [d.f = v]. *)
Definition set_brand (d : DeviceRecord) (v : JsValue) : DeviceRecord :=
  {| brand := v; device_name := device_name d; midi_thru := midi_thru d;
     midi_in := midi_in d; midi_clock := midi_clock d;
     phantom_power := phantom_power d; midi_channel := midi_channel d;
     instructions := instructions d; cc := cc d; nrpn := nrpn d; pc := pc d |}.

Definition set_device_name (d : DeviceRecord) (v : JsValue) : DeviceRecord :=
  {| brand := brand d; device_name := v; midi_thru := midi_thru d;
     midi_in := midi_in d; midi_clock := midi_clock d;
     phantom_power := phantom_power d; midi_channel := midi_channel d;
     instructions := instructions d; cc := cc d; nrpn := nrpn d; pc := pc d |}.

Definition set_midi_thru (d : DeviceRecord) (v : JsValue) : DeviceRecord :=
  {| brand := brand d; device_name := device_name d; midi_thru := v;
     midi_in := midi_in d; midi_clock := midi_clock d;
     phantom_power := phantom_power d; midi_channel := midi_channel d;
     instructions := instructions d; cc := cc d; nrpn := nrpn d; pc := pc d |}.

Definition set_midi_in (d : DeviceRecord) (v : JsValue) : DeviceRecord :=
  {| brand := brand d; device_name := device_name d; midi_thru := midi_thru d;
     midi_in := v; midi_clock := midi_clock d;
     phantom_power := phantom_power d; midi_channel := midi_channel d;
     instructions := instructions d; cc := cc d; nrpn := nrpn d; pc := pc d |}.

Definition set_midi_clock (d : DeviceRecord) (v : JsValue) : DeviceRecord :=
  {| brand := brand d; device_name := device_name d; midi_thru := midi_thru d;
     midi_in := midi_in d; midi_clock := v;
     phantom_power := phantom_power d; midi_channel := midi_channel d;
     instructions := instructions d; cc := cc d; nrpn := nrpn d; pc := pc d |}.

Definition set_phantom_power (d : DeviceRecord) (v : JsValue) : DeviceRecord :=
  {| brand := brand d; device_name := device_name d; midi_thru := midi_thru d;
     midi_in := midi_in d; midi_clock := midi_clock d;
     phantom_power := v; midi_channel := midi_channel d;
     instructions := instructions d; cc := cc d; nrpn := nrpn d; pc := pc d |}.

Definition set_midi_channel (d : DeviceRecord) (v : MidiChannel.t) : DeviceRecord :=
  {| brand := brand d; device_name := device_name d; midi_thru := midi_thru d;
     midi_in := midi_in d; midi_clock := midi_clock d;
     phantom_power := phantom_power d; midi_channel := v;
     instructions := instructions d; cc := cc d; nrpn := nrpn d; pc := pc d |}.

Definition set_instructions (d : DeviceRecord) (v : JsValue) : DeviceRecord :=
  {| brand := brand d; device_name := device_name d; midi_thru := midi_thru d;
     midi_in := midi_in d; midi_clock := midi_clock d;
     phantom_power := phantom_power d; midi_channel := midi_channel d;
     instructions := v; cc := cc d; nrpn := nrpn d; pc := pc d |}.

Definition set_cc (d : DeviceRecord) (v : list CC.t) : DeviceRecord :=
  {| brand := brand d; device_name := device_name d; midi_thru := midi_thru d;
     midi_in := midi_in d; midi_clock := midi_clock d;
     phantom_power := phantom_power d; midi_channel := midi_channel d;
     instructions := instructions d; cc := v; nrpn := nrpn d; pc := pc d |}.

Definition set_nrpn (d : DeviceRecord) (v : list NRPN.t) : DeviceRecord :=
  {| brand := brand d; device_name := device_name d; midi_thru := midi_thru d;
     midi_in := midi_in d; midi_clock := midi_clock d;
     phantom_power := phantom_power d; midi_channel := midi_channel d;
     instructions := instructions d; cc := cc d; nrpn := v; pc := pc d |}.

Definition set_pc (d : DeviceRecord) (v : list CC.t) : DeviceRecord :=
  {| brand := brand d; device_name := device_name d; midi_thru := midi_thru d;
     midi_in := midi_in d; midi_clock := midi_clock d;
     phantom_power := phantom_power d; midi_channel := midi_channel d;
     instructions := instructions d; cc := cc d; nrpn := nrpn d; pc := v |}.

(** [l.map(f)] where [f] may throw *)
Fixpoint mapM_opt {A B} (f : A -> option B) (l : list A) : option (list B) :=
  match l with
  | [] => Some []
  | x :: l' =>
      match f x with
      | Some y =>
          match mapM_opt f l' with
          | Some ys => Some (y :: ys)
          | None => None
          end
      | None => None
      end
  end.

(** [(v || []).map(f)]: a truthy value that is not an array has no [map]. *)
Definition map_array {B} (f : JsValue -> option B) (v : JsValue) : option (list B) :=
  if truthy v then
    match v with
    | VArr elems => mapM_opt f elems
    | _ => None
    end
  else Some [].

Definition standard_cc (cc : JsValue) : option CC.t :=
  name ← js_get cc "name";
  description ← js_get cc "description";
  usage ← js_get cc "usage";
  curve ← js_get cc "curve";
  value ← js_get cc "value";
  min ← js_get cc "min";
  max ← js_get cc "max";
  type ← js_get cc "type";
  Some {| CC.name := js_or name (VStr "");
          CC.description := js_or description (VStr "");
          CC.usage := js_or usage (VStr "");
          CC.curve := js_or curve (VStr "0-based");
          CC.value := coerce_int value;
          CC.min := coerce_int_default min 0;
          CC.max := coerce_int_default max 127;
          CC.type := js_or type (VStr "Parameter") |}.

Definition standard_nrpn (nrpn : JsValue) : option NRPN.t :=
  name ← js_get nrpn "name";
  description ← js_get nrpn "description";
  usage ← js_get nrpn "usage";
  curve ← js_get nrpn "curve";
  msb ← js_get nrpn "msb";
  lsb ← js_get nrpn "lsb";
  min ← js_get nrpn "min";
  max ← js_get nrpn "max";
  type ← js_get nrpn "type";
  Some {| NRPN.name := js_or name (VStr "");
          NRPN.description := js_or description (VStr "");
          NRPN.usage := js_or usage (VStr "");
          NRPN.curve := js_or curve (VStr "0-based");
          NRPN.msb := coerce_int msb;
          NRPN.lsb := coerce_int lsb;
          NRPN.min := coerce_int_default min 0;
          NRPN.max := coerce_int_default max 16383;
          NRPN.type := js_or type (VStr "Parameter") |}.

Definition createStandardDevice (deviceData : JsValue) (brandName deviceName : JsValue)
    : option DeviceRecord :=
  d_midi_thru ← js_get deviceData "midi_thru";
  d_midi_in ← js_get deviceData "midi_in";
  d_midi_clock ← js_get deviceData "midi_clock";
  d_phantom_power ← js_get deviceData "phantom_power";
  d_midi_channel ← js_get deviceData "midi_channel";
  d_instructions ← js_get deviceData "instructions";
  d_cc ← js_get deviceData "cc";
  ccs ← map_array standard_cc d_cc;
  d_nrpn ← js_get deviceData "nrpn";
  nrpns ← map_array standard_nrpn d_nrpn;
  Some {| brand := brandName;
          device_name := deviceName;
          midi_thru := js_or d_midi_thru (VBool false);
          midi_in := js_or d_midi_in (VStr "");
          midi_clock := js_or d_midi_clock (VBool false);
          phantom_power := js_or d_phantom_power (VStr "None");
          midi_channel :=
            {| MidiChannel.instructions :=
                 js_or (js_get_opt d_midi_channel "instructions") (VStr "") |};
          instructions := js_or d_instructions (VStr "");
          cc := ccs;
          nrpn := nrpns;
          pc := [] |}.

(** ** The device merger *)

(** [{ ...deviceB, ...deviceA }]: both records carry every key of the
    schema, so each property of [deviceB] is overwritten by [deviceA]'s. *)
Definition spread2 (deviceB deviceA : DeviceRecord) : DeviceRecord :=
  {| brand := brand deviceA; device_name := device_name deviceA;
     midi_thru := midi_thru deviceA; midi_in := midi_in deviceA;
     midi_clock := midi_clock deviceA; phantom_power := phantom_power deviceA;
     midi_channel := midi_channel deviceA; instructions := instructions deviceA;
     cc := cc deviceA; nrpn := nrpn deviceA; pc := pc deviceA |}.

(** The body of the [forEach] over [['cc', 'nrpn', 'pc']] for one field. *)
Definition mergeArray {A} (a b : list A) : list A :=
  if (0 <? length a)%nat && (0 <? length b)%nat then
    (if (length b <=? length a)%nat then a else b)
  else if (0 <? length a)%nat then a
  else if (0 <? length b)%nat then b
  else [].

(** [merged.midi_channel.instructions] after the handling of the nested
    object, from the two instructions. *)
Definition mergeInstructions (instrA instrB : JsValue) : JsValue :=
  if truthy instrA && truthy instrB then
    (if js_ge (js_length instrA) (js_length instrB) then instrA else instrB)
  else instrA.

(** The spread is shallow: [merged.midi_channel] is the object of
    [deviceA], and the assignment to its [instructions] also changes
    [deviceA.midi_channel]. The function is modelled by the record it
    returns; [mergeAll_channel_idempotent] below shows that merging again
    from the changed primary record gives the same instructions, so
    visiting a bucket a second time does not change the result. *)
Definition mergeDevices (deviceA deviceB : DeviceRecord) : DeviceRecord :=
  let merged := spread2 deviceB deviceA in
  let merged := set_cc merged (mergeArray (cc deviceA) (cc deviceB)) in
  let merged := set_nrpn merged (mergeArray (nrpn deviceA) (nrpn deviceB)) in
  let merged := set_pc merged (mergeArray (pc deviceA) (pc deviceB)) in
  let instrA := MidiChannel.instructions (midi_channel deviceA) in
  let instrB := MidiChannel.instructions (midi_channel deviceB) in
  let merged :=
    if truthy instrA && truthy instrB then
      set_midi_channel merged
        {| MidiChannel.instructions :=
             if js_ge (js_length instrA) (js_length instrB) then instrA else instrB |}
    else merged in
  let merged := set_midi_thru merged (js_or (midi_thru merged) (VBool false)) in
  let merged := set_midi_in merged (js_or (midi_in merged) (VStr "")) in
  let merged := set_midi_clock merged (js_or (midi_clock merged) (VBool false)) in
  let merged := set_phantom_power merged (js_or (phantom_power merged) (VStr "None")) in
  (* [merged.midi_channel || { instructions: "" }]: an object is truthy *)
  let merged := set_midi_channel merged (midi_channel merged) in
  let merged := set_instructions merged (js_or (instructions merged) (VStr "")) in
  merged.

(** ** The resolution engine: collecting both databases *)

Record Variant := {
  brandKey : string;
  deviceKey : string;
  canonicalBrandName : string;
  canonicalDeviceName : string;
  data : DeviceRecord
}.

Record Manufacturer := {
  variants : list string;
  canonicalName : string;
  devices : obj string
}.

Record Engine := {
  manufacturers : obj Manufacturer;
  normalizedDeviceMap : obj (list Variant)
}.

Definition emptyEngine : Engine :=
  {| manufacturers := []; normalizedDeviceMap := [] |}.

Definition reservedKeys : list string := ["version"; "generatedAt"].

(** [l.includes(k)] *)
Definition includes (l : list string) (k : string) : bool :=
  existsb (String.eqb k) l.

(** [l.forEach(f)] over a state, where [f] may throw *)
Fixpoint forEachM {A S} (f : S -> A -> option S) (l : list A) (s : S) : option S :=
  match l with
  | [] => Some s
  | x :: l' =>
      match f s x with
      | Some s' => forEachM f l' s'
      | None => None
      end
  end.

(** [normalizedDeviceMap[deviceId].push(variant)], after the bucket has
    been created when missing, and
    [manufacturers[normalizedBrand].devices[normalizedDevice] = deviceId]. *)
Definition pushVariant (e : Engine) (normalizedBrand normalizedDevice deviceId : string)
    (variant : Variant) : Engine :=
  let bucket := default [] (obj_get (normalizedDeviceMap e) deviceId) in
  {| manufacturers :=
       match obj_get (manufacturers e) normalizedBrand with
       | Some man =>
           obj_set (manufacturers e) normalizedBrand
             {| variants := variants man; canonicalName := canonicalName man;
                devices := obj_set (devices man) normalizedDevice deviceId |}
       | None => manufacturers e
       end;
     normalizedDeviceMap :=
       obj_set (normalizedDeviceMap e) deviceId (bucket ++ [variant]) |}.

(** The body of the inner [forEach] of the target database. *)
Definition targetDevice (m : Mappings) (brandKey normalizedBrand canonicalBrand : string)
    (e : Engine) (entry : string * JsValue) : option Engine :=
  let '(deviceKey, deviceData) := entry in
  let normalizedDevice := normalized (normalizeAndMapKey deviceKey (deviceMapping m) None) in
  let displayDeviceName := getModelDisplayName m normalizedBrand normalizedDevice in
  let deviceId := normalizedBrand +:+ "_" +:+ normalizedDevice in
  d_brand ← js_get deviceData "brand";
  d_device_name ← js_get deviceData "device_name";
  standard ← createStandardDevice deviceData
                (js_or d_brand (VStr canonicalBrand))
                (js_or d_device_name (VStr displayDeviceName));
  Some (pushVariant e normalizedBrand normalizedDevice deviceId
          {| brandKey := brandKey; deviceKey := deviceKey;
             canonicalBrandName := canonicalBrand;
             canonicalDeviceName := displayDeviceName;
             data := standard |}).

(** The body of the outer [forEach] of the target database. *)
Definition targetBrand (m : Mappings) (e : Engine) (entry : string * JsValue)
    : option Engine :=
  let '(brandKey, brandData) := entry in
  if includes reservedKeys brandKey then Some e else
  let nk := normalizeAndMapKey brandKey (manufacturerMapping m) (Some (brandDisplayNames m)) in
  let normalizedBrand := normalized nk in
  let canonicalBrand := canonical nk in
  let manufacturers' :=
    match obj_get (manufacturers e) normalizedBrand with
    | None =>
        obj_set (manufacturers e) normalizedBrand
          {| variants := [brandKey]; canonicalName := canonicalBrand; devices := [] |}
    | Some man =>
        obj_set (manufacturers e) normalizedBrand
          {| variants := variants man ++ [brandKey];
             canonicalName := canonicalName man; devices := devices man |}
    end in
  let e := {| manufacturers := manufacturers';
              normalizedDeviceMap := normalizedDeviceMap e |} in
  entries ← js_entries brandData;
  forEachM (targetDevice m brandKey normalizedBrand canonicalBrand) entries e.

(** The object literal stored by the special handling of [pc]. *)
Definition programChange (pcData : JsValue) : JsValue :=
  VObj [("name", VStr "Program Change");
        ("description", js_or (js_get_opt pcData "description") (VStr ""));
        ("usage", VStr "");
        ("curve", VStr "0-based");
        ("value", VNum 0);
        ("min", VNum 0);
        ("max", VNum 127);
        ("type", VStr "Parameter")].

(** [if (deviceData.pc && !Array.isArray(deviceData.pc)) deviceData.pc = [...]]:
    the raw device after the assignment. *)
Definition normalizePc (deviceData : JsValue) : option JsValue :=
  d_pc ← js_get deviceData "pc";
  if truthy d_pc && negb (isArray d_pc) then
    match deviceData with
    | VObj props => Some (VObj (obj_set props "pc" (VArr [programChange d_pc])))
    | _ => Some deviceData
    end
  else Some deviceData.

(** The body of the inner [forEach] of the source database. *)
Definition sourceDevice (m : Mappings) (brandKey normalizedBrand canonicalBrand : string)
    (e : Engine) (entry : string * JsValue) : option Engine :=
  let '(deviceKey, deviceData) := entry in
  let normalizedDevice := normalized (normalizeAndMapKey deviceKey (deviceMapping m) None) in
  let displayDeviceName := getModelDisplayName m normalizedBrand normalizedDevice in
  let deviceId := normalizedBrand +:+ "_" +:+ normalizedDevice in
  deviceData ← normalizePc deviceData;
  standard ← createStandardDevice deviceData (VStr canonicalBrand) (VStr displayDeviceName);
  Some (pushVariant e normalizedBrand normalizedDevice deviceId
          {| brandKey := brandKey; deviceKey := deviceKey;
             canonicalBrandName := canonicalBrand;
             canonicalDeviceName := displayDeviceName;
             data := standard |}).

(** The body of the outer [forEach] of the source database. *)
Definition sourceBrand (m : Mappings) (e : Engine) (entry : string * JsValue)
    : option Engine :=
  let '(brandKey, brandData) := entry in
  let nk := normalizeAndMapKey brandKey (manufacturerMapping m) (Some (brandDisplayNames m)) in
  let normalizedBrand := normalized nk in
  let canonicalBrand := canonical nk in
  let manufacturers' :=
    match obj_get (manufacturers e) normalizedBrand with
    | None =>
        obj_set (manufacturers e) normalizedBrand
          {| variants := [brandKey]; canonicalName := canonicalBrand; devices := [] |}
    | Some man =>
        if includes (variants man) brandKey then manufacturers e
        else
          obj_set (manufacturers e) normalizedBrand
            {| variants := variants man ++ [brandKey];
               canonicalName := canonicalName man; devices := devices man |}
    end in
  let e := {| manufacturers := manufacturers';
              normalizedDeviceMap := normalizedDeviceMap e |} in
  entries ← js_entries brandData;
  forEachM (sourceDevice m brandKey normalizedBrand canonicalBrand) entries e.

(** [metadata]: the reserved keys the target database defines. *)
Definition collectMetadata (targetDb : JsValue) : option (obj JsValue) :=
  forEachM
    (fun metadata key =>
       v ← js_get targetDb key;
       Some (if is_defined v then obj_set metadata key v else metadata))
    reservedKeys [].

(** Both [forEach] loops over the two databases. *)
Definition collect (m : Mappings) (targetDb sourceDb : JsValue) : option Engine :=
  targetEntries ← js_entries targetDb;
  e ← forEachM (targetBrand m) targetEntries emptyEngine;
  sourceEntries ← js_entries sourceDb;
  forEachM (sourceBrand m) sourceEntries e.

(** ** The resolution engine: final assembly *)

(** A property of [finalDb]: a reserved key copied from the target
    database, or a brand with its devices. *)
Inductive FinalEntry : Type :=
  | Metadata (v : JsValue)
  | Brand (models : obj DeviceRecord).

(** [variant.canonicalDeviceName || variant.deviceKey] *)
Definition modelNameOf (variant : Variant) : string :=
  if String.eqb (canonicalDeviceName variant) "" then deviceKey variant
  else canonicalDeviceName variant.

(** [variantsByName] after the [forEach] over [deviceVariants]. *)
Definition groupVariants (deviceVariants : list Variant) : obj (list Variant) :=
  fold_left
    (fun variantsByName variant =>
       let modelName := modelNameOf variant in
       obj_set variantsByName modelName
         (default [] (obj_get variantsByName modelName) ++ [variant]))
    deviceVariants [].

(** [aCount] and [bCount] of the comparator. *)
Definition paramCount (variant : Variant) : nat :=
  length (cc (data variant)) + length (nrpn (data variant)) + length (pc (data variant)).

Fixpoint insertVariant (v : Variant) (sorted : list Variant) : list Variant :=
  match sorted with
  | [] => [v]
  | w :: rest =>
      if (paramCount w <=? paramCount v)%nat then v :: w :: rest
      else w :: insertVariant v rest
  end.

(** [variants.sort((a, b) => bCount - aCount)]: descending by parameter
    count; the sort is stable, so equal counts keep their order. *)
Definition sortVariants (l : list Variant) : list Variant :=
  foldr insertVariant [] l.

(** The loop [for (let i = 1; ...) mergedData = mergeDevices(mergedData, variants[i].data)]
    started from the copy of the primary variant's record. *)
Definition mergeAll (primary : DeviceRecord) (others : list Variant) : DeviceRecord :=
  fold_left (fun mergedData variant => mergeDevices mergedData (data variant))
    others primary.

(** [mergedData] for one model: the variants sorted, the first one merged
    with the others, then [brand] and [device_name] overwritten. Every
    array of [variantsByName] holds at least one variant; [variants[0].data]
    of an empty array would throw. *)
Definition modelRecord (primaryBrandKey modelName : string) (variants : list Variant)
    : option DeviceRecord :=
  match sortVariants variants with
  | [] => None
  | primaryVariant :: others =>
      let mergedData := mergeAll (data primaryVariant) others in
      let mergedData := set_brand mergedData (VStr primaryBrandKey) in
      let mergedData := set_device_name mergedData (VStr modelName) in
      Some mergedData
  end.

(** The body of the [forEach] over [Object.entries(variantsByName)];
    [models] is [finalDb[primaryBrandKey]]. *)
Definition mergeModel (primaryBrandKey : string) (models : obj DeviceRecord)
    (group : string * list Variant) : option (obj DeviceRecord) :=
  let '(modelName, variants) := group in
  mergedData ← modelRecord primaryBrandKey modelName variants;
  Some (obj_set models modelName mergedData).

(** The body of the [forEach] over [Object.entries(data.devices)]. *)
Definition processDevice (buckets : obj (list Variant)) (primaryBrandKey : string)
    (models : obj DeviceRecord) (entry : string * string) : option (obj DeviceRecord) :=
  let '(normalizedDevice, deviceId) := entry in
  deviceVariants ← obj_get buckets deviceId;
  forEachM (mergeModel primaryBrandKey) (obj_entries (groupVariants deviceVariants)) models.

(** The devices of one manufacturer, built from an empty object. *)
Definition brandModels (buckets : obj (list Variant)) (man : Manufacturer)
    : option (obj DeviceRecord) :=
  forEachM (processDevice buckets (canonicalName man)) (obj_entries (devices man)) [].

(** The body of the [forEach] over [Object.entries(manufacturers)]:
    [finalDb[primaryBrandKey]] is the object created at the top of the
    iteration, and the inner loops only add properties to it. *)
Definition assembleBrand (buckets : obj (list Variant)) (finalDb : obj FinalEntry)
    (entry : string * Manufacturer) : option (obj FinalEntry) :=
  let '(normalizedBrand, man) := entry in
  let primaryBrandKey := canonicalName man in
  let finalDb := obj_set finalDb primaryBrandKey (Brand []) in
  models ← brandModels buckets man;
  Some (obj_set finalDb primaryBrandKey (Brand models)).

(** [finalDb = { ...metadata }] followed by the loop over the manufacturers. *)
Definition assemble (metadata : obj JsValue) (e : Engine) : option (obj FinalEntry) :=
  forEachM (assembleBrand (normalizedDeviceMap e)) (obj_entries (manufacturers e))
    (map (fun kv => (fst kv, Metadata (snd kv))) metadata).

(** The merge script from the parsed databases to [finalDb]. *)
Definition resolve (m : Mappings) (targetDb sourceDb : JsValue) : option (obj FinalEntry) :=
  metadata ← collectMetadata targetDb;
  e ← collect m targetDb sourceDb;
  assemble metadata e.

(** ** The scenario of the specification *)

Module Scenario.

Definition targetDb : JsValue :=
  VObj [("BOSS", VObj [("GT-1000", VObj [("cc", VArr [VObj [("name", VStr "Gain")]])])])].

Definition sourceDevice : JsValue :=
  VObj [("cc", VArr [VObj [("name", VStr "Gain")]; VObj [("name", VStr "Volume")]])].

Definition sourceDb : JsValue :=
  VObj [("roland", VObj [("gt1000", sourceDevice)])].

Definition aliases : Mappings :=
  {| manufacturerMapping := {[ "roland" := "boss" ]};
     deviceMapping := {[ "gt1000" := "gt-1000" ]};
     brandDisplayNames := {[ "boss" := "BOSS" ]};
     modelDisplayNames := {[ "boss" := {[ "gt-1000" := "GT-1000" ]} ]} |}.

End Scenario.

(** ** The latest database file ([findLatestDatabase]) *)

(** [s.endsWith(suffix)] *)
Definition ends_with (suffix s : string) : bool :=
  (String.length suffix <=? String.length s)%nat &&
  String.eqb (Str.drop (String.length s - String.length suffix) s) suffix.

(** The filter of [findLatestDatabase]. *)
Definition isDbFile (file : string) : bool :=
  Str.starts_with false "midi-database-v" file &&
  ends_with ".json" file &&
  negb (ends_with ".min.json" file) &&
  negb (ends_with ".json.gz" file).

Fixpoint insertName (x : string) (sorted : list string) : list string :=
  match sorted with
  | [] => [x]
  | y :: rest => if String.leb x y then x :: sorted else y :: insertName x rest
  end.

(** [names.sort()] without a comparator: ascending, character by
    character. Equal strings cannot be told apart, so the sorting
    algorithm does not matter. *)
Definition sortNames (names : list string) : list string :=
  foldr insertName [] names.

(** [findLatestDatabase], from the names [readdirSync] returns to the
    chosen file name (the directory it is joined to is left out); [None]
    is the thrown error. *)
Definition findLatestDatabase (files : list string) : option string :=
  let dbFiles := List.filter isDbFile files in
  if (length dbFiles =? 0)%nat then None
  else head (rev (sortNames dbFiles)).

(** ** Loading the alias configuration ([loadMappings]) *)

(** What reading and parsing [mapping.json] gives: [readFileSync] throws
    when the file is missing and [JSON.parse] throws on malformed text. *)
Inductive ConfigFile : Type :=
  | Missing
  | Unparseable
  | Json (mapping : JsValue).

Definition parsedConfig (f : ConfigFile) : option JsValue :=
  match f with
  | Json mapping => Some mapping
  | Missing | Unparseable => None
  end.

(** [keys.forEach(k => table[k] = v)] *)
Definition registerAll (v : string) (keys : list string) (table : gmap string string)
    : gmap string string :=
  fold_left (fun t k => <[k := v]> t) keys table.

(** The raw keys registered for one brand, in the order of the assignments. *)
Definition brandVariants (brandValue brandName : string) : list string :=
  [ brandValue;
    Str.toLowerCase brandName;
    Str.replace_spaces "" (Str.toLowerCase brandName);
    Str.replace_spaces "_" (Str.toLowerCase brandName);
    Str.replace_spaces "-" (Str.toLowerCase brandName);
    brandValue +:+ "_music"; brandValue +:+ "music";
    brandValue +:+ "_audio"; brandValue +:+ "audio";
    brandValue +:+ "_electronics"; brandValue +:+ "electronics";
    brandValue +:+ "_pedals"; brandValue +:+ "pedals";
    brandValue +:+ "_effects"; brandValue +:+ "effects";
    brandValue +:+ "_engineering"; brandValue +:+ "engineering";
    Str.replace_char "-" "_" brandValue;
    Str.replace_char "_" "-" brandValue ].

(** The raw keys registered for one model. *)
Definition modelVariants (modelValue modelName : string) : list string :=
  [ modelValue;
    Str.toLowerCase modelName;
    Str.replace_spaces "" (Str.toLowerCase modelName);
    Str.replace_spaces "_" (Str.toLowerCase modelName);
    Str.replace_spaces "-" (Str.toLowerCase modelName);
    Str.replace_char "-" "_" modelValue;
    Str.replace_char "_" "-" modelValue;
    Str.replace_char "." "" modelValue;
    Str.replace_first_ci true "mk" "mark" modelValue;
    Str.replace_first_ci true "mark" "mk" modelValue;
    Str.replace_first_ci false "mkii" "mk2" modelValue;
    Str.replace_first_ci false "mk2" "mkii" modelValue ].

(** The body of [brand.models.forEach] in the first pass: [toLowerCase]
    and [replace] exist on strings only. *)
Definition registerModel (deviceMapping : gmap string string) (model : JsValue)
    : option (gmap string string) :=
  m_value ← js_get model "value";
  if negb (truthy m_value) then Some deviceMapping else
  m_name ← js_get model "name";
  match m_value, js_or m_name m_value with
  | VStr modelValue, VStr modelName =>
      Some (registerAll modelValue (modelVariants modelValue modelName) deviceMapping)
  | _, _ => None
  end.

(** [brand.models && Array.isArray(brand.models)] *)
Definition modelsOf (brand : JsValue) : option (list JsValue) :=
  models ← js_get brand "models";
  match models with
  | VArr l => Some l
  | _ => Some []
  end.

(** The body of the first [mapping.brands.forEach]. *)
Definition registerBrand (tables : gmap string string * gmap string string)
    (brand : JsValue) : option (gmap string string * gmap string string) :=
  let '(manufacturerMapping, deviceMapping) := tables in
  b_value ← js_get brand "value";
  b_name ← js_get brand "name";
  match b_value, b_name with
  | VStr brandValue, VStr brandName =>
      let manufacturerMapping :=
        registerAll brandValue (brandVariants brandValue brandName) manufacturerMapping in
      models ← modelsOf brand;
      deviceMapping ← forEachM registerModel models deviceMapping;
      Some (manufacturerMapping, deviceMapping)
  | _, _ => None
  end.

(** The body of the second [forEach]; the first pass has already checked
    that every brand has a string [value] and [name]. *)
Definition registerBrandName (names : gmap string string) (brand : JsValue)
    : option (gmap string string) :=
  b_value ← js_get brand "value";
  b_name ← js_get brand "name";
  match b_value, b_name with
  | VStr brandValue, VStr brandName => Some (<[brandValue := brandName]> names)
  | _, _ => None
  end.

Definition registerModelName (brandValue : string)
    (names : gmap string (gmap string string)) (model : JsValue)
    : option (gmap string (gmap string string)) :=
  m_value ← js_get model "value";
  m_name ← js_get model "name";
  if truthy m_value && truthy m_name then
    match m_value, m_name with
    | VStr modelValue, VStr modelName =>
        Some (<[brandValue := <[modelValue := modelName]> (default ∅ (names !! brandValue))]> names)
    | _, _ => None
    end
  else Some names.

(** The body of the third [forEach]. *)
Definition registerModelNames (names : gmap string (gmap string string)) (brand : JsValue)
    : option (gmap string (gmap string string)) :=
  b_value ← js_get brand "value";
  match b_value with
  | VStr brandValue =>
      models ← modelsOf brand;
      forEachM (registerModelName brandValue) models names
  | _ => None
  end.

(** [mapping.brands], which must have a [forEach]: an array. *)
Definition brandsOf (mapping : JsValue) : option (list JsValue) :=
  brands ← js_get mapping "brands";
  match brands with
  | VArr l => Some l
  | _ => None
  end.

(** The [try] block of [loadMappings] once the file has been parsed. *)
Definition buildMappings (mapping : JsValue) : option Mappings :=
  brands ← brandsOf mapping;
  tables ← forEachM registerBrand brands (∅, ∅);
  brandNames ← forEachM registerBrandName brands ∅;
  modelNames ← forEachM registerModelNames brands ∅;
  Some {| manufacturerMapping := fst tables; deviceMapping := snd tables;
          brandDisplayNames := brandNames; modelDisplayNames := modelNames |}.

(** [loadMappings]: any exception of the [try] block ends in the [catch],
    which returns four empty tables. *)
Definition loadMappings (f : ConfigFile) : Mappings :=
  match parsedConfig f ≫= buildMappings with
  | Some tables => tables
  | None => emptyMappings
  end.

(** The merge script as a whole: the tables are loaded, then the two
    databases are resolved. *)
Definition mergeScript (f : ConfigFile) (targetDb sourceDb : JsValue)
    : option (obj FinalEntry) :=
  resolve (loadMappings f) targetDb sourceDb.

(** ** The mapping diagnostics script *)

Module Diagnostics.

(** ToString of a value inside a template literal. *)
Fixpoint js_toString (v : JsValue) : string :=
  match v with
  | VUndefined => "undefined"
  | VNull => "null"
  | VBool true => "true"
  | VBool false => "false"
  | VNum n => DecimalString.NilZero.string_of_int (Z.to_int n)
  | VNaN => "NaN"
  | VStr s => s
  | VArr elems =>
      (fix join (first : bool) (l : list JsValue) : string :=
         match l with
         | [] => ""
         | x :: l' =>
             (if first then "" else ",") +:+
             match x with
             | VUndefined | VNull => ""
             | _ => js_toString x
             end +:+ join false l'
         end) true elems
  | VObj _ => "[object Object]"
  end.

(** The two properties of a brand entry of [mapping.json] the script reads. *)
Record BrandEntry := { value : string; name : string }.

Record Lookups := {
  brandsByName : gmap string BrandEntry;
  brandsByValue : gmap string BrandEntry;
  devicesByValue : gset string
}.

Definition noLookups : Lookups :=
  {| brandsByName := ∅; brandsByValue := ∅; devicesByValue := ∅ |}.

(** The body of [brand.models.forEach]. *)
Definition registerModel (brandValue : string) (known : gset string) (model : JsValue)
    : option (gset string) :=
  m_value ← js_get model "value";
  if negb (truthy m_value) then Some known
  else Some ({[ Str.toLowerCase (brandValue +:+ "_" +:+ js_toString m_value) ]} ∪ known).

(** The body of [mapping.brands.forEach]. *)
Definition registerBrand (l : Lookups) (brand : JsValue) : option Lookups :=
  b_name ← js_get brand "name";
  b_value ← js_get brand "value";
  match b_name, b_value with
  | VStr brandName, VStr brandValue =>
      let entry := {| value := brandValue; name := brandName |} in
      models ← js_get brand "models";
      known ←
        (if truthy models then
           match models with
           | VArr ms => forEachM (registerModel brandValue) ms (devicesByValue l)
           | _ => None
           end
         else Some (devicesByValue l));
      Some {| brandsByName := <[Str.toLowerCase brandName := entry]> (brandsByName l);
              brandsByValue := <[Str.toLowerCase brandValue := entry]> (brandsByValue l);
              devicesByValue := known |}
  | _, _ => None
  end.

Definition buildLookups (mapping : JsValue) : option Lookups :=
  brands ← brandsOf mapping;
  forEachM registerBrand brands noLookups.

(** The brand of the mapping a database key refers to, if any: by
    lower-cased name, then by value with the spaces removed, then by
    lower-cased value. *)
Definition findBrand (l : Lookups) (brandKey : string) : option BrandEntry :=
  let normalizedBrandKey := Str.replace_spaces "" (Str.toLowerCase brandKey) in
  match brandsByName l !! Str.toLowerCase brandKey with
  | Some brand => Some brand
  | None =>
      match brandsByValue l !! normalizedBrandKey with
      | Some brand => Some brand
      | None => brandsByValue l !! Str.toLowerCase brandKey
      end
  end.

(** [missingBrands] (a [Set]) and [missingDevices] (a [Map] of [Set]s), in
    insertion order. *)
Record Report := {
  missingBrands : list string;
  missingDevices : list (string * list string)
}.

Definition emptyReport : Report := {| missingBrands := []; missingDevices := [] |}.

(** [set.add(x)] *)
Definition set_add (l : list string) (x : string) : list string :=
  if includes l x then l else l ++ [x].

(** [if (!map.has(k)) map.set(k, new Set()); map.get(k).add(x)] *)
Fixpoint map_add (m : list (string * list string)) (k x : string)
    : list (string * list string) :=
  match m with
  | [] => [(k, [x])]
  | (k', set) :: m' =>
      if String.eqb k' k then (k', set_add set x) :: m'
      else (k', set) :: map_add m' k x
  end.

Definition checkDevice (l : Lookups) (brand : BrandEntry) (r : Report)
    (entry : string * JsValue) : option Report :=
  let deviceKey := fst entry in
  let deviceId :=
    value brand +:+ "_" +:+ Str.replace_spaces "" (Str.toLowerCase deviceKey) in
  if bool_decide (deviceId ∈ devicesByValue l) then Some r
  else Some {| missingBrands := missingBrands r;
               missingDevices := map_add (missingDevices r) (value brand) deviceKey |}.

(** The body of the [forEach] over the keys of a database; only the
    target database is filtered by [reservedKeys]. *)
Definition checkBrand (skipReserved : bool) (l : Lookups) (r : Report)
    (entry : string * JsValue) : option Report :=
  let '(brandKey, brandData) := entry in
  if skipReserved && includes reservedKeys brandKey then Some r else
  match findBrand l brandKey with
  | None => Some {| missingBrands := set_add (missingBrands r) brandKey;
                    missingDevices := missingDevices r |}
  | Some brand =>
      devices ← js_entries brandData;
      forEachM (checkDevice l brand) devices r
  end.

(** The script up to its two collections, [missingBrands] and
    [missingDevices]. [mapping.json] is read at the top level, outside any
    [try]: an exception there ends the process. The console report that
    follows the two loops is not modelled: a result [Some r] says that the
    collections were built, not that the report was printed. The report
    reads [brandsByValue.get(brandValue).name] for every key of
    [missingDevices]; the keys of [brandsByValue] are lower-cased and those
    of [missingDevices] are not, so the report throws on a brand value with
    a capital letter. *)
Definition run (f : ConfigFile) (targetDb sourceDb : JsValue) : option Report :=
  mapping ← parsedConfig f;
  l ← buildLookups mapping;
  targetEntries ← js_entries targetDb;
  r ← forEachM (checkBrand true l) targetEntries emptyReport;
  sourceEntries ← js_entries sourceDb;
  forEachM (checkBrand false l) sourceEntries r.

End Diagnostics.

(** ** The merge script with built-in alias tables ([merge.js]) *)

(** [merge.js] shares [findLatestDatabase], [mergeDevices],
    [createStandardDevice], the copy of the metadata and the special
    handling of [pc] with the script above. Its alias tables are object
    literals, its key normalizer has no display-name table, and its loop
    over the source database creates manufacturers without a
    [canonicalName] and variants without canonical names. *)
Module Legacy.

Definition manufacturerMapping : gmap string string :=
  list_to_map
    [("access_music", "Access"); ("accessmusic", "Access");
     ("alexander_pedals", "Alexander Pedals");
     ("arturiamusic", "Arturia");
     ("atomic_amps", "Atomic Amps"); ("atomicamps", "Atomic Amps");
     ("audiothingies", "Audio Thingies"); ("audio_thingies", "Audio Thingies");
     ("black_corporation", "Black Crporation");
     ("blackcorporation", "Black Corporation");
     ("behringer_music", "Behringer");
     ("bluguitar", "Blu Guitar"); ("blu_guitar", "Blu Guitar");
     ("bondi_effects", "Bondi Effects"); ("bondieffects", "Bondi Effects");
     ("roland_boss", "BOSS"); ("roland", "BOSS");
     ("chase_bliss", "Chase Bliss Audio"); ("chaseblissaudio", "Chase Bliss Audio");
     ("chase_bliss_audio", "Chase Bliss Audio");
     ("empress_effects", "Empress Effects");
     ("meris_llc", "Meris");
     ("3_degrees_audio", "3 Degrees Audio"); ("3degreesaudio", "3 Degrees Audio");
     ("strymon_engineering", "Strymon")].

Definition deviceMapping : gmap string string :=
  list_to_map
    [("virus_a", "Virus A"); ("virus_b", "Virus B"); ("virus_c", "Virus C");
     ("virus_ti", "Virus TI"); ("virus_ti2", "Virus TI2");
     ("virustidesk", "Virus TI Desktop"); ("virustikeyboard", "Virus TI Keyboard");
     ("matrixbrute", "Matrixbrute"); ("matrix_brute", "Matrixbrute");
     ("superneo-matic", "superneomatic"); ("super_neo_matic", "superneomatic");
     ("f13_neo", "f13neo"); ("colour_theory", "colourtheory");
     ("deepmind12", "Deepmind 12"); ("deepmind12d", "Deepmind 12D");
     ("deepmind-6", "Deepmind 6"); ("deepmind_6", "Deepmind 6");
     ("amp1_mercury_edition", "Amp1 Mercury Iridium");
     ("amp1_mercury", "Amp1 Mercury Iridium");
     ("amplifire", "Amplifire"); ("amplifire3", "Amplifire 3");
     ("amplifire_3", "Amplifire 3"); ("amplifire6", "Amplifire 6");
     ("amplifire_6", "Amplifire 6"); ("amplifire12", "Amplifire 12");
     ("amplifire_12", "Amplifire 12");
     ("mood", "mood"); ("moodmkii", "mood_mkii"); ("mood_mkii", "mood_mkii");
     ("blooper", "blooper"); ("thermae", "thermae");
     ("generation_loss_mki", "Generation Loss MK I");
     ("generation_loss_mkii", "Generation Loss MK II");
     ("preamp_mkii", "preamp_mkii");
     ("mercury7", "Mercury 7"); ("mercury_7", "Mercury 7");
     ("huestereo", "HUE Stereo"); ("hue_stereo_multi_fx", "HUE Stereo")].

(** [normalizeAndMapKey(key, mappingTable)]: the canonical name of a mapped
    key is the table entry itself. *)
Definition normalizeAndMapKey (key : string) (mappingTable : gmap string string)
    : NormalizedKey :=
  match truthy_entry mappingTable key with
  | Some mapped =>
      {| normalized := Str.normalize_id mapped; canonical := mapped |}
  | None =>
      let lowercaseKey := Str.toLowerCase key in
      match truthy_entry mappingTable lowercaseKey with
      | Some mapped =>
          {| normalized := Str.normalize_id mapped; canonical := mapped |}
      | None =>
          {| normalized := Str.normalize_id key; canonical := key |}
      end
  end.

(** The variants of the source database have neither [canonicalBrandName]
    nor [canonicalDeviceName], and its manufacturers no [canonicalName]:
    a missing property is [None]. *)
Record Variant := {
  brandKey : string;
  deviceKey : string;
  canonicalBrandName : option string;
  canonicalDeviceName : option string;
  data : DeviceRecord
}.

Record Manufacturer := {
  variants : list string;
  canonicalName : option string;
  devices : obj string
}.

Record Engine := {
  manufacturers : obj Manufacturer;
  normalizedDeviceMap : obj (list Variant)
}.

Definition emptyEngine : Engine := {| manufacturers := []; normalizedDeviceMap := [] |}.

Definition pushVariant (e : Engine) (normalizedBrand normalizedDevice deviceId : string)
    (variant : Variant) : Engine :=
  let bucket := default [] (obj_get (normalizedDeviceMap e) deviceId) in
  {| manufacturers :=
       match obj_get (manufacturers e) normalizedBrand with
       | Some man =>
           obj_set (manufacturers e) normalizedBrand
             {| variants := variants man; canonicalName := canonicalName man;
                devices := obj_set (devices man) normalizedDevice deviceId |}
       | None => manufacturers e
       end;
     normalizedDeviceMap :=
       obj_set (normalizedDeviceMap e) deviceId (bucket ++ [variant]) |}.

(** The body of the inner [forEach] of the target database. *)
Definition targetDevice (brandKey normalizedBrand canonicalBrand : string)
    (e : Engine) (entry : string * JsValue) : option Engine :=
  let '(deviceKey, deviceData) := entry in
  let nk := normalizeAndMapKey deviceKey deviceMapping in
  let normalizedDevice := normalized nk in
  let canonicalDevice := canonical nk in
  let deviceId := normalizedBrand +:+ "_" +:+ normalizedDevice in
  d_brand ← js_get deviceData "brand";
  d_device_name ← js_get deviceData "device_name";
  standard ← createStandardDevice deviceData
                (js_or d_brand (VStr canonicalBrand))
                (js_or d_device_name (VStr canonicalDevice));
  Some (pushVariant e normalizedBrand normalizedDevice deviceId
          {| brandKey := brandKey; deviceKey := deviceKey;
             canonicalBrandName := Some canonicalBrand;
             canonicalDeviceName := Some canonicalDevice;
             data := standard |}).

(** The body of the outer [forEach] of the target database. *)
Definition targetBrand (e : Engine) (entry : string * JsValue) : option Engine :=
  let '(brandKey, brandData) := entry in
  if includes reservedKeys brandKey then Some e else
  let nk := normalizeAndMapKey brandKey manufacturerMapping in
  let normalizedBrand := normalized nk in
  let canonicalBrand := canonical nk in
  let manufacturers' :=
    match obj_get (manufacturers e) normalizedBrand with
    | None =>
        obj_set (manufacturers e) normalizedBrand
          {| variants := [brandKey]; canonicalName := Some canonicalBrand;
             devices := [] |}
    | Some man =>
        obj_set (manufacturers e) normalizedBrand
          {| variants := variants man ++ [brandKey];
             canonicalName := canonicalName man; devices := devices man |}
    end in
  let e := {| manufacturers := manufacturers';
              normalizedDeviceMap := normalizedDeviceMap e |} in
  entries ← js_entries brandData;
  forEachM (targetDevice brandKey normalizedBrand canonicalBrand) entries e.

(** The body of the inner [forEach] of the source database: the record is
    standardized with the raw keys as its names. *)
Definition sourceDevice (brandKey normalizedBrand : string)
    (e : Engine) (entry : string * JsValue) : option Engine :=
  let '(deviceKey, deviceData) := entry in
  let normalizedDevice := normalized (normalizeAndMapKey deviceKey deviceMapping) in
  let deviceId := normalizedBrand +:+ "_" +:+ normalizedDevice in
  deviceData ← normalizePc deviceData;
  standard ← createStandardDevice deviceData (VStr brandKey) (VStr deviceKey);
  Some (pushVariant e normalizedBrand normalizedDevice deviceId
          {| brandKey := brandKey; deviceKey := deviceKey;
             canonicalBrandName := None; canonicalDeviceName := None;
             data := standard |}).

(** The body of the outer [forEach] of the source database: a new
    manufacturer is [{ variants: [brandKey], devices: {} }]. *)
Definition sourceBrand (e : Engine) (entry : string * JsValue) : option Engine :=
  let '(brandKey, brandData) := entry in
  let normalizedBrand := normalized (normalizeAndMapKey brandKey manufacturerMapping) in
  let manufacturers' :=
    match obj_get (manufacturers e) normalizedBrand with
    | None =>
        obj_set (manufacturers e) normalizedBrand
          {| variants := [brandKey]; canonicalName := None; devices := [] |}
    | Some man =>
        if includes (variants man) brandKey then manufacturers e
        else
          obj_set (manufacturers e) normalizedBrand
            {| variants := variants man ++ [brandKey];
               canonicalName := canonicalName man; devices := devices man |}
    end in
  let e := {| manufacturers := manufacturers';
              normalizedDeviceMap := normalizedDeviceMap e |} in
  entries ← js_entries brandData;
  forEachM (sourceDevice brandKey normalizedBrand) entries e.

Definition collect (targetDb sourceDb : JsValue) : option Engine :=
  targetEntries ← js_entries targetDb;
  e ← forEachM targetBrand targetEntries emptyEngine;
  sourceEntries ← js_entries sourceDb;
  forEachM sourceBrand sourceEntries e.

(** [variant.canonicalDeviceName || variant.deviceKey] *)
Definition modelNameOf (variant : Variant) : string :=
  match canonicalDeviceName variant with
  | Some name => if String.eqb name "" then deviceKey variant else name
  | None => deviceKey variant
  end.

Definition groupVariants (deviceVariants : list Variant) : obj (list Variant) :=
  fold_left
    (fun variantsByName variant =>
       let modelName := modelNameOf variant in
       obj_set variantsByName modelName
         (default [] (obj_get variantsByName modelName) ++ [variant]))
    deviceVariants [].

Definition paramCount (variant : Variant) : nat :=
  length (cc (data variant)) + length (nrpn (data variant)) + length (pc (data variant)).

Fixpoint insertVariant (v : Variant) (sorted : list Variant) : list Variant :=
  match sorted with
  | [] => [v]
  | w :: rest =>
      if (paramCount w <=? paramCount v)%nat then v :: w :: rest
      else w :: insertVariant v rest
  end.

Definition sortVariants (l : list Variant) : list Variant :=
  foldr insertVariant [] l.

Definition mergeAll (primary : DeviceRecord) (others : list Variant) : DeviceRecord :=
  fold_left (fun mergedData variant => mergeDevices mergedData (data variant))
    others primary.

(** [finalDb[primaryBrandKey]]: a missing name is the property
    [undefined]. *)
Definition propertyKey (primaryBrandKey : option string) : string :=
  default "undefined" primaryBrandKey.

(** [mergedData.brand = primaryBrandKey] *)
Definition brandField (primaryBrandKey : option string) : JsValue :=
  match primaryBrandKey with
  | Some name => VStr name
  | None => VUndefined
  end.

Definition modelRecord (primaryBrandKey : option string) (modelName : string)
    (variants : list Variant) : option DeviceRecord :=
  match sortVariants variants with
  | [] => None
  | primaryVariant :: others =>
      let mergedData := mergeAll (data primaryVariant) others in
      let mergedData := set_brand mergedData (brandField primaryBrandKey) in
      let mergedData := set_device_name mergedData (VStr modelName) in
      Some mergedData
  end.

Definition mergeModel (primaryBrandKey : option string) (models : obj DeviceRecord)
    (group : string * list Variant) : option (obj DeviceRecord) :=
  let '(modelName, variants) := group in
  mergedData ← modelRecord primaryBrandKey modelName variants;
  Some (obj_set models modelName mergedData).

Definition processDevice (buckets : obj (list Variant)) (primaryBrandKey : option string)
    (models : obj DeviceRecord) (entry : string * string) : option (obj DeviceRecord) :=
  let '(normalizedDevice, deviceId) := entry in
  deviceVariants ← obj_get buckets deviceId;
  forEachM (mergeModel primaryBrandKey) (obj_entries (groupVariants deviceVariants)) models.

Definition brandModels (buckets : obj (list Variant)) (man : Manufacturer)
    : option (obj DeviceRecord) :=
  forEachM (processDevice buckets (canonicalName man)) (obj_entries (devices man)) [].

Definition assembleBrand (buckets : obj (list Variant)) (finalDb : obj FinalEntry)
    (entry : string * Manufacturer) : option (obj FinalEntry) :=
  let '(normalizedBrand, man) := entry in
  let primaryBrandKey := canonicalName man in
  let finalDb := obj_set finalDb (propertyKey primaryBrandKey) (Brand []) in
  models ← brandModels buckets man;
  Some (obj_set finalDb (propertyKey primaryBrandKey) (Brand models)).

Definition assemble (metadata : obj JsValue) (e : Engine) : option (obj FinalEntry) :=
  forEachM (assembleBrand (normalizedDeviceMap e)) (obj_entries (manufacturers e))
    (map (fun kv => (fst kv, Metadata (snd kv))) metadata).

(** [merge.js] from the parsed databases to [finalDb]. *)
Definition resolve (targetDb sourceDb : JsValue) : option (obj FinalEntry) :=
  metadata ← collectMetadata targetDb;
  e ← collect targetDb sourceDb;
  assemble metadata e.

(** The raw brand keys of the target database the first loop processes. *)
Definition targetKeys (targetDb : JsValue) : list string :=
  map fst (List.filter (fun entry => negb (includes reservedKeys entry.1))
             (default [] (js_entries targetDb))).

(** The display name and the normalized id of a raw brand key. *)
Definition canonicalBrandOf (brandKey : string) : string :=
  canonical (normalizeAndMapKey brandKey manufacturerMapping).

Definition normalizedBrandOf (brandKey : string) : string :=
  normalized (normalizeAndMapKey brandKey manufacturerMapping).

(** Every manufacturer is named after a brand key of the target database
    with its normalized id, or has no name. *)
Definition named_by_target (targetDb : JsValue) (e : Engine) : Prop :=
  forall nb man, In (nb, man) (manufacturers e) ->
    (exists bk, In bk (targetKeys targetDb) /\ nb = normalizedBrandOf bk /\
                canonicalName man = Some (canonicalBrandOf bk)) \/
    canonicalName man = None.

(** Every brand of [finalDb] is that of one of the manufacturers [l], and
    its records carry the manufacturer's name as their [brand]. *)
Definition brands_of (l : list (string * Manufacturer)) (finalDb : obj FinalEntry)
    : Prop :=
  forall c models, obj_get finalDb c = Some (Brand models) ->
    exists nb man,
      In (nb, man) l /\ c = propertyKey (canonicalName man) /\
      forall k r, obj_get models k = Some r -> brand r = brandField (canonicalName man).

End Legacy.

(** ** Sample records and databases *)

Module Samples.

Definition ccParam (n : string) (number : Z) : CC.t :=
  {| CC.name := VStr n; CC.description := VStr ""; CC.usage := VStr "";
     CC.curve := VStr "0-based"; CC.value := VNum number;
     CC.min := VNum 0; CC.max := VNum 127; CC.type := VStr "Parameter" |}.

Definition nrpnParam (n : string) (msb lsb : Z) : NRPN.t :=
  {| NRPN.name := VStr n; NRPN.description := VStr ""; NRPN.usage := VStr "";
     NRPN.curve := VStr "0-based"; NRPN.msb := VNum msb; NRPN.lsb := VNum lsb;
     NRPN.min := VNum 0; NRPN.max := VNum 16383; NRPN.type := VStr "Parameter" |}.

Definition device (channel : string) (ccs : list CC.t) (nrpns : list NRPN.t)
    (pcs : list CC.t) : DeviceRecord :=
  {| brand := VStr "Acme"; device_name := VStr "Widget";
     midi_thru := VBool false; midi_in := VStr ""; midi_clock := VBool false;
     phantom_power := VStr "None";
     midi_channel := {| MidiChannel.instructions := VStr channel |};
     instructions := VStr ""; cc := ccs; nrpn := nrpns; pc := pcs |}.

(** Three [cc] against one, one [nrpn] against two, one [pc] each. *)
Definition deviceA : DeviceRecord :=
  device "Hold A" [ccParam "Gain" 1; ccParam "Tone" 2; ccParam "Level" 3]
    [nrpnParam "Cutoff" 0 1] [ccParam "Program Change" 0].

Definition deviceB : DeviceRecord :=
  device "Hold B" [ccParam "Mix" 7]
    [nrpnParam "Attack" 0 2; nrpnParam "Decay" 0 3] [ccParam "Bank" 0].

(** Equal lengths everywhere. *)
Definition deviceC : DeviceRecord :=
  device "Hold C" [ccParam "Rate" 4; ccParam "Depth" 5; ccParam "Feedback" 6]
    [nrpnParam "Resonance" 0 4] [ccParam "Preset" 0].

(** A primary record without channel instructions and a secondary with. *)
Definition silentPrimary : DeviceRecord :=
  device "" [ccParam "Gain" 1; ccParam "Tone" 2] [] [].

Definition documentedSecondary : DeviceRecord :=
  device "Hold TAP while powering on" [ccParam "Gain" 1] [] [].

(** The same device in both databases: two [cc] and no channel
    instructions in the target, one [cc] and instructions in the source. *)
Definition silentTargetDb : JsValue :=
  VObj [("Acme",
         VObj [("Widget",
                VObj [("cc", VArr [VObj [("name", VStr "Gain")];
                                   VObj [("name", VStr "Tone")]])])])].

Definition documentedSourceDb : JsValue :=
  VObj [("Acme",
         VObj [("Widget",
                VObj [("cc", VArr [VObj [("name", VStr "Gain")]]);
                      ("midi_channel",
                       VObj [("instructions", VStr "Hold TAP while powering on")])])])].

(** A raw device with numeric strings and without bounds. *)
Definition rawWithStrings : JsValue :=
  VObj [("cc", VArr [VObj [("name", VStr "Gain"); ("value", VStr "12");
                           ("min", VStr "0"); ("max", VStr "x")];
                     VObj [("value", VNum 7)]])].

(** A raw source device whose [pc] is a single object. *)
Definition rawWithPcObject : JsValue :=
  VObj [("pc", VObj [("description", VStr "bank select")])].

(** Databases that both carry a top-level [version]. *)
Definition versionedTarget : JsValue := VObj [("version", VStr "1.0.0")].
Definition versionedSource : JsValue := VObj [("version", VStr "2")].

(** Two brands whose devices fall into the same bucket [a_b_c]. *)
Definition collidingTarget : JsValue := VObj [("a_b", VObj [("c", VObj [])])].
Definition collidingSource : JsValue := VObj [("a", VObj [("b_c", VObj [])])].

Definition variantC : Variant :=
  {| brandKey := "a_b"; deviceKey := "c"; canonicalBrandName := "a_b";
     canonicalDeviceName := "c";
     data := {| brand := VStr "a_b"; device_name := VStr "c";
                midi_thru := VBool false; midi_in := VStr "";
                midi_clock := VBool false; phantom_power := VStr "None";
                midi_channel := {| MidiChannel.instructions := VStr "" |};
                instructions := VStr ""; cc := []; nrpn := []; pc := [] |} |}.

Definition variantBC : Variant :=
  {| brandKey := "a"; deviceKey := "b_c"; canonicalBrandName := "a";
     canonicalDeviceName := "b_c";
     data := {| brand := VStr "a"; device_name := VStr "b_c";
                midi_thru := VBool false; midi_in := VStr "";
                midi_clock := VBool false; phantom_power := VStr "None";
                midi_channel := {| MidiChannel.instructions := VStr "" |};
                instructions := VStr ""; cc := []; nrpn := []; pc := [] |} |}.

Definition collidingEngine : Engine :=
  Eval vm_compute in
    default emptyEngine (collect emptyMappings collidingTarget collidingSource).

(** The engine of the scenario and the variant of its source record. *)
Definition scenarioEngine : Engine :=
  Eval vm_compute in
    default emptyEngine (collect Scenario.aliases Scenario.targetDb Scenario.sourceDb).

Definition scenarioSourceVariant : Variant :=
  Eval vm_compute in
    nth 1 (default [] (obj_get (normalizedDeviceMap scenarioEngine) "boss_gt-1000"))
      variantC.

Definition scenarioFinal : obj FinalEntry :=
  Eval vm_compute in
    default [] (resolve Scenario.aliases Scenario.targetDb Scenario.sourceDb).

Definition scenarioModels : obj DeviceRecord :=
  Eval vm_compute in
    match obj_get scenarioFinal "BOSS" with
    | Some (Brand models) => models
    | _ => []
    end.

Definition scenarioRecord : DeviceRecord :=
  Eval vm_compute in default (data variantC) (obj_get scenarioModels "GT-1000").

(** The target database of the scenario with a [version]. *)
Definition stampedProps : list (string * JsValue) :=
  [("version", VStr "1.0.0");
   ("BOSS", VObj [("GT-1000", VObj [("cc", VArr [VObj [("name", VStr "Gain")]])])])].

Definition stampedFinal : obj FinalEntry :=
  Eval vm_compute in
    default [] (resolve Scenario.aliases (VObj stampedProps) Scenario.sourceDb).

(** Databases for the diagnostics of [accessConfig] below: a brand known by
    name, a brand known by value and an unknown brand. *)
Definition diagTarget : JsValue :=
  VObj [("version", VStr "1.0.0");
        ("Access Music", VObj [("Virus TI", VObj [])]);
        ("Moog", VObj [("Sub 37", VObj [])])].

Definition diagSource : JsValue := VObj [("access", VObj [("virus ti", VObj [])])].






(** A configuration whose [brands] is not an array. *)
Definition brokenConfig : JsValue := VObj [("brands", VStr "oops")].

(** A configuration with one brand. *)
Definition accessConfig : JsValue :=
  VObj [("brands",
         VArr [VObj [("name", VStr "Access Music"); ("value", VStr "access")]])].

(** A source database with two brands the target database does not have. *)
Definition legacySource : JsValue :=
  VObj [("Moog", VObj [("Sub 37", VObj [])]);
        ("Korg", VObj [("Minilogue", VObj [])])].

Definition legacyEngine : Legacy.Engine :=
  Eval vm_compute in
    default Legacy.emptyEngine (Legacy.collect Scenario.targetDb legacySource).

Definition legacyFinal : obj FinalEntry :=
  Eval vm_compute in default [] (Legacy.resolve Scenario.targetDb legacySource).

Definition legacyNameless : obj DeviceRecord :=
  Eval vm_compute in
    match obj_get legacyFinal "undefined" with
    | Some (Brand models) => models
    | _ => []
    end.

Definition legacyKorg : Legacy.Manufacturer :=
  {| Legacy.variants := ["Korg"]; Legacy.canonicalName := None;
     Legacy.devices := [("minilogue", "korg_minilogue")] |}.

Definition diagReport : Diagnostics.Report :=
  Eval vm_compute in
    default Diagnostics.emptyReport
      (Diagnostics.run (Json accessConfig) diagTarget diagSource).

(** The final database of the two colliding databases. *)
Definition collidingFinal : obj FinalEntry :=
  Eval vm_compute in
    default [] (resolve emptyMappings collidingTarget collidingSource).

(** A configuration in which two brands are displayed as [N1] and two as
    [N2], and two databases in which the devices [a_b] / [c] and
    [a] / [b_c] share the bucket [a_b_c]. *)
Definition lostConfig : JsValue :=
  VObj [("brands",
         VArr [VObj [("name", VStr "N1"); ("value", VStr "a_b")];
               VObj [("name", VStr "N2"); ("value", VStr "a")];
               VObj [("name", VStr "N1"); ("value", VStr "z1")];
               VObj [("name", VStr "N2"); ("value", VStr "z2")]])].

Definition lostTarget : JsValue := VObj [("a_b", VObj [("c", VObj [])])].

Definition lostSource : JsValue :=
  VObj [("a", VObj [("b_c", VObj [])]);
        ("z1", VObj [("x", VObj [])]);
        ("z2", VObj [("y", VObj [])])].

(** The manufacturer of the scenario. *)
Definition scenarioBrand : Manufacturer :=
  Eval vm_compute in
    default {| variants := []; canonicalName := ""; devices := [] |}
      (obj_get (manufacturers scenarioEngine) "boss").

End Samples.

(** ** Properties stated by the specification *)

(** Length-wins for an array field: the merged array is one of the two
    inputs, as long as the longer one, and not a concatenation. *)
Definition keeps_longer {X} (a b merged : list X) : Prop :=
  (merged = a \/ merged = b) /\
  length merged = Nat.max (length a) (length b) /\
  merged <> a ++ b /\ merged <> b ++ a.

(** The variants of a bucket that carry the model name [m]. *)
Definition sameModel (m : string) (deviceVariants : list Variant) : list Variant :=
  List.filter (fun w => String.eqb (modelNameOf w) m) deviceVariants.

(** The variants of a bucket whose canonical display device name is [m]. *)
Definition sameDisplayName (m : string) (deviceVariants : list Variant) : list Variant :=
  List.filter (fun w => String.eqb (canonicalDeviceName w) m) deviceVariants.

(** [d.midi_channel.instructions] *)
Definition channelInstructions (d : DeviceRecord) : JsValue :=
  MidiChannel.instructions (midi_channel d).

(** ** Invariants and auxiliary notions of the proofs *)

(** The numeric [length] of a value, when it has one. *)
Definition lengthKey (v : JsValue) : option Z :=
  match js_length v with
  | VNum n => Some n
  | _ => None
  end.

(** Two folds over the same values from the starts [b] and [p]: the fold
    from [b] still holds [b], or has met the fold from [p], or holds a
    value that is not longer than the one of the fold from [p]. *)
Definition tracks (b w u : JsValue) : Prop :=
  w = b \/ w = u \/
  exists x y, lengthKey w = Some x /\ lengthKey u = Some y /\ (x <= y)%Z.

(** Along the list the parameter counts never increase. *)
Definition descending (l : list Variant) : Prop :=
  StronglySorted (fun a b => paramCount b <= paramCount a) l.

(** The variants of a list that have [n] parameters, in their order. *)
Definition withCount (n : nat) (l : list Variant) : list Variant :=
  List.filter (fun v => (paramCount v =? n)%nat) l.

(** The group stored under [m] after the variants [seen]. *)
Definition groupOf (seen : list Variant) (m : string) : option (list Variant) :=
  match sameModel m seen with
  | [] => None
  | g => Some g
  end.

(** Every device entry of every brand of [finalDb] is the record of the
    variants of one bucket that carry the entry's name. *)
Definition single_groups (buckets : obj (list Variant)) (finalDb : obj FinalEntry) : Prop :=
  forall c models k r,
    obj_get finalDb c = Some (Brand models) -> obj_get models k = Some r ->
    exists id bucket,
      obj_get buckets id = Some bucket /\
      modelRecord c k (sameModel k bucket) = Some r.


(** A variant without display name has the empty device key, so the
    fallback of [variant.canonicalDeviceName || variant.deviceKey] never
    changes the name. *)
Definition named_by_display (e : Engine) : Prop :=
  forall id bucket v,
    In (id, bucket) (normalizedDeviceMap e) -> In v bucket ->
    modelNameOf v = canonicalDeviceName v.

(** ** Notions of the further properties *)

(** A field after [field || d]: a truthy value, or the default. *)
Definition defaulted_field (v d : JsValue) : Prop := truthy v = true \/ v = d.

(** The scalar fields carry their defaults, as after [createStandardDevice]
    and after [mergeDevices]. *)
Definition defaulted (d : DeviceRecord) : Prop :=
  defaulted_field (midi_thru d) (VBool false) /\
  defaulted_field (midi_in d) (VStr "") /\
  defaulted_field (midi_clock d) (VBool false) /\
  defaulted_field (phantom_power d) (VStr "None") /\
  defaulted_field (instructions d) (VStr "").

(** [null] or [undefined]: a value whose properties cannot be read. *)
Definition is_nullish (v : JsValue) : bool :=
  match v with VUndefined | VNull => true | _ => false end.

(** What [(v || []).map(p => p.name ...)] accepts: a falsy value, or an
    array without [null]. *)
Definition mappable (v : JsValue) : bool :=
  negb (truthy v) ||
  match v with
  | VArr elems => forallb (fun x => negb (is_nullish x)) elems
  | _ => false
  end.

(** The raw devices [createStandardDevice] accepts. *)
Definition standardizable (deviceData : JsValue) : bool :=
  negb (is_nullish deviceData) &&
  mappable (js_get_opt deviceData "cc") && mappable (js_get_opt deviceData "nrpn").

(** The number of elements of a raw parameter list. *)
Definition rawLength (v : JsValue) : nat :=
  match v with
  | VArr elems => length elems
  | _ => 0
  end.

Definition not_string (v : JsValue) : Prop := forall s, v <> VStr s.

(** A standardized [cc] parameter: text fields defaulted, numeric fields
    never strings, bounds never [undefined]. *)
Definition standard_cc_ok (p : CC.t) : Prop :=
  defaulted_field (CC.name p) (VStr "") /\
  defaulted_field (CC.description p) (VStr "") /\
  defaulted_field (CC.usage p) (VStr "") /\
  defaulted_field (CC.curve p) (VStr "0-based") /\
  defaulted_field (CC.type p) (VStr "Parameter") /\
  not_string (CC.value p) /\ not_string (CC.min p) /\ not_string (CC.max p) /\
  CC.min p <> VUndefined /\ CC.max p <> VUndefined.

Definition standard_nrpn_ok (p : NRPN.t) : Prop :=
  defaulted_field (NRPN.name p) (VStr "") /\
  defaulted_field (NRPN.description p) (VStr "") /\
  defaulted_field (NRPN.usage p) (VStr "") /\
  defaulted_field (NRPN.curve p) (VStr "0-based") /\
  defaulted_field (NRPN.type p) (VStr "Parameter") /\
  not_string (NRPN.msb p) /\ not_string (NRPN.lsb p) /\
  not_string (NRPN.min p) /\ not_string (NRPN.max p) /\
  NRPN.min p <> VUndefined /\ NRPN.max p <> VUndefined.

(** The five defaulted scalar fields agree. *)
Definition same_scalars (a b : DeviceRecord) : Prop :=
  midi_thru a = midi_thru b /\ midi_in a = midi_in b /\
  midi_clock a = midi_clock b /\ phantom_power a = phantom_power b /\
  instructions a = instructions b.

(** The normalized ids and the bucket key of a pair of raw keys. *)
Definition normalizedBrandOf (m : Mappings) (brandKey : string) : string :=
  normalized (normalizeAndMapKey brandKey (manufacturerMapping m)
                (Some (brandDisplayNames m))).

Definition normalizedDeviceOf (m : Mappings) (deviceKey : string) : string :=
  normalized (normalizeAndMapKey deviceKey (deviceMapping m) None).

Definition deviceIdOf (m : Mappings) (brandKey deviceKey : string) : string :=
  normalizedBrandOf m brandKey +:+ "_" +:+ normalizedDeviceOf m deviceKey.

(** What holds of a variant stored in the bucket [id]: the bucket and the
    two canonical names are determined by the variant's own raw keys, and
    its record is a standardized one. *)
Definition collected (m : Mappings) (id : string) (v : Variant) : Prop :=
  id = deviceIdOf m (brandKey v) (deviceKey v) /\
  canonicalBrandName v =
    canonical (normalizeAndMapKey (brandKey v) (manufacturerMapping m)
                 (Some (brandDisplayNames m))) /\
  canonicalDeviceName v =
    getModelDisplayName m (normalizedBrandOf m (brandKey v))
      (normalizedDeviceOf m (deviceKey v)) /\
  defaulted (data v) /\ pc (data v) = [].

(** A property of every variant of every bucket. *)
Definition buckets_all (P : string -> Variant -> Prop) (e : Engine) : Prop :=
  forall id bucket v,
    In (id, bucket) (normalizedDeviceMap e) -> In v bucket -> P id v.

(** The brands whose every device is accepted by [createStandardDevice]. *)
Definition devices_ok (brandData : JsValue) : bool :=
  match js_entries brandData with
  | Some entries => forallb (fun entry => standardizable entry.2) entries
  | None => false
  end.

(** The pairs of databases both loops run through: every brand of the
    target database but the reserved keys, and every brand of the source
    database, holds only devices that are accepted. *)
Definition collectable (targetDb sourceDb : JsValue) : bool :=
  match js_entries targetDb, js_entries sourceDb with
  | Some targetEntries, Some sourceEntries =>
      forallb (fun entry => includes reservedKeys entry.1 || devices_ok entry.2)
        targetEntries &&
      forallb (fun entry => devices_ok entry.2) sourceEntries
  | _, _ => false
  end.

(** The display name of a raw brand key. *)
Definition canonicalBrandOf (m : Mappings) (brandKey : string) : string :=
  canonical (normalizeAndMapKey brandKey (manufacturerMapping m)
               (Some (brandDisplayNames m))).

(** The brands the two loops process: those of the target database but
    the reserved keys, then those of the source database. *)
Definition brandEntriesOf (targetDb sourceDb : JsValue) : list (string * JsValue) :=
  List.filter (fun entry => negb (includes reservedKeys entry.1))
    (default [] (js_entries targetDb))
  ++ default [] (js_entries sourceDb).

Definition brandKeysOf (targetDb sourceDb : JsValue) : list string :=
  map fst (brandEntriesOf targetDb sourceDb).

(** [deviceData] is stored under [deviceKey] in a brand [brandKey] that one
    of the two loops processes. *)
Definition rawDevice (targetDb sourceDb : JsValue) (brandKey deviceKey : string)
    (deviceData : JsValue) : Prop :=
  exists brandData deviceEntries,
    In (brandKey, brandData) (brandEntriesOf targetDb sourceDb) /\
    js_entries brandData = Some deviceEntries /\
    In (deviceKey, deviceData) deviceEntries.

(** What the two loops store in [manufacturers[normalizedBrand]] for the
    raw key [bk]: a new manufacturer named after [bk], or the one already
    there with its name and devices. *)
Definition registers (m : Mappings) (e : Engine) (bk : string) (man' : Manufacturer)
    : Prop :=
  match obj_get (manufacturers e) (normalizedBrandOf m bk) with
  | None => canonicalName man' = canonicalBrandOf m bk /\ devices man' = []
  | Some man => canonicalName man' = canonicalName man /\ devices man' = devices man
  end.

(** Every manufacturer is stored once, under the normalized id of one of
    the raw keys [K], and carries the display name of that key. *)
Definition brands_from (m : Mappings) (K : list string) (e : Engine) : Prop :=
  List.NoDup (map fst (manufacturers e)) /\
  forall nb man, In (nb, man) (manufacturers e) ->
    exists bk, In bk K /\ nb = normalizedBrandOf m bk /\
               canonicalName man = canonicalBrandOf m bk.

(** The raw device [deviceData] of the keys [bk] and [dk] has its variant
    in the bucket of its keys, with its standardized record. *)
Definition stored (m : Mappings) (e : Engine) (bk dk : string) (deviceData : JsValue)
    : Prop :=
  exists bucket v brandName deviceName,
    obj_get (normalizedDeviceMap e) (deviceIdOf m bk dk) = Some bucket /\
    In v bucket /\ brandKey v = bk /\ deviceKey v = dk /\
    createStandardDevice deviceData brandName deviceName = Some (data v).

(** Every variant sits in the bucket of its keys, and the manufacturer of
    its brand lists that bucket under the variant's normalized device. *)
Definition devices_registered (m : Mappings) (e : Engine) : Prop :=
  forall id bucket v, In (id, bucket) (normalizedDeviceMap e) -> In v bucket ->
    id = deviceIdOf m (brandKey v) (deviceKey v) /\
    exists man,
      obj_get (manufacturers e) (normalizedBrandOf m (brandKey v)) = Some man /\
      obj_get (devices man) (normalizedDeviceOf m (deviceKey v)) = Some id.


(** [deviceKey] is reported as missing for the brand value [brandValue]. *)
Definition reported (r : Diagnostics.Report) (brandValue deviceKey : string) : Prop :=
  exists devices,
    In (brandValue, devices) (Diagnostics.missingDevices r) /\ In deviceKey devices.





(** ** The domain of the embedding *)

(** The own properties of [Object.prototype]. In the scripts the alias
    tables and the tables of the engine are object literals, and
    [table[name]] finds these members in a table that has no such entry of
    its own: a truthy value that is not a string, on which the key
    normalizer throws. The embedding reads own entries only; the
    statements about arbitrary keys are therefore made for names that are
    not in this list. *)
Definition prototypeMembers : list string :=
  ["constructor"; "__defineGetter__"; "__defineSetter__"; "hasOwnProperty";
   "__lookupGetter__"; "__lookupSetter__"; "isPrototypeOf";
   "propertyIsEnumerable"; "toString"; "valueOf"; "__proto__"; "toLocaleString"].

Definition inherited (name : string) : bool := includes prototypeMembers name.

(** The strings on which [Str.toLowerCase] and the class of white space
    are those of JavaScript. *)
Definition is_ascii (s : string) : bool :=
  forallb (fun c => (nat_of_ascii c <? 128)%nat) (list_ascii_of_string s).

(** An ASCII string that names no member of [Object.prototype]. *)
Definition plain (s : string) : bool := is_ascii s && negb (inherited s).

(** A raw key the normalizer looks up as the embedding does: the key and
    its lower-cased form are looked up in the alias table. *)
Definition plain_key (key : string) : bool :=
  plain key && negb (inherited (Str.toLowerCase key)).

(** An alias table whose values are plain: a value is lower-cased to give
    the id and looked up in the display-name table. *)
Definition plain_values (table : gmap string string) : Prop :=
  forall key value, table !! key = Some value -> plain value = true.

(** The runs in which every name the engine uses as a property name is
    plain: the raw keys, the values of the alias tables, the normalized
    ids, the bucket ids and the display names. *)
Definition ordinary_device (m : Mappings) (brandKey : string)
    (entry : string * JsValue) : bool :=
  let deviceKey := entry.1 in
  plain_key deviceKey &&
  negb (inherited (normalizedDeviceOf m deviceKey)) &&
  negb (inherited (deviceIdOf m brandKey deviceKey)) &&
  negb (inherited (getModelDisplayName m (normalizedBrandOf m brandKey)
                     (normalizedDeviceOf m deviceKey))).

Definition ordinary_brand (m : Mappings) (entry : string * JsValue) : bool :=
  let brandKey := entry.1 in
  plain_key brandKey &&
  negb (inherited (normalizedBrandOf m brandKey)) &&
  negb (inherited (canonicalBrandOf m brandKey)) &&
  forallb (ordinary_device m brandKey) (default [] (js_entries entry.2)).

Definition ordinary_run (m : Mappings) (targetDb sourceDb : JsValue) : Prop :=
  plain_values (manufacturerMapping m) /\ plain_values (deviceMapping m) /\
  forallb (ordinary_brand m) (brandEntriesOf targetDb sourceDb) = true.

(** [bucket] is the bucket [deviceId], and the manufacturer [man] lists it
    among its devices: the final assembly of [man] processes it. *)
Definition bucket_of (e : Engine) (man : Manufacturer) (deviceId : string)
    (bucket : list Variant) : Prop :=
  (exists normalizedDevice, In (normalizedDevice, deviceId) (devices man)) /\
  obj_get (normalizedDeviceMap e) deviceId = Some bucket.

(** No other manufacturer has the display name of [man], the manufacturer
    stored under [normalizedBrand]: no later iteration of the final
    assembly reinitialises its brand. *)
Definition sole_name (e : Engine) (normalizedBrand : string) (man : Manufacturer)
    : Prop :=
  forall nb' man',
    In (nb', man') (manufacturers e) ->
    canonicalName man' = canonicalName man -> nb' = normalizedBrand.

(** [deviceId] is the only bucket of [man] that holds a record displayed
    as [name]: no other bucket of the brand writes the entry [name]. *)
Definition sole_bucket (e : Engine) (man : Manufacturer) (deviceId name : string)
    : Prop :=
  forall id' bucket' v',
    bucket_of e man id' bucket' -> In v' bucket' ->
    canonicalDeviceName v' = name -> id' = deviceId.

(** * Proofs *)

(** ** The domain of the embedding *)

Lemma plain_values_empty : plain_values ∅.
Proof. intros key value H. rewrite lookup_empty in H. discriminate. Qed.

Lemma plain_values_singleton (key value : string) :
  plain value = true -> plain_values {[ key := value ]}.
Proof.
  intros Hv k v H. apply lookup_singleton_Some in H as [_ <-]. exact Hv.
Qed.

Lemma plain_values_insert (key value : string) (table : gmap string string) :
  plain value = true -> plain_values table -> plain_values (<[ key := value ]> table).
Proof.
  intros Hv Ht k v H. apply lookup_insert_Some in H as [[_ <-] | [_ H]].
  - exact Hv.
  - exact (Ht _ _ H).
Qed.

(** ** Evaluation of the string and value helpers *)

Example normalize_id_ex : Str.normalize_id "Access  Music" = "access_music".
Proof. reflexivity. Qed.

Example replace_first_ex :
  Str.replace_first_ci true "mk" "mark" "Minilogue MK2 mk3" = "Minilogue mark2 mk3".
Proof. reflexivity. Qed.

Example parseInt_ex : parseInt "  -42px" = VNum (-42) /\ parseInt "x1" = VNaN.
Proof. split; reflexivity. Qed.

Example obj_entries_ex :
  obj_keys [("b", 1); ("10", 2); ("a", 3); ("2", 4); ("01", 5)]
  = ["2"; "10"; "b"; "a"; "01"].
Proof. reflexivity. Qed.

(** ** The device merger *)

Section MergeArray.
Context {X : Type}.
Implicit Types a b : list X.

Lemma mergeArray_both a b :
  a <> [] -> b <> [] ->
  mergeArray a b = if (length b <=? length a)%nat then a else b.
Proof.
  intros Ha Hb. unfold mergeArray.
  destruct a; [congruence|]. destruct b; [congruence|]. reflexivity.
Qed.

Lemma mergeArray_keeps_longer a b :
  a <> [] -> b <> [] -> keeps_longer a b (mergeArray a b).
Proof.
  intros Ha Hb. rewrite mergeArray_both by assumption.
  assert (0 < length a) by (destruct a; [congruence | simpl; lia]).
  assert (0 < length b) by (destruct b; [congruence | simpl; lia]).
  unfold keeps_longer.
  destruct (Nat.leb_spec (length b) (length a)) as [Hle | Hlt].
  - repeat split; [by left | lia | |];
      intros Heq; apply (f_equal length) in Heq;
      rewrite length_app in Heq; lia.
  - repeat split; [by right | lia | |];
      intros Heq; apply (f_equal length) in Heq;
      rewrite length_app in Heq; lia.
Qed.

Lemma mergeArray_tie a b :
  a <> [] -> length a = length b -> mergeArray a b = a.
Proof.
  intros Ha Hlen. rewrite mergeArray_both.
  - rewrite Hlen, Nat.leb_refl. reflexivity.
  - assumption.
  - intros ->. destruct a; [congruence | discriminate].
Qed.
End MergeArray.

Lemma mergeDevices_cc a b : cc (mergeDevices a b) = mergeArray (cc a) (cc b).
Proof. unfold mergeDevices. destruct (truthy _ && truthy _); reflexivity. Qed.

Lemma mergeDevices_nrpn a b : nrpn (mergeDevices a b) = mergeArray (nrpn a) (nrpn b).
Proof. unfold mergeDevices. destruct (truthy _ && truthy _); reflexivity. Qed.

Lemma mergeDevices_pc a b : pc (mergeDevices a b) = mergeArray (pc a) (pc b).
Proof. unfold mergeDevices. destruct (truthy _ && truthy _); reflexivity. Qed.

Lemma mergeDevices_channel a b :
  channelInstructions (mergeDevices a b) =
  if truthy (channelInstructions a) && truthy (channelInstructions b)
  then (if js_ge (js_length (channelInstructions a)) (js_length (channelInstructions b))
        then channelInstructions a else channelInstructions b)
  else channelInstructions a.
Proof.
  unfold mergeDevices, channelInstructions.
  destruct (truthy _ && truthy _); reflexivity.
Qed.

(** C2. For each of [cc], [nrpn] and [pc], when both records hold a
    non-empty array, [mergeDevices] returns the longer of the two arrays in
    full and never a concatenation; a primary [cc] of length 3 against a
    secondary of length 1 is returned as it is. *)
Theorem mergeDevices_arrays_length_wins (primary secondary : DeviceRecord) :
  (cc primary <> [] -> cc secondary <> [] ->
   keeps_longer (cc primary) (cc secondary) (cc (mergeDevices primary secondary))) /\
  (nrpn primary <> [] -> nrpn secondary <> [] ->
   keeps_longer (nrpn primary) (nrpn secondary) (nrpn (mergeDevices primary secondary))) /\
  (pc primary <> [] -> pc secondary <> [] ->
   keeps_longer (pc primary) (pc secondary) (pc (mergeDevices primary secondary))) /\
  (length (cc primary) = 3 -> length (cc secondary) = 1 ->
   cc (mergeDevices primary secondary) = cc primary /\
   length (cc (mergeDevices primary secondary)) = 3).
Proof.
  rewrite mergeDevices_cc, mergeDevices_nrpn, mergeDevices_pc.
  split; [| split; [| split]]; try (intros; by apply mergeArray_keeps_longer).
  intros H3 H1.
  assert (Hm : mergeArray (cc primary) (cc secondary) = cc primary).
  { rewrite mergeArray_both.
    - rewrite H3, H1. reflexivity.
    - intros E. rewrite E in H3. discriminate.
    - intros E. rewrite E in H1. discriminate. }
  rewrite Hm. split; [reflexivity | exact H3].
Qed.

(** A concrete instance of [mergeDevices_arrays_length_wins]. *)
Lemma mergeDevices_arrays_length_wins_witness :
  keeps_longer (cc Samples.deviceA) (cc Samples.deviceB)
    (cc (mergeDevices Samples.deviceA Samples.deviceB)) /\
  keeps_longer (nrpn Samples.deviceA) (nrpn Samples.deviceB)
    (nrpn (mergeDevices Samples.deviceA Samples.deviceB)) /\
  keeps_longer (pc Samples.deviceA) (pc Samples.deviceB)
    (pc (mergeDevices Samples.deviceA Samples.deviceB)) /\
  (cc (mergeDevices Samples.deviceA Samples.deviceB) = cc Samples.deviceA /\
   length (cc (mergeDevices Samples.deviceA Samples.deviceB)) = 3).
Proof.
  destruct (mergeDevices_arrays_length_wins Samples.deviceA Samples.deviceB)
    as (Hcc & Hnrpn & Hpc & Hexample).
  split; [apply Hcc; simpl; discriminate |].
  split; [apply Hnrpn; simpl; discriminate |].
  split; [apply Hpc; simpl; discriminate |].
  apply Hexample; reflexivity.
Defined.

(** C10. Length comparisons break ties in favour of the primary record:
    equal-length non-empty arrays keep the primary's array, equal-length
    non-empty instructions strings keep the primary's string. *)
Theorem mergeDevices_ties_keep_primary (primary secondary : DeviceRecord) :
  (cc primary <> [] -> cc secondary <> [] ->
   length (cc primary) = length (cc secondary) ->
   cc (mergeDevices primary secondary) = cc primary) /\
  (nrpn primary <> [] -> nrpn secondary <> [] ->
   length (nrpn primary) = length (nrpn secondary) ->
   nrpn (mergeDevices primary secondary) = nrpn primary) /\
  (pc primary <> [] -> pc secondary <> [] ->
   length (pc primary) = length (pc secondary) ->
   pc (mergeDevices primary secondary) = pc primary) /\
  (forall a b : string,
     channelInstructions primary = VStr a ->
     channelInstructions secondary = VStr b ->
     a <> "" -> b <> "" -> String.length a = String.length b ->
     channelInstructions (mergeDevices primary secondary) = VStr a).
Proof.
  rewrite mergeDevices_cc, mergeDevices_nrpn, mergeDevices_pc.
  split; [| split; [| split]]; try (intros; by apply mergeArray_tie).
  intros a b Ha Hb Hna Hnb Hlen.
  rewrite mergeDevices_channel, Ha, Hb. simpl.
  destruct (String.eqb_spec a ""); [congruence |].
  destruct (String.eqb_spec b ""); [congruence |].
  simpl. rewrite Hlen, Z.leb_refl. reflexivity.
Qed.

(** A concrete instance of [mergeDevices_ties_keep_primary]. *)
Lemma mergeDevices_ties_keep_primary_witness :
  cc (mergeDevices Samples.deviceA Samples.deviceC) = cc Samples.deviceA /\
  nrpn (mergeDevices Samples.deviceA Samples.deviceC) = nrpn Samples.deviceA /\
  pc (mergeDevices Samples.deviceA Samples.deviceC) = pc Samples.deviceA /\
  channelInstructions (mergeDevices Samples.deviceA Samples.deviceC) = VStr "Hold A".
Proof.
  destruct (mergeDevices_ties_keep_primary Samples.deviceA Samples.deviceC)
    as (Hcc & Hnrpn & Hpc & Hchannel).
  split; [apply Hcc; simpl; [discriminate | discriminate | reflexivity] |].
  split; [apply Hnrpn; simpl; [discriminate | discriminate | reflexivity] |].
  split; [apply Hpc; simpl; [discriminate | discriminate | reflexivity] |].
  apply (Hchannel "Hold A" "Hold C");
    [reflexivity | reflexivity | discriminate | discriminate | reflexivity].
Defined.

(** When the primary record has no channel instructions the merged record
    has none either, whatever the secondary record says. *)
Lemma mergeDevices_falsy_primary_channel (primary secondary : DeviceRecord) :
  truthy (channelInstructions primary) = false ->
  channelInstructions (mergeDevices primary secondary) = channelInstructions primary.
Proof. intros H. rewrite mergeDevices_channel, H. reflexivity. Qed.

(** C6, on the code. The primary record has the empty instructions string
    and the secondary a non-empty one: the merged record keeps the empty
    string of the primary, not the longer string of the secondary. The
    same happens in a whole run, where the target device has more
    parameters and no instructions and the source device has the
    instructions. *)
Theorem mergeDevices_loses_secondary_instructions :
  (channelInstructions Samples.silentPrimary = VStr "" /\
   channelInstructions Samples.documentedSecondary = VStr "Hold TAP while powering on" /\
   channelInstructions (mergeDevices Samples.silentPrimary Samples.documentedSecondary)
   = VStr "") /\
  exists d,
    resolve emptyMappings Samples.silentTargetDb Samples.documentedSourceDb
      = Some [("Acme", Brand [("widget", d)])] /\
    length (cc d) = 2 /\
    channelInstructions d = VStr "".
Proof. split; [repeat split |]. eexists. repeat split. Qed.

(** ** Writing through the shared [midi_channel] object *)

Lemma mergeDevices_mergeInstructions a b :
  channelInstructions (mergeDevices a b)
  = mergeInstructions (channelInstructions a) (channelInstructions b).
Proof. rewrite mergeDevices_channel. reflexivity. Qed.

Lemma mergeAll_channel p others :
  channelInstructions (mergeAll p others)
  = fold_left mergeInstructions (map (fun v => channelInstructions (data v)) others)
      (channelInstructions p).
Proof.
  unfold mergeAll. revert p. induction others as [| v others IH]; intros p; simpl.
  - reflexivity.
  - rewrite IH, mergeDevices_mergeInstructions. reflexivity.
Qed.

Lemma js_ge_length a b :
  js_ge (js_length a) (js_length b) =
  match lengthKey a, lengthKey b with
  | Some x, Some y => (y <=? x)%Z
  | _, _ => false
  end.
Proof.
  unfold lengthKey, js_ge.
  destruct (js_length a); try reflexivity; destruct (js_length b); reflexivity.
Qed.

Lemma mergeInstructions_falsy_l a b : truthy a = false -> mergeInstructions a b = a.
Proof. intros H. unfold mergeInstructions. by rewrite H. Qed.

Lemma mergeInstructions_truthy a b :
  truthy a = true -> truthy (mergeInstructions a b) = true.
Proof.
  intros Ha. unfold mergeInstructions. rewrite Ha. simpl.
  destruct (truthy b) eqn:Hb; [| exact Ha].
  by destruct (js_ge _ _).
Qed.

Lemma fold_mergeInstructions_falsy os p :
  truthy p = false -> fold_left mergeInstructions os p = p.
Proof.
  intros H. induction os as [| o os IH]; simpl; [reflexivity |].
  by rewrite mergeInstructions_falsy_l.
Qed.

Lemma fold_mergeInstructions_truthy os p :
  truthy p = true -> truthy (fold_left mergeInstructions os p) = true.
Proof.
  revert p. induction os as [| o os IH]; intros p H; simpl; [exact H |].
  by apply IH, mergeInstructions_truthy.
Qed.

(** The two outcomes of a comparison between truthy values. *)
Lemma mergeInstructions_cases a o :
  truthy a = true -> truthy o = true ->
  (mergeInstructions a o = a /\
   exists x k, lengthKey a = Some x /\ lengthKey o = Some k /\ (k <= x)%Z) \/
  (mergeInstructions a o = o /\
   (lengthKey a = None \/ lengthKey o = None \/
    exists x k, lengthKey a = Some x /\ lengthKey o = Some k /\ (x < k)%Z)).
Proof.
  intros Ha Ho. unfold mergeInstructions. rewrite Ha, Ho, js_ge_length. simpl.
  destruct (lengthKey a) as [x |]; [| right; split; [reflexivity | by left]].
  destruct (lengthKey o) as [k |]; [| right; split; [reflexivity | right; by left]].
  destruct (Z.leb_spec k x); [left | right]; (split; [reflexivity |]); eauto 10.
Qed.

Lemma tracks_step b w u o :
  truthy w = true -> truthy u = true ->
  tracks b w u -> tracks b (mergeInstructions w o) (mergeInstructions u o).
Proof.
  intros Hw Hu H. destruct (truthy o) eqn:Ho.
  2: { unfold mergeInstructions. by rewrite Hw, Hu, Ho. }
  destruct (mergeInstructions_cases w o Hw Ho) as [(-> & xw & kw & Ew & Eo & Hlew) | (-> & Hlose)];
    destruct (mergeInstructions_cases u o Hu Ho) as [(-> & xu & ku & Eu & Eo' & Hleu) | (-> & Hlose')].
  - exact H.
  - destruct H as [-> | [-> | (x & y & Hx & Hy & Hle)]].
    + by left.
    + exfalso. destruct Hlose' as [E | [E | (x & k & Ex & Ek & Hlt)]];
        rewrite ?Ew, ?Eo in *; simplify_eq; lia.
    + exfalso. destruct Hlose' as [E | [E | (x0 & k & Ex & Ek & Hlt)]];
        rewrite ?Ew, ?Eo, ?Hy in *; simplify_eq; lia.
  - right. right. exists ku, xu. repeat split; assumption.
  - right. by left.
Qed.

Lemma tracks_fold os b p :
  truthy b = true -> truthy p = true ->
  tracks b (fold_left mergeInstructions os b) (fold_left mergeInstructions os p).
Proof.
  intros Hb Hp. induction os as [| o os IH] using rev_ind; simpl; [by left |].
  rewrite !fold_left_app. simpl.
  apply tracks_step; [by apply fold_mergeInstructions_truthy .. | exact IH].
Qed.

(** Merging again from the result gives the result. *)
Lemma fold_mergeInstructions_idempotent os p :
  fold_left mergeInstructions os (fold_left mergeInstructions os p)
  = fold_left mergeInstructions os p.
Proof.
  destruct (truthy p) eqn:Hp;
    [| by rewrite !(fold_mergeInstructions_falsy os p Hp)].
  revert p Hp. induction os as [| b os IH] using rev_ind; intros p Hp; [reflexivity |].
  rewrite !fold_left_app. cbn [fold_left].
  set (u := fold_left mergeInstructions os p).
  assert (Hu : truthy u = true) by (by apply fold_mergeInstructions_truthy).
  assert (Hidem : fold_left mergeInstructions os u = u) by (by apply IH).
  destruct (truthy b) eqn:Hb.
  2: { assert (E : forall a, mergeInstructions a b = a).
       { intros a. unfold mergeInstructions. rewrite Hb.
         by rewrite andb_false_r. }
       by rewrite !E. }
  destruct (mergeInstructions_cases u b Hu Hb) as [(E0 & Hwin) | (E0 & Hlose)]; rewrite E0.
  - by rewrite Hidem.
  - set (z := fold_left mergeInstructions os b).
    assert (Hz : truthy z = true) by (by apply fold_mergeInstructions_truthy).
    destruct (mergeInstructions_cases z b Hz Hb)
      as [(E & xz & kb & Ez & Eb & Hle) | (E & _)]; [| exact E].
    rewrite E.
    pose proof (tracks_fold os b p Hb Hp) as H. fold z u in H.
    destruct H as [H | [H | (x & y & Hx & Hy & Hxy)]].
    + exact H.
    + rewrite H in Ez.
      destruct Hlose as [E' | [E' | (x & k & Ex & Ek & Hlt)]];
        rewrite ?Ez, ?Eb in *; simplify_eq; lia.
    + destruct Hlose as [E' | [E' | (x0 & k & Ex & Ek & Hlt)]];
        rewrite ?Ez, ?Eb, ?Hy in *; simplify_eq; lia.
Qed.

(** Merging the variants again from the primary record whose
    instructions the first merge has overwritten gives the same
    instructions. *)
Lemma mergeAll_channel_idempotent p others :
  channelInstructions
    (mergeAll
       (set_midi_channel p
          {| MidiChannel.instructions := channelInstructions (mergeAll p others) |})
       others)
  = channelInstructions (mergeAll p others).
Proof.
  rewrite !mergeAll_channel. apply fold_mergeInstructions_idempotent.
Qed.

(** ** The standardizer *)

(** Whatever the raw device holds, the standardized record has no [pc]. *)
Lemma createStandardDevice_pc (deviceData brandName deviceName : JsValue)
    (d : DeviceRecord) :
  createStandardDevice deviceData brandName deviceName = Some d -> pc d = [].
Proof.
  unfold createStandardDevice. intros H.
  repeat (match type of H with
          | (_ ≫= _) = Some _ => apply bind_Some in H; destruct H as (? & _ & H)
          end).
  injection H as <-. reflexivity.
Qed.

(** C5, on the code. For the raw device [{pc: {description: "bank select"}}]
    the special handling stores the one-element array in the raw device,
    and [createStandardDevice] then returns a record whose [pc] is empty. *)
Theorem pc_object_is_dropped :
  exists raw' d,
    normalizePc Samples.rawWithPcObject = Some raw' /\
    js_get raw' "pc" =
      Some (VArr [VObj [("name", VStr "Program Change");
                        ("description", VStr "bank select");
                        ("usage", VStr ""); ("curve", VStr "0-based");
                        ("value", VNum 0); ("min", VNum 0); ("max", VNum 127);
                        ("type", VStr "Parameter")]]) /\
    createStandardDevice raw' (VStr "Acme") (VStr "Widget") = Some d /\
    pc d = [].
Proof. do 2 eexists. repeat split. Qed.

(** ** The key normalizer *)

Lemma lower_char_not_upper (c : ascii) : Str.is_upper (Str.lower_char c) = false.
Proof. destruct c as [[] [] [] [] [] [] [] []]; reflexivity. Qed.

Lemma lower_char_space (c : ascii) : Str.is_space (Str.lower_char c) = Str.is_space c.
Proof. destruct c as [[] [] [] [] [] [] [] []]; reflexivity. Qed.

Lemma toLowerCase_not_upper (s : string) (c : ascii) :
  In c (list_ascii_of_string (Str.toLowerCase s)) -> Str.is_upper c = false.
Proof.
  induction s as [| d s IH]; simpl; [tauto |].
  intros [<- | H]; [apply lower_char_not_upper | auto].
Qed.

Lemma replace_spaces_from_clean (in_run : bool) (s : string) (c : ascii) :
  (forall d, In d (list_ascii_of_string s) -> Str.is_upper d = false) ->
  In c (list_ascii_of_string (Str.replace_spaces_from "_" in_run s)) ->
  Str.is_space c = false /\ Str.is_upper c = false.
Proof.
  revert in_run. induction s as [| d s IH]; intros in_run Hup; simpl; [tauto |].
  assert (Hs : forall d', In d' (list_ascii_of_string s) -> Str.is_upper d' = false)
    by (intros d' Hd'; apply Hup; simpl; auto).
  destruct (Str.is_space d) eqn:Hd.
  - destruct in_run; simpl.
    + apply IH, Hs.
    + intros [<- | H]; [split; reflexivity | by apply (IH true)].
  - simpl. intros [<- | H].
    + split; [exact Hd | apply Hup; simpl; auto].
    + by apply (IH false).
Qed.

(** An identifier has neither white space nor upper-case letters. *)
Lemma normalize_id_clean (s : string) (c : ascii) :
  In c (list_ascii_of_string (Str.normalize_id s)) ->
  Str.is_space c = false /\ Str.is_upper c = false.
Proof.
  unfold Str.normalize_id, Str.replace_spaces.
  apply replace_spaces_from_clean. intros d. apply toLowerCase_not_upper.
Qed.

Lemma truthy_entry_Some (t : gmap string string) (k v : string) :
  t !! k = Some v -> v <> "" -> truthy_entry t k = Some v.
Proof. intros H Hv. unfold truthy_entry. rewrite H. by destruct (decide (v = "")). Qed.

Lemma truthy_entry_None (t : gmap string string) (k : string) :
  t !! k = None \/ t !! k = Some "" -> truthy_entry t k = None.
Proof. intros [H | H]; unfold truthy_entry; rewrite H; reflexivity. Qed.

Lemma displayNameOf_lookup (dn : option (gmap string string)) (mapped : string) :
  displayNameOf dn mapped =
  match dn with
  | Some names =>
      match names !! mapped with
      | Some d => if decide (d = "") then mapped else d
      | None => mapped
      end
  | None => mapped
  end.
Proof.
  destruct dn as [names |]; [| reflexivity].
  unfold displayNameOf, truthy_entry.
  destruct (names !! mapped) as [d |]; [| reflexivity].
  by destruct (decide (d = "")).
Qed.

(** C4, as the code has it, for a plain raw key (an ASCII string such that
    neither it nor its lower-cased form names a member of
    [Object.prototype]) and an alias table with plain values; for another
    key the lookup can find an inherited member, on which the normalizer
    throws. The identifier is the mapped canonical key (the alias-table
    entry of the raw key, else of the lower-cased raw key), or the raw key
    when there is no entry, lower-cased with each run of white space
    replaced by one underscore; the display name does not enter it. For a
    mapped key the display name is the display-table entry of the mapped
    key when there is a non-empty one, else the mapped key. *)
Theorem normalizedId_from_mapped_key (key : string) (table : gmap string string)
    (dn : option (gmap string string)) :
  plain_key key = true ->
  plain_values table ->
  let r := normalizeAndMapKey key table dn in
  let display (mapped : string) :=
    match dn with
    | Some names =>
        match names !! mapped with
        | Some d => if decide (d = "") then mapped else d
        | None => mapped
        end
    | None => mapped
    end in
  (forall mapped, table !! key = Some mapped -> mapped <> "" ->
     normalized r = Str.normalize_id mapped /\ canonical r = display mapped) /\
  (forall mapped, (table !! key = None \/ table !! key = Some "") ->
     table !! Str.toLowerCase key = Some mapped -> mapped <> "" ->
     normalized r = Str.normalize_id mapped /\ canonical r = display mapped) /\
  ((table !! key = None \/ table !! key = Some "") ->
   (table !! Str.toLowerCase key = None \/ table !! Str.toLowerCase key = Some "") ->
   normalized r = Str.normalize_id key /\ canonical r = key) /\
  (forall c, In c (list_ascii_of_string (normalized r)) ->
     Str.is_space c = false /\ Str.is_upper c = false).
Proof.
  intros _ _ r display. subst r. unfold normalizeAndMapKey.
  split; [| split; [| split]].
  - intros mapped H Hne. rewrite (truthy_entry_Some _ _ _ H Hne). simpl.
    split; [reflexivity | apply displayNameOf_lookup].
  - intros mapped Hkey H Hne.
    rewrite (truthy_entry_None _ _ Hkey), (truthy_entry_Some _ _ _ H Hne). simpl.
    split; [reflexivity | apply displayNameOf_lookup].
  - intros Hkey Hlower.
    rewrite (truthy_entry_None _ _ Hkey), (truthy_entry_None _ _ Hlower).
    split; reflexivity.
  - intros c.
    destruct (truthy_entry table key);
      [| destruct (truthy_entry table (Str.toLowerCase key))];
      simpl; apply normalize_id_clean.
Qed.

(** A concrete instance of [normalizedId_from_mapped_key]: an exact match,
    a match of the lower-cased key and an unmapped key. *)
Lemma normalizedId_from_mapped_key_witness :
  (normalized (normalizeAndMapKey "roland" {[ "roland" := "boss" ]} (Some {[ "boss" := "BOSS" ]}))
   = "boss" /\
   canonical (normalizeAndMapKey "roland" {[ "roland" := "boss" ]} (Some {[ "boss" := "BOSS" ]}))
   = "BOSS") /\
  (normalized (normalizeAndMapKey "Roland" {[ "roland" := "boss" ]} None) = "boss" /\
   canonical (normalizeAndMapKey "Roland" {[ "roland" := "boss" ]} None) = "boss") /\
  (normalized (normalizeAndMapKey "Moog Music" {[ "roland" := "boss" ]} None) = "moog_music" /\
   canonical (normalizeAndMapKey "Moog Music" {[ "roland" := "boss" ]} None) = "Moog Music").
Proof.
  split; [| split].
  - destruct (normalizedId_from_mapped_key "roland" {[ "roland" := "boss" ]}
                (Some {[ "boss" := "BOSS" ]}) eq_refl (plain_values_singleton "roland" "boss" eq_refl)) as (H & _).
    apply (H "boss"); [reflexivity | discriminate].
  - destruct (normalizedId_from_mapped_key "Roland" {[ "roland" := "boss" ]} None
                eq_refl (plain_values_singleton "roland" "boss" eq_refl)) as (_ & H & _).
    apply (H "boss"); [left; reflexivity | reflexivity | discriminate].
  - destruct (normalizedId_from_mapped_key "Moog Music" {[ "roland" := "boss" ]} None
                eq_refl (plain_values_singleton "roland" "boss" eq_refl)) as (_ & _ & H & _).
    apply H; left; reflexivity.
Defined.

(** C4 as stated fails. With the tables built from the brand entry
    [{name: "Access Music", value: "access"}], the key ["access music"]
    gets the identifier ["access"], which is not its display name
    ["Access Music"] lower-cased and underscored (["access_music"]). *)
Lemma normalizedId_not_from_display_name :
  let tables := loadMappings (Json Samples.accessConfig) in
  let r := normalizeAndMapKey "access music" (manufacturerMapping tables)
             (Some (brandDisplayNames tables)) in
  canonical r = "Access Music" /\
  normalized r = "access" /\
  normalized r <> Str.normalize_id (canonical r).
Proof. vm_compute. repeat split. discriminate. Qed.

(** ** The scenario of the specification *)

(** C1. The target database holds BOSS / GT-1000 with one [cc], the source
    database roland / gt1000 with two; the alias tables send [roland] to
    [boss] (display name BOSS) and [gt1000] to [gt-1000] (display name
    GT-1000). The final database has the single brand BOSS with the single
    device GT-1000, whose [cc] is the two-element list of the source record. *)
Theorem scenario_source_list_wins :
  normalizeAndMapKey "roland" (manufacturerMapping Scenario.aliases)
    (Some (brandDisplayNames Scenario.aliases))
    = {| normalized := "boss"; canonical := "BOSS" |} /\
  normalized (normalizeAndMapKey "gt1000" (deviceMapping Scenario.aliases) None)
    = "gt-1000" /\
  getModelDisplayName Scenario.aliases "boss" "gt-1000" = "GT-1000" /\
  exists sourceRecord merged,
    createStandardDevice Scenario.sourceDevice (VStr "BOSS") (VStr "GT-1000")
      = Some sourceRecord /\
    resolve Scenario.aliases Scenario.targetDb Scenario.sourceDb
      = Some [("BOSS", Brand [("GT-1000", merged)])] /\
    length (cc merged) = 2 /\
    cc merged = cc sourceRecord /\
    map CC.name (cc merged) = [VStr "Gain"; VStr "Volume"].
Proof. do 3 (split; [reflexivity |]). do 2 eexists. repeat split. Qed.

(** ** Ordered objects *)

Section Obj.
Context {V : Type}.
Implicit Types (o : obj V) (k : string) (v : V).

Lemma obj_get_set_eq o k v : obj_get (obj_set o k v) k = Some v.
Proof.
  induction o as [| [k' v'] o IH]; simpl.
  - by rewrite String.eqb_refl.
  - destruct (String.eqb_spec k' k) as [-> | Hne]; simpl.
    + by rewrite String.eqb_refl.
    + destruct (String.eqb_spec k' k); [congruence | exact IH].
Qed.

Lemma obj_get_set_ne o k k' v : k <> k' -> obj_get (obj_set o k v) k' = obj_get o k'.
Proof.
  intros Hne. induction o as [| [k0 v0] o IH]; simpl.
  - destruct (String.eqb_spec k k'); [congruence | reflexivity].
  - destruct (String.eqb_spec k0 k) as [-> | Hk0]; simpl.
    + destruct (String.eqb_spec k k'); [congruence | reflexivity].
    + destruct (String.eqb_spec k0 k'); [reflexivity | exact IH].
Qed.

Lemma obj_get_In o k v : obj_get o k = Some v -> In (k, v) o.
Proof.
  induction o as [| [k' v'] o IH]; simpl; [discriminate |].
  destruct (String.eqb_spec k' k) as [-> | Hne].
  - intros [= ->]. by left.
  - intros H. right. by apply IH.
Qed.

Lemma obj_set_In o k v k' v' :
  In (k', v') (obj_set o k v) -> (k' = k /\ v' = v) \/ In (k', v') o.
Proof.
  induction o as [| [k0 v0] o IH]; simpl.
  - intros [[= <- <-] | []]. by left.
  - destruct (String.eqb_spec k0 k) as [-> | Hne]; simpl.
    + intros [[= <- <-] | H]; [by left | right; by right].
    + intros [H | H]; [right; by left |].
      destruct (IH H) as [? | ?]; [by left | right; by right].
Qed.


Lemma obj_set_keys_In o k v k' :
  In k' (map fst (obj_set o k v)) <-> k' = k \/ In k' (map fst o).
Proof.
  induction o as [| [k0 v0] o IH]; simpl.
  - split; [intros [<- | []]; by left | intros [-> | []]; by left].
  - destruct (String.eqb_spec k0 k) as [-> | Hne]; simpl.
    + split; [intros [<- | H]; [by left | right; by right] |].
      intros [-> | [<- | H]]; [by left | by left | by right].
    + rewrite IH. tauto.
Qed.

Lemma obj_set_NoDup o k v :
  List.NoDup (map fst o) -> List.NoDup (map fst (obj_set o k v)).
Proof.
  induction o as [| [k0 v0] o IH]; simpl; intros Hnd.
  - constructor; [tauto | constructor].
  - apply List.NoDup_cons_iff in Hnd as [Hnotin Hnd].
    destruct (String.eqb_spec k0 k) as [-> | Hne]; simpl.
    + by apply List.NoDup_cons_iff.
    + apply List.NoDup_cons_iff. split; [| by apply IH].
      rewrite obj_set_keys_In. intros [-> | H]; [congruence | tauto].
Qed.

Lemma obj_get_NoDup_In o k v :
  List.NoDup (map fst o) -> In (k, v) o -> obj_get o k = Some v.
Proof.
  induction o as [| [k0 v0] o IH]; simpl; [tauto |].
  intros Hnd. apply List.NoDup_cons_iff in Hnd as [Hnotin Hnd].
  intros [[= -> ->] | Hin].
  - by rewrite String.eqb_refl.
  - destruct (String.eqb_spec k0 k) as [-> | Hne]; [| by apply IH].
    exfalso. apply Hnotin. change k with (fst (k, v)). by apply in_map.
Qed.

Lemma insert_index_perm (n : N) (e : string * V) (l : list (N * (string * V))) :
  Permutation (insert_index n e l) ((n, e) :: l).
Proof.
  induction l as [| [m e'] l IH]; simpl; [reflexivity |].
  destruct (n <? m)%N; [reflexivity |].
  rewrite IH. apply perm_swap.
Qed.

(** [Object.entries] enumerates every property once. *)
Lemma obj_entries_perm o : Permutation (obj_entries o) o.
Proof.
  unfold obj_entries. induction o as [| [k v] o IH]; simpl; [reflexivity |].
  destruct (array_index k) as [n |].
  - rewrite insert_index_perm. simpl. by constructor.
  - rewrite <- Permutation_middle. by constructor.
Qed.

Lemma obj_entries_In o (x : string * V) : In x (obj_entries o) <-> In x o.
Proof.
  split; apply Permutation_in; [| symmetry]; apply obj_entries_perm.
Qed.

Lemma obj_entries_NoDup o :
  List.NoDup (map fst o) -> List.NoDup (map fst (obj_entries o)).
Proof.
  apply Permutation_NoDup, Permutation_map. symmetry. apply obj_entries_perm.
Qed.
End Obj.

Section ForEach.
Context {A S : Type}.
Implicit Types (f : S -> A -> option S) (l : list A).

Lemma forEachM_app f l1 l2 s :
  forEachM f (l1 ++ l2) s = forEachM f l1 s ≫= forEachM f l2.
Proof.
  revert s. induction l1 as [| x l1 IH]; intros s; simpl; [reflexivity |].
  destruct (f s x); [apply IH | reflexivity].
Qed.


Lemma forEachM_preserves f l (P : S -> Prop) s s' :
  P s ->
  (forall s x s', In x l -> P s -> f s x = Some s' -> P s') ->
  forEachM f l s = Some s' -> P s'.
Proof.
  revert s. induction l as [| x l IH]; intros s Hs Hstep; simpl.
  - by intros [= <-].
  - destruct (f s x) as [s1 |] eqn:Hf; [| discriminate].
    apply IH; [eapply Hstep; eauto; by left |].
    intros s2 y s3 Hy. apply Hstep. by right.
Qed.
End ForEach.

(** ** The sort of the variants *)

Lemma insertVariant_perm v l : Permutation (insertVariant v l) (v :: l).
Proof.
  induction l as [| w l IH]; simpl; [reflexivity |].
  destruct (paramCount w <=? paramCount v)%nat; [reflexivity |].
  rewrite IH. apply perm_swap.
Qed.

Lemma sortVariants_perm l : Permutation (sortVariants l) l.
Proof.
  induction l as [| v l IH]; simpl; [reflexivity |].
  rewrite insertVariant_perm. by constructor.
Qed.

Lemma insertVariant_descending v l : descending l -> descending (insertVariant v l).
Proof.
  unfold descending. induction l as [| w l IH]; intros Hl; simpl.
  - repeat constructor.
  - apply StronglySorted_inv in Hl as [Hl Hw].
    destruct (Nat.leb_spec (paramCount w) (paramCount v)) as [Hle | Hlt].
    + constructor; [by constructor |].
      constructor; [exact Hle |].
      rewrite List.Forall_forall in Hw |- *. intros x Hx. specialize (Hw x Hx). lia.
    + constructor; [by apply IH |].
      rewrite List.Forall_forall in Hw |- *. intros x Hx.
      apply (Permutation_in _ (insertVariant_perm v l)) in Hx as [<- | Hx];
        [lia | by apply Hw].
Qed.

Lemma sortVariants_descending l : descending (sortVariants l).
Proof.
  induction l as [| v l IH]; simpl; [constructor |].
  by apply insertVariant_descending.
Qed.

Lemma insertVariant_withCount n v l :
  withCount n (insertVariant v l) = withCount n (v :: l).
Proof.
  unfold withCount. induction l as [| w l IH]; [reflexivity |].
  cbn [insertVariant].
  destruct (Nat.leb_spec (paramCount w) (paramCount v)) as [Hle | Hlt]; [reflexivity |].
  cbn [List.filter] in *. rewrite IH.
  destruct (Nat.eqb_spec (paramCount v) n), (Nat.eqb_spec (paramCount w) n);
    try reflexivity. lia.
Qed.

(** The sort is stable: variants with the same count keep their order. *)
Lemma sortVariants_stable n l : withCount n (sortVariants l) = withCount n l.
Proof.
  induction l as [| v l IH]; [reflexivity |].
  cbn [sortVariants foldr]. rewrite insertVariant_withCount.
  unfold withCount in *. cbn [List.filter]. fold (sortVariants l). by rewrite IH.
Qed.

(** ** Model groups *)

Lemma sameModel_app m l1 l2 : sameModel m (l1 ++ l2) = sameModel m l1 ++ sameModel m l2.
Proof. apply List.filter_app. Qed.

Lemma sameModel_In m l v : In v (sameModel m l) <-> In v l /\ modelNameOf v = m.
Proof. unfold sameModel. rewrite List.filter_In, String.eqb_eq. tauto. Qed.

Lemma group_step_get (acc : obj (list Variant)) (seen vs : list Variant) :
  (forall m, obj_get acc m = groupOf seen m) ->
  forall m,
    obj_get
      (fold_left
         (fun variantsByName variant =>
            obj_set variantsByName (modelNameOf variant)
              (default [] (obj_get variantsByName (modelNameOf variant)) ++ [variant]))
         vs acc) m
    = groupOf (seen ++ vs) m.
Proof.
  revert acc seen. induction vs as [| v vs IH]; intros acc seen Hacc m; simpl.
  - rewrite app_nil_r. apply Hacc.
  - replace (seen ++ v :: vs) with ((seen ++ [v]) ++ vs)
      by (rewrite <- app_assoc; reflexivity).
    apply IH. clear m. intros m. unfold groupOf. rewrite sameModel_app.
    destruct (String.eqb_spec (modelNameOf v) m) as [<- | Hne].
    + rewrite obj_get_set_eq, Hacc. unfold groupOf, sameModel at 3. simpl.
      rewrite String.eqb_refl.
      destruct (sameModel (modelNameOf v) seen); reflexivity.
    + rewrite obj_get_set_ne by assumption. rewrite Hacc.
      unfold groupOf, sameModel at 3. simpl.
      destruct (String.eqb_spec (modelNameOf v) m); [congruence |].
      by rewrite app_nil_r.
Qed.

Lemma groupVariants_get vs m : obj_get (groupVariants vs) m = groupOf vs m.
Proof. apply (group_step_get [] [] vs). reflexivity. Qed.

Lemma groupVariants_NoDup vs : List.NoDup (map fst (groupVariants vs)).
Proof.
  unfold groupVariants.
  assert (H : List.NoDup (map fst ([] : obj (list Variant)))) by constructor.
  revert H. generalize ([] : obj (list Variant)).
  induction vs as [| v vs IH]; intros acc Hacc; simpl; [exact Hacc |].
  apply IH. by apply obj_set_NoDup.
Qed.

Lemma groupVariants_In vs m g :
  In (m, g) (groupVariants vs) -> g = sameModel m vs /\ g <> [].
Proof.
  intros Hin.
  apply (obj_get_NoDup_In _ _ _ (groupVariants_NoDup vs)) in Hin.
  rewrite groupVariants_get in Hin. unfold groupOf in Hin.
  destruct (sameModel m vs) eqn:E; [discriminate |].
  injection Hin as <-. split; [reflexivity | discriminate].
Qed.

Lemma insertVariant_nonempty v l : insertVariant v l <> [].
Proof. destruct l; simpl; [discriminate |]. by destruct (_ <=? _)%nat. Qed.

Lemma sortVariants_nonempty l : l <> [] -> sortVariants l <> [].
Proof. destruct l; [congruence |]. intros _. apply insertVariant_nonempty. Qed.

Lemma modelRecord_total pk m g : g <> [] -> exists r, modelRecord pk m g = Some r.
Proof.
  intros Hg. unfold modelRecord.
  destruct (sortVariants g) eqn:E; [by apply sortVariants_nonempty in E |].
  eauto.
Qed.

Lemma modelRecord_device_name pk m g r :
  modelRecord pk m g = Some r -> device_name r = VStr m /\ brand r = VStr pk.
Proof.
  unfold modelRecord. destruct (sortVariants g); [discriminate |].
  intros [= <-]. split; reflexivity.
Qed.

(** The loop over the groups of one bucket: each group gets the record of
    its own variants, and no other property of [models] changes. *)
Lemma mergeModel_loop pk (gs : list (string * list Variant)) (models0 : obj DeviceRecord) :
  List.NoDup (map fst gs) ->
  (forall m g, In (m, g) gs -> g <> []) ->
  exists models,
    forEachM (mergeModel pk) gs models0 = Some models /\
    (forall m g, In (m, g) gs ->
       exists r, modelRecord pk m g = Some r /\ obj_get models m = Some r) /\
    (forall k, ~ In k (map fst gs) -> obj_get models k = obj_get models0 k).
Proof.
  revert models0. induction gs as [| [m g] gs IH]; intros models0 Hnd Hne; simpl.
  - exists models0. split; [reflexivity |]. split; [intros m g [] | reflexivity].
  - apply List.NoDup_cons_iff in Hnd as [Hnotin Hnd].
    destruct (modelRecord_total pk m g) as [r Hr]; [apply (Hne m g); by left |].
    rewrite Hr. simpl.
    destruct (IH (obj_set models0 m r) Hnd) as (models & Hloop & Hgroups & Hframe).
    { intros m' g' H. apply (Hne m' g'). by right. }
    exists models. split; [exact Hloop |]. split.
    + intros m' g' [[= <- <-] | Hin]; [| by apply Hgroups].
      exists r. split; [exact Hr |].
      rewrite (Hframe m Hnotin). apply obj_get_set_eq.
    + intros k Hk. rewrite Hframe by tauto.
      apply obj_get_set_ne. intros ->. tauto.
Qed.

(** Processing a bucket stores one device entry per distinct model name
    of its variants, built from the variants of that name alone, and
    changes nothing else under the brand. *)
Lemma processDevice_groups
    (buckets : obj (list Variant)) (primaryBrandKey : string)
    (models0 : obj DeviceRecord) (normalizedDevice deviceId : string)
    (deviceVariants : list Variant) :
  obj_get buckets deviceId = Some deviceVariants ->
  exists models,
    processDevice buckets primaryBrandKey models0 (normalizedDevice, deviceId)
      = Some models /\
    (forall v, In v deviceVariants ->
       exists r,
         modelRecord primaryBrandKey (modelNameOf v)
           (sameModel (modelNameOf v) deviceVariants) = Some r /\
         obj_get models (modelNameOf v) = Some r) /\
    (forall v1 v2, In v1 deviceVariants -> In v2 deviceVariants ->
       modelNameOf v1 <> modelNameOf v2 ->
       exists r1 r2,
         obj_get models (modelNameOf v1) = Some r1 /\
         obj_get models (modelNameOf v2) = Some r2 /\
         device_name r1 = VStr (modelNameOf v1) /\
         device_name r2 = VStr (modelNameOf v2) /\
         r1 <> r2) /\
    (forall k, (forall v, In v deviceVariants -> modelNameOf v <> k) ->
       obj_get models k = obj_get models0 k).
Proof.
  intros Hbucket. unfold processDevice. rewrite Hbucket. simpl.
  destruct (mergeModel_loop primaryBrandKey
              (obj_entries (groupVariants deviceVariants)) models0)
    as (models & Hloop & Hgroups & Hframe).
  { apply obj_entries_NoDup, groupVariants_NoDup. }
  { intros m g Hin. apply (proj1 (obj_entries_In _ _)) in Hin.
    by apply groupVariants_In in Hin as [_ ?]. }
  assert (Hentry : forall v, In v deviceVariants ->
            exists r,
              modelRecord primaryBrandKey (modelNameOf v)
                (sameModel (modelNameOf v) deviceVariants) = Some r /\
              obj_get models (modelNameOf v) = Some r).
  { intros v Hv. apply Hgroups. apply obj_entries_In, obj_get_In.
    rewrite groupVariants_get. unfold groupOf.
    destruct (sameModel (modelNameOf v) deviceVariants) eqn:E; [| reflexivity].
    assert (Hin : In v (sameModel (modelNameOf v) deviceVariants))
      by (apply sameModel_In; split; [exact Hv | reflexivity]).
    rewrite E in Hin. destruct Hin. }
  exists models. split; [exact Hloop |]. split; [exact Hentry |]. split.
  - intros v1 v2 Hv1 Hv2 Hne.
    destruct (Hentry v1 Hv1) as (r1 & Hr1 & Hget1).
    destruct (Hentry v2 Hv2) as (r2 & Hr2 & Hget2).
    apply modelRecord_device_name in Hr1 as [Hn1 _].
    apply modelRecord_device_name in Hr2 as [Hn2 _].
    exists r1, r2. repeat split; try assumption.
    intros ->. rewrite Hn1 in Hn2. injection Hn2 as Heq. by apply Hne.
  - intros k Hk. apply Hframe. intros Hin.
    apply in_map_iff in Hin as ([m g] & Hfst & Hin). simpl in Hfst. subst m.
    apply (proj1 (obj_entries_In _ _)) in Hin.
    apply groupVariants_In in Hin as [-> Hne].
    destruct (sameModel k deviceVariants) as [| v l] eqn:E; [congruence |].
    assert (Hv : In v (sameModel k deviceVariants)) by (rewrite E; by left).
    apply sameModel_In in Hv as [Hv Hname]. by apply (Hk v).
Qed.

(** What one bucket does to each property of the brand's object. *)
Lemma processDevice_get buckets pk models0 models1 nd id :
  processDevice buckets pk models0 (nd, id) = Some models1 ->
  exists bucket,
    obj_get buckets id = Some bucket /\
    forall k,
      obj_get models1 k =
      match sameModel k bucket with
      | [] => obj_get models0 k
      | _ :: _ => modelRecord pk k (sameModel k bucket)
      end.
Proof.
  intros Hrun.
  destruct (obj_get buckets id) as [bucket |] eqn:Hbucket;
    [| unfold processDevice in Hrun; by rewrite Hbucket in Hrun].
  exists bucket. split; [reflexivity |].
  destruct (processDevice_groups buckets pk models0 nd id bucket Hbucket)
    as (models & Hrun' & Hentry & _ & Hframe).
  rewrite Hrun in Hrun'. injection Hrun' as <-.
  intros k. destruct (sameModel k bucket) as [| v g] eqn:E.
  - apply Hframe. intros w Hw Hname.
    assert (Hin : In w (sameModel k bucket)) by (by apply sameModel_In).
    rewrite E in Hin. destruct Hin.
  - assert (Hv : In v (sameModel k bucket)) by (rewrite E; by left).
    apply sameModel_In in Hv as [Hv <-].
    destruct (Hentry v Hv) as (r & Hr & Hget). rewrite E in Hr. congruence.
Qed.

(** The devices of a brand: every entry is the record of one bucket's
    variants of that name. *)
Lemma processDevice_loop_groups buckets pk (l : list (string * string))
    (models0 models : obj DeviceRecord) :
  forEachM (processDevice buckets pk) l models0 = Some models ->
  forall k r, obj_get models k = Some r ->
    obj_get models0 k = Some r \/
    exists id bucket,
      obj_get buckets id = Some bucket /\
      modelRecord pk k (sameModel k bucket) = Some r.
Proof.
  revert models0. induction l as [| [nd id] l IH]; intros models0; cbn [forEachM].
  - intros [= <-] k r H. by left.
  - destruct (processDevice buckets pk models0 (nd, id)) as [models1 |] eqn:Hstep;
      [| discriminate].
    intros Hloop k r Hget.
    destruct (IH models1 Hloop k r Hget) as [H1 | H1]; [| by right].
    apply processDevice_get in Hstep as (bucket & Hbucket & Hk).
    rewrite Hk in H1. destruct (sameModel k bucket) eqn:E; [by left |].
    right. exists id, bucket. split; [exact Hbucket |]. by rewrite E.
Qed.

Lemma brandModels_groups buckets man models :
  brandModels buckets man = Some models ->
  forall k r, obj_get models k = Some r ->
    exists id bucket,
      obj_get buckets id = Some bucket /\
      modelRecord (canonicalName man) k (sameModel k bucket) = Some r.
Proof.
  unfold brandModels. intros Hloop k r Hget.
  destruct (processDevice_loop_groups _ _ _ _ _ Hloop k r Hget) as [H | H];
    [discriminate H | exact H].
Qed.

(** ** Final assembly *)

Lemma assembleBrand_get buckets (finalDb finalDb' : obj FinalEntry) nb man :
  assembleBrand buckets finalDb (nb, man) = Some finalDb' ->
  exists models,
    brandModels buckets man = Some models /\
    obj_get finalDb' (canonicalName man) = Some (Brand models) /\
    (forall k, k <> canonicalName man -> obj_get finalDb' k = obj_get finalDb k).
Proof.
  unfold assembleBrand. intros H.
  apply bind_Some in H as (models & Hmodels & [= <-]).
  exists models. split; [exact Hmodels |]. split.
  - apply obj_get_set_eq.
  - intros k Hk. rewrite !obj_get_set_ne by congruence. reflexivity.
Qed.

(** Brands with another display name leave the entry of [c] alone. *)
Lemma assemble_loop_frame buckets (l : list (string * Manufacturer))
    (finalDb finalDb' : obj FinalEntry) (c : string) :
  (forall nb man, In (nb, man) l -> canonicalName man <> c) ->
  forEachM (assembleBrand buckets) l finalDb = Some finalDb' ->
  obj_get finalDb' c = obj_get finalDb c.
Proof.
  revert finalDb. induction l as [| [nb man] l IH]; intros finalDb Hl; cbn [forEachM].
  - by intros [= <-].
  - destruct (assembleBrand buckets finalDb (nb, man)) as [f1 |] eqn:E; [| discriminate].
    intros Hrest.
    rewrite (IH f1); [| intros nb' man' Hin; apply (Hl nb'); by right | exact Hrest].
    apply assembleBrand_get in E as (_ & _ & _ & Hframe).
    apply Hframe. apply not_eq_sym, (Hl nb). by left.
Qed.

Lemma single_groups_assembleBrand buckets finalDb finalDb' entry :
  single_groups buckets finalDb ->
  assembleBrand buckets finalDb entry = Some finalDb' ->
  single_groups buckets finalDb'.
Proof.
  destruct entry as [nb man]. intros Hinv Hstep c models k r Hc Hk.
  apply assembleBrand_get in Hstep as (models' & Hmodels & Hget & Hframe).
  destruct (String.eqb_spec c (canonicalName man)) as [-> | Hne].
  - rewrite Hget in Hc. injection Hc as <-.
    by apply (brandModels_groups buckets man models').
  - rewrite (Hframe c Hne) in Hc. by apply (Hinv c models k r).
Qed.

Lemma single_groups_metadata buckets (metadata : obj JsValue) :
  single_groups buckets (map (fun kv => (fst kv, Metadata (snd kv))) metadata).
Proof.
  intros c models k r Hc _. exfalso.
  induction metadata as [| [k0 v0] metadata IH]; simpl in Hc; [discriminate |].
  destruct (String.eqb k0 c); [discriminate | by apply IH].
Qed.

Lemma single_groups_assemble metadata e finalDb :
  assemble metadata e = Some finalDb ->
  single_groups (normalizedDeviceMap e) finalDb.
Proof.
  unfold assemble. apply forEachM_preserves.
  - apply single_groups_metadata.
  - intros f entry f' _. apply single_groups_assembleBrand.
Qed.

(** ** Every device id has its bucket *)






(** ** The model name of a collected variant is its display name *)

Lemma replace_spaces_from_empty r s :
  r <> "" -> Str.replace_spaces_from r false s = "" -> s = "".
Proof.
  intros Hr. destruct s as [| c s]; [reflexivity |]. simpl.
  destruct (Str.is_space c); [| discriminate].
  destruct r; [congruence | discriminate].
Qed.

Lemma toLowerCase_empty s : Str.toLowerCase s = "" -> s = "".
Proof. destruct s; [reflexivity | discriminate]. Qed.

Lemma normalize_id_empty s : Str.normalize_id s = "" -> s = "".
Proof.
  unfold Str.normalize_id, Str.replace_spaces. intros H.
  apply toLowerCase_empty. revert H. by apply replace_spaces_from_empty.
Qed.

Lemma truthy_entry_nonempty (t : gmap string string) k v :
  truthy_entry t k = Some v -> v <> "".
Proof.
  unfold truthy_entry. destruct (t !! k) as [x |]; [| discriminate].
  destruct (decide (x = "")); [discriminate |]. by intros [= <-].
Qed.

Lemma normalized_empty key table dn :
  normalized (normalizeAndMapKey key table dn) = "" -> key = "".
Proof.
  unfold normalizeAndMapKey.
  destruct (truthy_entry table key) as [v |] eqn:E; simpl.
  - intros H. apply normalize_id_empty in H. by apply truthy_entry_nonempty in E.
  - destruct (truthy_entry table (Str.toLowerCase key)) as [v |] eqn:E'; simpl.
    + intros H. apply normalize_id_empty in H. by apply truthy_entry_nonempty in E'.
    + apply normalize_id_empty.
Qed.

Lemma getModelDisplayName_empty_key m brandKey modelKey :
  getModelDisplayName m brandKey modelKey = "" -> modelKey = "".
Proof.
  unfold getModelDisplayName.
  destruct (modelDisplayNames m !! brandKey) as [models |]; [| done].
  destruct (truthy_entry models modelKey) as [v |] eqn:E; simpl; [| done].
  intros ->. by apply truthy_entry_nonempty in E.
Qed.

Lemma named_pushVariant e nb nd id v :
  named_by_display e -> modelNameOf v = canonicalDeviceName v ->
  named_by_display (pushVariant e nb nd id v).
Proof.
  intros H Hv id' bucket' v' Hin Hv'. unfold pushVariant in Hin. simpl in Hin.
  apply obj_set_In in Hin as [[-> ->] | Hin]; [| by apply (H id' bucket')].
  apply in_app_or in Hv' as [Hv' | [<- | []]]; [| exact Hv].
  destruct (obj_get (normalizedDeviceMap e) id) as [bucket |] eqn:E; [| destruct Hv'].
  apply (H id bucket); [by apply obj_get_In | exact Hv'].
Qed.

Lemma modelNameOf_collected m brandKey deviceKey nb cb (d : DeviceRecord) :
  let nd := normalized (normalizeAndMapKey deviceKey (deviceMapping m) None) in
  modelNameOf {| brandKey := brandKey; deviceKey := deviceKey;
                 canonicalBrandName := cb;
                 canonicalDeviceName := getModelDisplayName m nb nd;
                 data := d |}
  = getModelDisplayName m nb nd.
Proof.
  intros nd. unfold modelNameOf. simpl.
  destruct (String.eqb_spec (getModelDisplayName m nb nd) "") as [E |]; [| reflexivity].
  rewrite E. apply getModelDisplayName_empty_key in E. by apply normalized_empty in E.
Qed.

Lemma named_targetBrand m e e' entry :
  named_by_display e -> targetBrand m e entry = Some e' -> named_by_display e'.
Proof.
  destruct entry as [brandKey brandData]. unfold targetBrand. intros H.
  destruct (includes reservedKeys brandKey); [by intros [= <-] |].
  intros Hrun. apply bind_Some in Hrun as (entries & _ & Hloop).
  revert Hloop. apply forEachM_preserves; [exact H |].
  intros e1 [deviceKey deviceData] e2 _ H1 Hstep. unfold targetDevice in Hstep.
  apply bind_Some in Hstep as (? & _ & Hstep).
  apply bind_Some in Hstep as (? & _ & Hstep).
  apply bind_Some in Hstep as (? & _ & [= <-]).
  apply named_pushVariant; [exact H1 | apply modelNameOf_collected].
Qed.

Lemma named_sourceBrand m e e' entry :
  named_by_display e -> sourceBrand m e entry = Some e' -> named_by_display e'.
Proof.
  destruct entry as [brandKey brandData]. unfold sourceBrand. intros H.
  intros Hrun. apply bind_Some in Hrun as (entries & _ & Hloop).
  revert Hloop. apply forEachM_preserves; [exact H |].
  intros e1 [deviceKey deviceData] e2 _ H1 Hstep. unfold sourceDevice in Hstep.
  apply bind_Some in Hstep as (? & _ & Hstep).
  apply bind_Some in Hstep as (? & _ & [= <-]).
  apply named_pushVariant; [exact H1 | apply modelNameOf_collected].
Qed.

Lemma named_collect m targetDb sourceDb e :
  collect m targetDb sourceDb = Some e -> named_by_display e.
Proof.
  unfold collect. intros H.
  apply bind_Some in H as (targetEntries & _ & H).
  apply bind_Some in H as (e1 & Htarget & H).
  apply bind_Some in H as (sourceEntries & _ & Hsource).
  assert (H1 : named_by_display e1).
  { revert Htarget. apply forEachM_preserves.
    - intros id bucket v [].
    - intros ? ? ? _. apply named_targetBrand. }
  revert Hsource. apply forEachM_preserves; [exact H1 |].
  intros ? ? ? _. apply named_sourceBrand.
Qed.

Lemma sameModel_display (l : list Variant) (m : string) :
  (forall v, In v l -> modelNameOf v = canonicalDeviceName v) ->
  sameModel m l = sameDisplayName m l.
Proof.
  intros H. unfold sameModel, sameDisplayName.
  induction l as [| v l IH]; [reflexivity |]. simpl.
  rewrite (H v) by (by left). rewrite IH; [reflexivity |].
  intros w Hw. apply H. by right.
Qed.

(** ** Final assembly never throws *)









(** ** Reserved keys *)

(** The target loop returns at once on a reserved key. *)
Lemma targetBrand_skips_reserved m e k v :
  In k reservedKeys -> targetBrand m e (k, v) = Some e.
Proof. intros [<- | [<- | []]]; reflexivity. Qed.

(** The metadata holds the reserved keys the target database defines,
    with their values. *)
Lemma collectMetadata_get props metadata k :
  collectMetadata (VObj props) = Some metadata -> In k reservedKeys ->
  obj_get metadata k =
  match obj_get props k with
  | Some VUndefined | None => None
  | Some v => Some v
  end.
Proof.
  unfold collectMetadata, reservedKeys. cbn [forEachM js_get mbind option_bind].
  intros [= <-] [<- | [<- | []]].
  - destruct (obj_get props "version") as [v |]; simpl;
      [destruct v; simpl | ];
      destruct (obj_get props "generatedAt") as [w |]; simpl;
      try destruct w; reflexivity.
  - destruct (obj_get props "version") as [v |]; simpl;
      [destruct v; simpl | ];
      destruct (obj_get props "generatedAt") as [w |]; simpl;
      try destruct w; reflexivity.
Qed.

(** C7, on the code. A [version] key of the source database is iterated
    like a brand: with the target [{version: "1.0.0"}] and the source
    [{version: "2"}] the final database has under [version] a brand whose
    one device is the character of the source string, where an empty
    source leaves the metadata of the target. *)
Theorem source_version_key_becomes_brand :
  resolve emptyMappings Samples.versionedTarget (VObj [])
    = Some [("version", Metadata (VStr "1.0.0"))] /\
  exists d,
    resolve emptyMappings Samples.versionedTarget Samples.versionedSource
      = Some [("version", Brand [("0", d)])] /\
    brand d = VStr "version" /\ device_name d = VStr "0".
Proof. split; [reflexivity |]. eexists. repeat split. Qed.

(** ** A missing or malformed configuration *)

(** C8, as the code has it. When [mapping.json] is missing, is not JSON,
    or makes the [try] block of [loadMappings] throw, the merge script
    continues with four empty tables: every plain key is its own canonical
    form (a key that names a member of [Object.prototype], as it is or
    lower-cased, finds the inherited member in the empty table and makes
    the normalizer throw) and the databases are resolved as with no
    aliases. The diagnostics script has no such fallback: without a parsed
    configuration holding a [brands] array it ends with the exception. *)
Theorem missing_config_degrades_merge_only (f : ConfigFile) :
  (f = Missing \/ f = Unparseable \/
   exists mapping, f = Json mapping /\ buildMappings mapping = None) ->
  loadMappings f = emptyMappings /\
  (forall key dn, plain_key key = true ->
     normalizeAndMapKey key (manufacturerMapping (loadMappings f)) dn
     = {| normalized := Str.normalize_id key; canonical := key |}) /\
  (forall key dn, plain_key key = true ->
     normalizeAndMapKey key (deviceMapping (loadMappings f)) dn
     = {| normalized := Str.normalize_id key; canonical := key |}) /\
  (forall brandKey modelKey, inherited brandKey = false ->
     getModelDisplayName (loadMappings f) brandKey modelKey = modelKey) /\
  (forall targetDb sourceDb,
     mergeScript f targetDb sourceDb = resolve emptyMappings targetDb sourceDb) /\
  (parsedConfig f ≫= brandsOf = None ->
   forall targetDb sourceDb, Diagnostics.run f targetDb sourceDb = None).
Proof.
  intros Hf.
  assert (Hload : loadMappings f = emptyMappings).
  { unfold loadMappings.
    destruct Hf as [-> | [-> | (mapping & -> & Hbuild)]]; simpl; [reflexivity .. |].
    by rewrite Hbuild. }
  unfold mergeScript. rewrite Hload.
  repeat split; try reflexivity.
  intros Hbrands targetDb sourceDb. unfold Diagnostics.run, Diagnostics.buildLookups.
  destruct (parsedConfig f) as [mapping |]; [| reflexivity].
  simpl in *. by rewrite Hbrands.
Qed.

(** Concrete instances of [missing_config_degrades_merge_only]: no file
    (with the plain key ["Moog Music"]), and a file whose [brands] is a
    string. *)
Lemma missing_config_degrades_merge_only_witness :
  (loadMappings Missing = emptyMappings /\
   normalizeAndMapKey "Moog Music" (manufacturerMapping (loadMappings Missing)) None
   = {| normalized := "moog_music"; canonical := "Moog Music" |} /\
   Diagnostics.run Missing Scenario.targetDb Scenario.sourceDb = None) /\
  (loadMappings (Json Samples.brokenConfig) = emptyMappings /\
   mergeScript (Json Samples.brokenConfig) Scenario.targetDb Scenario.sourceDb
   = resolve emptyMappings Scenario.targetDb Scenario.sourceDb /\
   Diagnostics.run (Json Samples.brokenConfig) Scenario.targetDb Scenario.sourceDb = None).
Proof.
  split.
  - destruct (missing_config_degrades_merge_only Missing)
      as (Hload & Hkey & _ & _ & _ & Hdiag); [left; reflexivity |].
    split; [exact Hload |].
    split; [exact (Hkey "Moog Music" None eq_refl) | apply Hdiag; reflexivity].
  - destruct (missing_config_degrades_merge_only (Json Samples.brokenConfig))
      as (Hload & _ & _ & _ & Hmerge & Hdiag).
    + right. right. exists Samples.brokenConfig. split; reflexivity.
    + split; [exact Hload |]. split; [apply Hmerge | apply Hdiag; reflexivity].
Defined.

(** C8 as stated fails for the diagnostics script: without [mapping.json]
    it ends with the exception of [readFileSync] and reports nothing, while
    the merge script on the same databases reaches a final database. *)
Lemma diagnostics_aborts_without_config :
  (~ exists report,
       Diagnostics.run Missing Scenario.targetDb Scenario.sourceDb = Some report) /\
  (exists finalDb, mergeScript Missing Scenario.targetDb Scenario.sourceDb = Some finalDb).
Proof.
  split.
  - intros [report H]. discriminate H.
  - eexists. reflexivity.
Qed.

(** * Further properties of the scripts *)

(** ** The device merger beyond the length rule *)

Lemma js_or_defaulted v d : defaulted_field v d -> js_or v d = v.
Proof.
  intros [H | ->]; unfold js_or; [by rewrite H |].
  by destruct (truthy d).
Qed.

Lemma js_or_is_defaulted v d : defaulted_field (js_or v d) d.
Proof. unfold js_or. destruct (truthy v) eqn:E; [by left | by right]. Qed.

Lemma mergeArray_length {X} (a b : list X) :
  length (mergeArray a b) = Nat.max (length a) (length b).
Proof.
  unfold mergeArray. destruct a, b; simpl; try reflexivity; try lia.
  destruct (Nat.leb_spec (length b) (length a)); simpl; lia.
Qed.

Lemma mergeArray_empty_l {X} (b : list X) : mergeArray [] b = b.
Proof. by destruct b. Qed.

Lemma mergeArray_empty_r {X} (a : list X) : mergeArray a [] = a.
Proof. by destruct a. Qed.

Lemma mergeArray_self {X} (a : list X) : mergeArray a a = a.
Proof.
  destruct a; [reflexivity |]. unfold mergeArray. simpl.
  by rewrite Nat.leb_refl.
Qed.

(** X1. An empty array never wins: when one record has no parameters of
    a kind the merged record takes the other record's array, also when it
    is the secondary's; for each kind the merged array is as long as the
    longer input. *)
Theorem mergeDevices_keeps_one_sided_arrays (primary secondary : DeviceRecord) :
  (cc primary = [] -> cc (mergeDevices primary secondary) = cc secondary) /\
  (nrpn primary = [] -> nrpn (mergeDevices primary secondary) = nrpn secondary) /\
  (pc primary = [] -> pc (mergeDevices primary secondary) = pc secondary) /\
  (cc secondary = [] -> cc (mergeDevices primary secondary) = cc primary) /\
  (nrpn secondary = [] -> nrpn (mergeDevices primary secondary) = nrpn primary) /\
  (pc secondary = [] -> pc (mergeDevices primary secondary) = pc primary) /\
  length (cc (mergeDevices primary secondary))
    = Nat.max (length (cc primary)) (length (cc secondary)) /\
  length (nrpn (mergeDevices primary secondary))
    = Nat.max (length (nrpn primary)) (length (nrpn secondary)) /\
  length (pc (mergeDevices primary secondary))
    = Nat.max (length (pc primary)) (length (pc secondary)).
Proof.
  rewrite mergeDevices_cc, mergeDevices_nrpn, mergeDevices_pc.
  repeat match goal with |- _ /\ _ => split end;
    try (intros ->; first [apply mergeArray_empty_l | apply mergeArray_empty_r]);
    apply mergeArray_length.
Qed.

(** A concrete instance of [mergeDevices_keeps_one_sided_arrays]. *)
Lemma mergeDevices_keeps_one_sided_arrays_witness :
  nrpn (mergeDevices Samples.silentPrimary Samples.deviceB) = nrpn Samples.deviceB /\
  cc (mergeDevices Samples.deviceB (Samples.device "" [] [] [])) = cc Samples.deviceB.
Proof.
  split.
  - destruct (mergeDevices_keeps_one_sided_arrays Samples.silentPrimary Samples.deviceB)
      as (_ & H & _).
    apply H. reflexivity.
  - destruct (mergeDevices_keeps_one_sided_arrays Samples.deviceB
                (Samples.device "" [] [] [])) as (_ & _ & _ & H & _).
    apply H. reflexivity.
Defined.

(** X2. The scalar surface of a merge comes from the primary record
    alone: [brand] and [device_name] are the primary's, and every other
    scalar is the primary's value when that is truthy and the default
    otherwise, so no scalar of the secondary record ever reaches the
    result; the result always carries its defaults. *)
Theorem mergeDevices_scalars_from_primary (primary secondary : DeviceRecord) :
  brand (mergeDevices primary secondary) = brand primary /\
  device_name (mergeDevices primary secondary) = device_name primary /\
  midi_thru (mergeDevices primary secondary) = js_or (midi_thru primary) (VBool false) /\
  midi_in (mergeDevices primary secondary) = js_or (midi_in primary) (VStr "") /\
  midi_clock (mergeDevices primary secondary) = js_or (midi_clock primary) (VBool false) /\
  phantom_power (mergeDevices primary secondary)
    = js_or (phantom_power primary) (VStr "None") /\
  instructions (mergeDevices primary secondary) = js_or (instructions primary) (VStr "") /\
  defaulted (mergeDevices primary secondary).
Proof.
  unfold mergeDevices, defaulted.
  destruct (truthy _ && truthy _); simpl;
    repeat split; apply js_or_is_defaulted.
Qed.

(** X3. On a record that carries its defaults, merging keeps every
    scalar of the primary as it is, and merging a record with itself
    gives the record back. *)
Theorem mergeDevices_idempotent (d secondary : DeviceRecord) :
  defaulted d ->
  mergeDevices d d = d /\
  midi_thru (mergeDevices d secondary) = midi_thru d /\
  midi_in (mergeDevices d secondary) = midi_in d /\
  midi_clock (mergeDevices d secondary) = midi_clock d /\
  phantom_power (mergeDevices d secondary) = phantom_power d /\
  instructions (mergeDevices d secondary) = instructions d.
Proof.
  intros (H1 & H2 & H3 & H4 & H5). split.
  - unfold mergeDevices.
    destruct d as [b n mt mi mc pp [ci] ins ccs nrpns pcs]. simpl in *.
    rewrite !mergeArray_self.
    destruct (truthy ci && truthy ci), (js_ge (js_length ci) (js_length ci)); simpl;
      rewrite (js_or_defaulted _ _ H1), (js_or_defaulted _ _ H2),
        (js_or_defaulted _ _ H3), (js_or_defaulted _ _ H4), (js_or_defaulted _ _ H5);
      reflexivity.
  - unfold mergeDevices.
    destruct (truthy _ && truthy _); simpl;
      rewrite (js_or_defaulted _ _ H1), (js_or_defaulted _ _ H2),
        (js_or_defaulted _ _ H3), (js_or_defaulted _ _ H4), (js_or_defaulted _ _ H5);
      by repeat split.
Qed.

(** A concrete instance of [mergeDevices_idempotent]. *)
Lemma mergeDevices_idempotent_witness :
  mergeDevices Samples.deviceA Samples.deviceA = Samples.deviceA.
Proof.
  apply (mergeDevices_idempotent Samples.deviceA Samples.deviceB).
  unfold defaulted, defaulted_field. simpl.
  split; [by right |]. split; [by right |]. split; [by right |].
  split; [by left | by right].
Defined.

(** ** The standardizer: what it accepts and what it guarantees *)

Lemma js_get_None v k : js_get v k = None <-> is_nullish v = true.
Proof. destruct v; simpl; split; congruence. Qed.

Lemma js_get_Some_opt v k x : js_get v k = Some x -> js_get_opt v k = x.
Proof. unfold js_get_opt. by intros ->. Qed.

Lemma js_get_not_nullish v k :
  is_nullish v = false -> js_get v k = Some (js_get_opt v k).
Proof. unfold js_get_opt. by destruct v. Qed.

Lemma mapM_opt_Some {A B} (f : A -> option B) (l : list A) :
  (forall x, In x l -> is_Some (f x)) -> is_Some (mapM_opt f l).
Proof.
  induction l as [| x l IH]; intros H; simpl; [eauto |].
  destruct (H x) as [y ->]; [by left |].
  destruct IH as [ys ->]; [intros; apply H; by right | eauto].
Qed.

Lemma mapM_opt_inv {A B} (f : A -> option B) (l : list A) (ys : list B) :
  mapM_opt f l = Some ys ->
  length ys = length l /\
  (forall x, In x l -> is_Some (f x)) /\
  (forall y, In y ys -> exists x, In x l /\ f x = Some y).
Proof.
  revert ys. induction l as [| x l IH]; intros ys; simpl.
  - intros [= <-]. repeat split; [intros x [] | intros y []].
  - destruct (f x) as [y |] eqn:Hx; [| discriminate].
    destruct (mapM_opt f l) as [ys' |]; [| discriminate].
    intros [= <-]. destruct (IH ys' eq_refl) as (Hlen & Hall & Hys).
    split; [simpl; by rewrite Hlen |]. split.
    + intros x' [<- | H]; [rewrite Hx; eauto | by apply Hall].
    + intros y' [<- | H]; [exists x; split; [by left | exact Hx] |].
      destruct (Hys y' H) as (x' & ? & ?). exists x'. split; [by right | assumption].
Qed.

Lemma standard_cc_Some x : is_Some (standard_cc x) <-> is_nullish x = false.
Proof.
  unfold standard_cc. destruct x; simpl; split; intros H;
    try discriminate; try (by destruct H); eauto.
Qed.

Lemma standard_nrpn_Some x : is_Some (standard_nrpn x) <-> is_nullish x = false.
Proof.
  unfold standard_nrpn. destruct x; simpl; split; intros H;
    try discriminate; try (by destruct H); eauto.
Qed.

Lemma map_array_Some {B} (f : JsValue -> option B) v :
  (forall x, is_Some (f x) <-> is_nullish x = false) ->
  is_Some (map_array f v) <-> mappable v = true.
Proof.
  intros Hf. unfold map_array, mappable.
  destruct (truthy v) eqn:Hv; simpl; [| split; eauto].
  destruct v; try (split; [intros [? [=]] | discriminate]).
  rewrite forallb_forall. split.
  - intros [ys H] x Hx. apply mapM_opt_inv in H as (_ & Hall & _).
    apply negb_true_iff, Hf, Hall, Hx.
  - intros H. apply mapM_opt_Some. intros x Hx.
    apply Hf, negb_true_iff, H, Hx.
Qed.

Lemma createStandardDevice_is_Some deviceData brandName deviceName :
  is_Some (createStandardDevice deviceData brandName deviceName)
  <-> standardizable deviceData = true.
Proof.
  unfold standardizable, createStandardDevice.
  destruct (is_nullish deviceData) eqn:Hnull.
  - apply (js_get_None deviceData "midi_thru") in Hnull. rewrite Hnull. simpl.
    split; [intros [? [=]] | discriminate].
  - rewrite !(js_get_not_nullish deviceData) by assumption. simpl.
    pose proof (map_array_Some standard_cc (js_get_opt deviceData "cc") standard_cc_Some)
      as Hcc.
    pose proof (map_array_Some standard_nrpn (js_get_opt deviceData "nrpn")
                  standard_nrpn_Some) as Hnrpn.
    destruct (map_array standard_cc (js_get_opt deviceData "cc")) as [ccs |]; simpl.
    + destruct (map_array standard_nrpn (js_get_opt deviceData "nrpn")) as [nrpns |];
        simpl.
      * split; [intros _ | eauto].
        rewrite (proj1 Hcc), (proj1 Hnrpn) by eauto. reflexivity.
      * split; [intros [? [=]] |]. intros H. apply andb_true_iff in H as [_ H].
        apply Hnrpn in H. by destruct H.
    + split; [intros [? [=]] |]. intros H. apply andb_true_iff in H as [H _].
      apply Hcc in H. by destruct H.
Qed.

(** X4. [createStandardDevice] throws exactly when the raw device is
    [null] or [undefined], when its [cc] or [nrpn] is a truthy value that
    is not an array, or when such an array holds [null]; every other raw
    device, also a primitive or one without any field, is standardized. *)
Theorem createStandardDevice_succeeds_iff (deviceData brandName deviceName : JsValue) :
  is_Some (createStandardDevice deviceData brandName deviceName)
  <-> standardizable deviceData = true.
Proof. apply createStandardDevice_is_Some. Qed.

Lemma coerce_int_not_string v : not_string (coerce_int v).
Proof.
  intros s. destruct v; simpl; try discriminate.
  unfold parseInt. destruct (skip_spaces s0) as [| c r]; simpl;
    [discriminate |].
  destruct (let '(neg, s1) := _ in _) eqn:E; try discriminate.
  all: revert E;
    repeat match goal with
           | |- context [match ?x with _ => _ end] => destruct x
           end; congruence.
Qed.

Lemma parseInt_number s : (exists n, parseInt s = VNum n) \/ parseInt s = VNaN.
Proof.
  unfold parseInt. destruct (let '(neg, s1) := _ in _) eqn:E; eauto;
    revert E;
    repeat match goal with
           | |- context [match ?x with _ => _ end] => destruct x
           end; congruence.
Qed.

Lemma coerce_int_default_ok v d :
  not_string (coerce_int_default v d) /\ coerce_int_default v d <> VUndefined.
Proof.
  destruct v; simpl; try (split; [intros ? | ]; discriminate).
  destruct (parseInt_number s) as [[n ->] | ->]; split; try intros ?; discriminate.
Qed.

Lemma standard_cc_ok_intro x p : standard_cc x = Some p -> standard_cc_ok p.
Proof.
  unfold standard_cc. intros H.
  repeat (apply bind_Some in H as (? & _ & H)). injection H as <-.
  unfold standard_cc_ok. simpl.
  repeat split; try apply js_or_is_defaulted; try apply coerce_int_not_string;
    apply coerce_int_default_ok.
Qed.

Lemma standard_nrpn_ok_intro x p : standard_nrpn x = Some p -> standard_nrpn_ok p.
Proof.
  unfold standard_nrpn. intros H.
  repeat (apply bind_Some in H as (? & _ & H)). injection H as <-.
  unfold standard_nrpn_ok. simpl.
  repeat split; try apply js_or_is_defaulted; try apply coerce_int_not_string;
    apply coerce_int_default_ok.
Qed.

Lemma map_array_inv {B} (f : JsValue -> option B) v (ys : list B) :
  map_array f v = Some ys ->
  length ys = rawLength v /\ forall y, In y ys -> exists x, f x = Some y.
Proof.
  unfold map_array. destruct (truthy v) eqn:Hv.
  - destruct v; try discriminate. intros H.
    apply mapM_opt_inv in H as (Hlen & _ & Hys). split; [exact Hlen |].
    intros y Hy. destruct (Hys y Hy) as (x & _ & Hx). eauto.
  - intros [= <-]. split; [| intros y []].
    destruct v; try reflexivity. discriminate.
Qed.

(** The record [createStandardDevice] returns, field by field. *)
Lemma createStandardDevice_inv deviceData brandName deviceName r :
  createStandardDevice deviceData brandName deviceName = Some r ->
  exists ccs nrpns,
    map_array standard_cc (js_get_opt deviceData "cc") = Some ccs /\
    map_array standard_nrpn (js_get_opt deviceData "nrpn") = Some nrpns /\
    r = {| brand := brandName;
           device_name := deviceName;
           midi_thru := js_or (js_get_opt deviceData "midi_thru") (VBool false);
           midi_in := js_or (js_get_opt deviceData "midi_in") (VStr "");
           midi_clock := js_or (js_get_opt deviceData "midi_clock") (VBool false);
           phantom_power := js_or (js_get_opt deviceData "phantom_power") (VStr "None");
           midi_channel :=
             {| MidiChannel.instructions :=
                  js_or (js_get_opt (js_get_opt deviceData "midi_channel") "instructions")
                    (VStr "") |};
           instructions := js_or (js_get_opt deviceData "instructions") (VStr "");
           cc := ccs; nrpn := nrpns; pc := [] |}.
Proof.
  unfold createStandardDevice. intros H.
  destruct (is_nullish deviceData) eqn:Hnull.
  { apply (js_get_None deviceData "midi_thru") in Hnull. by rewrite Hnull in H. }
  rewrite !(js_get_not_nullish deviceData) in H by assumption. simpl in H.
  apply bind_Some in H as (ccs & Hcc & H).
  apply bind_Some in H as (nrpns & Hnrpn & [= <-]).
  by exists ccs, nrpns.
Qed.

Lemma createStandardDevice_defaulted deviceData brandName deviceName r :
  createStandardDevice deviceData brandName deviceName = Some r -> defaulted r.
Proof.
  intros H. apply createStandardDevice_inv in H as (ccs & nrpns & _ & _ & ->).
  unfold defaulted. simpl. repeat split; apply js_or_is_defaulted.
Qed.

(** X5. A standardized record has the brand and device name it was
    given, a defaulted value in every scalar field, as many [cc] and
    [nrpn] parameters as the raw lists, an empty [pc] list whatever the
    raw device holds, and in every parameter defaulted text fields,
    numeric fields that are never strings and bounds that are never
    [undefined]. *)
Theorem createStandardDevice_guarantees
    (deviceData brandName deviceName : JsValue) (r : DeviceRecord) :
  createStandardDevice deviceData brandName deviceName = Some r ->
  brand r = brandName /\ device_name r = deviceName /\
  defaulted r /\
  defaulted_field (channelInstructions r) (VStr "") /\
  length (cc r) = rawLength (js_get_opt deviceData "cc") /\
  length (nrpn r) = rawLength (js_get_opt deviceData "nrpn") /\
  pc r = [] /\
  (forall p, In p (cc r) -> standard_cc_ok p) /\
  (forall p, In p (nrpn r) -> standard_nrpn_ok p).
Proof.
  intros H. pose proof (createStandardDevice_defaulted _ _ _ _ H) as Hd.
  pose proof (createStandardDevice_pc _ _ _ _ H) as Hpc.
  apply createStandardDevice_inv in H as (ccs & nrpns & Hcc & Hnrpn & ->).
  apply map_array_inv in Hcc as (Hlcc & Hccs).
  apply map_array_inv in Hnrpn as (Hlnrpn & Hnrpns).
  do 2 (split; [reflexivity |]). split; [exact Hd |].
  split; [apply js_or_is_defaulted |].
  split; [exact Hlcc |]. split; [exact Hlnrpn |]. split; [exact Hpc |]. split.
  - intros p Hp. destruct (Hccs p Hp) as (x & Hx). by apply standard_cc_ok_intro in Hx.
  - intros p Hp. destruct (Hnrpns p Hp) as (x & Hx). by apply standard_nrpn_ok_intro in Hx.
Qed.

(** A concrete instance of [createStandardDevice_guarantees]: numeric
    strings and missing bounds in the raw parameters. *)
Lemma createStandardDevice_guarantees_witness :
  exists r,
    createStandardDevice Samples.rawWithStrings (VStr "Acme") (VStr "Widget") = Some r /\
    length (cc r) = 2 /\
    pc r = [] /\
    (forall p, In p (cc r) -> standard_cc_ok p).
Proof.
  eexists. split; [reflexivity |].
  edestruct (createStandardDevice_guarantees Samples.rawWithStrings (VStr "Acme")
               (VStr "Widget")) as (_ & _ & _ & _ & Hlen & _ & Hpc & Hcc & _);
    [reflexivity |].
  split; [exact Hlen |]. split; [exact Hpc | exact Hcc].
Defined.

(** ** What the collection records about each device *)

Lemma all_pushVariant (P : string -> Variant -> Prop) e nb nd id v :
  buckets_all P e -> P id v -> buckets_all P (pushVariant e nb nd id v).
Proof.
  intros H Hv id' bucket' v' Hin Hv'. unfold pushVariant in Hin. simpl in Hin.
  apply obj_set_In in Hin as [[-> ->] | Hin]; [| by apply (H id' bucket')].
  apply in_app_or in Hv' as [Hv' | [<- | []]]; [| exact Hv].
  destruct (obj_get (normalizedDeviceMap e) id) as [bucket |] eqn:E; [| destruct Hv'].
  apply (H id bucket); [by apply obj_get_In | exact Hv'].
Qed.

Lemma all_collect (P : string -> Variant -> Prop) m targetDb sourceDb e :
  (forall bk dk raw b n d,
     createStandardDevice raw b n = Some d ->
     P (deviceIdOf m bk dk)
       {| brandKey := bk; deviceKey := dk;
          canonicalBrandName :=
            canonical (normalizeAndMapKey bk (manufacturerMapping m)
                         (Some (brandDisplayNames m)));
          canonicalDeviceName :=
            getModelDisplayName m (normalizedBrandOf m bk) (normalizedDeviceOf m dk);
          data := d |}) ->
  collect m targetDb sourceDb = Some e -> buckets_all P e.
Proof.
  intros Hpush. unfold collect. intros H.
  apply bind_Some in H as (targetEntries & _ & H).
  apply bind_Some in H as (e1 & Htarget & H).
  apply bind_Some in H as (sourceEntries & _ & Hsource).
  assert (H1 : buckets_all P e1).
  { revert Htarget. apply forEachM_preserves; [intros id bucket v [] |].
    intros e0 [brandKey brandData] e0' _ H0. unfold targetBrand.
    destruct (includes reservedKeys brandKey); [by intros [= <-] |].
    intros Hrun. apply bind_Some in Hrun as (entries & _ & Hloop).
    revert Hloop. apply forEachM_preserves; [exact H0 |].
    intros e2 [deviceKey deviceData] e3 _ H2 Hstep. unfold targetDevice in Hstep.
    apply bind_Some in Hstep as (? & _ & Hstep).
    apply bind_Some in Hstep as (? & _ & Hstep).
    apply bind_Some in Hstep as (d & Hd & [= <-]).
    apply all_pushVariant; [exact H2 |]. by apply (Hpush _ _ _ _ _ _ Hd). }
  revert Hsource. apply forEachM_preserves; [exact H1 |].
  intros e0 [brandKey brandData] e0' _ H0. unfold sourceBrand.
  intros Hrun. apply bind_Some in Hrun as (entries & _ & Hloop).
  revert Hloop. apply forEachM_preserves.
  - destruct (obj_get (manufacturers e0) _) as [man |];
      [destruct (includes (variants man) brandKey) |]; exact H0.
  - intros e2 [deviceKey deviceData] e3 _ H2 Hstep. unfold sourceDevice in Hstep.
    apply bind_Some in Hstep as (? & _ & Hstep).
    apply bind_Some in Hstep as (d & Hd & [= <-]).
    apply all_pushVariant; [exact H2 |]. by apply (Hpush _ _ _ _ _ _ Hd).
Qed.

Lemma collect_collected m targetDb sourceDb e :
  collect m targetDb sourceDb = Some e -> buckets_all (collected m) e.
Proof.
  apply all_collect. intros bk dk raw b n d Hd. unfold collected. simpl.
  repeat split.
  - by apply createStandardDevice_defaulted in Hd as (? & ? & ? & ? & ?).
  - by apply createStandardDevice_defaulted in Hd as (? & ? & ? & ? & ?).
  - by apply createStandardDevice_defaulted in Hd as (? & ? & ? & ? & ?).
  - by apply createStandardDevice_defaulted in Hd as (? & ? & ? & ? & ?).
  - by apply createStandardDevice_defaulted in Hd as (? & ? & ? & ? & ?).
  - by apply createStandardDevice_pc in Hd.
Qed.

(** X6. Where a record is stored depends on its own keys and the alias
    tables alone: every variant sits in the bucket named by the
    normalized ids of its raw brand and device key, and its canonical brand
    and device names are those of its keys, whichever database it came from
    and whatever was collected before it. *)
Theorem bucket_determined_by_keys
    (m : Mappings) (targetDb sourceDb : JsValue) (e : Engine)
    (deviceId : string) (deviceVariants : list Variant) (v : Variant) :
  collect m targetDb sourceDb = Some e ->
  obj_get (normalizedDeviceMap e) deviceId = Some deviceVariants ->
  In v deviceVariants ->
  deviceId = deviceIdOf m (brandKey v) (deviceKey v) /\
  canonicalBrandName v =
    canonical (normalizeAndMapKey (brandKey v) (manufacturerMapping m)
                 (Some (brandDisplayNames m))) /\
  canonicalDeviceName v =
    getModelDisplayName m (normalizedBrandOf m (brandKey v))
      (normalizedDeviceOf m (deviceKey v)).
Proof.
  intros He Hbucket Hv.
  destruct (collect_collected _ _ _ _ He deviceId deviceVariants v)
    as (H1 & H2 & H3 & _); [by apply obj_get_In | exact Hv |].
  by repeat split.
Qed.

(** A concrete instance of [bucket_determined_by_keys]: the source record
    of the scenario. *)
Lemma bucket_determined_by_keys_witness :
  "boss_gt-1000" = deviceIdOf Scenario.aliases "roland" "gt1000" /\
  canonicalBrandName Samples.scenarioSourceVariant = "BOSS" /\
  canonicalDeviceName Samples.scenarioSourceVariant = "GT-1000".
Proof.
  exact (bucket_determined_by_keys Scenario.aliases Scenario.targetDb
           Scenario.sourceDb Samples.scenarioEngine "boss_gt-1000"
           (default [] (obj_get (normalizedDeviceMap Samples.scenarioEngine)
                          "boss_gt-1000"))
           Samples.scenarioSourceVariant eq_refl eq_refl
           (or_intror (or_introl eq_refl))).
Defined.

(** ** The records of the final database *)

Lemma resolve_inv m targetDb sourceDb finalDb :
  resolve m targetDb sourceDb = Some finalDb ->
  exists metadata e,
    collectMetadata targetDb = Some metadata /\
    collect m targetDb sourceDb = Some e /\
    assemble metadata e = Some finalDb.
Proof.
  unfold resolve. intros H.
  apply bind_Some in H as (metadata & Hmd & H).
  apply bind_Some in H as (e & He & H). eauto.
Qed.

Lemma sortVariants_In l v : In v (sortVariants l) <-> In v l.
Proof.
  split; apply Permutation_in; [| symmetry]; apply sortVariants_perm.
Qed.

Lemma sameDisplayName_In m l v :
  In v (sameDisplayName m l) <-> In v l /\ canonicalDeviceName v = m.
Proof. unfold sameDisplayName. rewrite List.filter_In, String.eqb_eq. tauto. Qed.

(** Every device record of the final database comes from one bucket: it
    is the merge of the records of that bucket with the entry's display
    name, sorted, with [brand] and [device_name] overwritten. *)
Lemma final_entry_inv m targetDb sourceDb finalDb c models k r :
  resolve m targetDb sourceDb = Some finalDb ->
  obj_get finalDb c = Some (Brand models) -> obj_get models k = Some r ->
  exists e id bucket p others,
    collect m targetDb sourceDb = Some e /\
    obj_get (normalizedDeviceMap e) id = Some bucket /\
    sortVariants (sameDisplayName k bucket) = p :: others /\
    r = set_device_name (set_brand (mergeAll (data p) others) (VStr c)) (VStr k) /\
    (forall v, In v bucket -> collected m id v).
Proof.
  intros Hres Hc Hk.
  apply resolve_inv in Hres as (metadata & e & _ & He & Hassemble).
  destruct (single_groups_assemble _ _ _ Hassemble c models k r Hc Hk)
    as (id & bucket & Hbucket & Hr).
  assert (Hname : forall v, In v bucket -> modelNameOf v = canonicalDeviceName v).
  { intros v Hv. apply (named_collect _ _ _ _ He id bucket v);
      [by apply obj_get_In | exact Hv]. }
  rewrite (sameModel_display _ _ Hname) in Hr. unfold modelRecord in Hr.
  destruct (sortVariants (sameDisplayName k bucket)) as [| p others] eqn:Hsort;
    [discriminate |].
  injection Hr as <-. exists e, id, bucket, p, others.
  do 4 (split; [assumption || reflexivity |]).
  intros v Hv. apply (collect_collected _ _ _ _ He id bucket v);
    [by apply obj_get_In | exact Hv].
Qed.

Lemma mergeDevices_defaulted a b : defaulted (mergeDevices a b).
Proof.
  unfold mergeDevices, defaulted.
  destruct (truthy _ && truthy _); simpl; repeat split; apply js_or_is_defaulted.
Qed.

Lemma mergeDevices_same_scalars a b :
  defaulted a -> same_scalars (mergeDevices a b) a.
Proof.
  intros (H1 & H2 & H3 & H4 & H5). unfold mergeDevices, same_scalars.
  destruct (truthy _ && truthy _); simpl;
    rewrite (js_or_defaulted _ _ H1), (js_or_defaulted _ _ H2),
      (js_or_defaulted _ _ H3), (js_or_defaulted _ _ H4), (js_or_defaulted _ _ H5);
    by repeat split.
Qed.

Lemma mergeAll_defaulted p others : defaulted p -> defaulted (mergeAll p others).
Proof.
  unfold mergeAll. revert p. induction others as [| v others IH]; intros p Hp; simpl;
    [exact Hp |].
  apply IH, mergeDevices_defaulted.
Qed.

Lemma mergeAll_same_scalars p others :
  defaulted p -> same_scalars (mergeAll p others) p.
Proof.
  unfold mergeAll. revert p. induction others as [| v others IH]; intros p Hp; simpl.
  - by repeat split.
  - destruct (IH (mergeDevices p (data v)) (mergeDevices_defaulted _ _))
      as (E1 & E2 & E3 & E4 & E5).
    destruct (mergeDevices_same_scalars p (data v) Hp) as (F1 & F2 & F3 & F4 & F5).
    unfold same_scalars. rewrite E1, E2, E3, E4, E5. by repeat split.
Qed.

Lemma mergeAll_pc p others :
  pc p = [] -> (forall v, In v others -> pc (data v) = []) ->
  pc (mergeAll p others) = [].
Proof.
  unfold mergeAll. revert p. induction others as [| v others IH]; intros p Hp Ho; simpl;
    [exact Hp |].
  apply IH; [| intros w Hw; apply Ho; by right].
  rewrite mergeDevices_pc, Hp, (Ho v) by (by left). reflexivity.
Qed.

(** X7. In the final database every device record is stamped with the
    keys it is stored under ([brand] is the brand key, [device_name] the
    device key), carries a defaulted value in every scalar field, and has
    an empty [pc] list: no Program Change parameter ever reaches the
    output. *)
Theorem final_records_stamped
    (m : Mappings) (targetDb sourceDb : JsValue) (finalDb : obj FinalEntry)
    (c k : string) (models : obj DeviceRecord) (r : DeviceRecord) :
  resolve m targetDb sourceDb = Some finalDb ->
  obj_get finalDb c = Some (Brand models) ->
  obj_get models k = Some r ->
  brand r = VStr c /\ device_name r = VStr k /\ defaulted r /\ pc r = [].
Proof.
  intros Hres Hc Hk.
  destruct (final_entry_inv _ _ _ _ _ _ _ _ Hres Hc Hk)
    as (e & id & bucket & p & others & _ & _ & Hsort & -> & Hcollected).
  assert (Hin : forall v, In v (p :: others) -> collected m id v).
  { intros v Hv. apply Hcollected. rewrite <- Hsort in Hv.
    apply sortVariants_In, sameDisplayName_In in Hv. tauto. }
  do 2 (split; [reflexivity |]). split.
  - apply (mergeAll_defaulted (data p) others).
    destruct (Hin p) as (_ & _ & _ & H & _); [by left | exact H].
  - apply (mergeAll_pc (data p) others).
    + destruct (Hin p) as (_ & _ & _ & _ & H); [by left | exact H].
    + intros v Hv. destruct (Hin v) as (_ & _ & _ & _ & H); [by right | exact H].
Qed.

(** A concrete instance of [final_records_stamped]: the scenario. *)
Lemma final_records_stamped_witness :
  brand Samples.scenarioRecord = VStr "BOSS" /\
  device_name Samples.scenarioRecord = VStr "GT-1000" /\
  defaulted Samples.scenarioRecord /\ pc Samples.scenarioRecord = [].
Proof.
  exact (final_records_stamped Scenario.aliases Scenario.targetDb Scenario.sourceDb
           Samples.scenarioFinal "BOSS" "GT-1000" Samples.scenarioModels
           Samples.scenarioRecord eq_refl eq_refl eq_refl).
Defined.

Lemma mergeArray_either {X} (a b : list X) : mergeArray a b = a \/ mergeArray a b = b.
Proof.
  unfold mergeArray. destruct a, b; simpl; auto.
  destruct (_ <=? _)%nat; auto.
Qed.

Section MergeAllLists.
Context {X : Type} (field : DeviceRecord -> list X).
Hypothesis field_merge :
  forall a b, field (mergeDevices a b) = mergeArray (field a) (field b).

Lemma mergeAll_list p others :
  (field (mergeAll p others) = field p \/
   exists v, In v others /\ field (mergeAll p others) = field (data v)) /\
  length (field p) <= length (field (mergeAll p others)) /\
  (forall v, In v others -> length (field (data v)) <= length (field (mergeAll p others))).
Proof.
  unfold mergeAll. revert p. induction others as [| v others IH]; intros p; simpl.
  - split; [by left |]. split; [lia | intros v []].
  - destruct (IH (mergeDevices p (data v))) as (Hfrom & Hp & Ho).
    rewrite field_merge in Hfrom, Hp.
    rewrite mergeArray_length in Hp.
    split; [| split].
    + destruct Hfrom as [E | (w & Hw & E)].
      * rewrite E. destruct (mergeArray_either (field p) (field (data v))) as [-> | ->];
          [by left | right; exists v; split; [by left | reflexivity]].
      * right. exists w. split; [by right | exact E].
    + lia.
    + intros w [<- | Hw]; [lia | by apply Ho].
Qed.
End MergeAllLists.

(** X8. The [cc] list and the [nrpn] list of a device record of the
    final database are each taken whole from one of the collected records
    with that display name in one bucket, and no such record of the bucket
    has a longer list. *)
Theorem final_record_has_longest_lists
    (m : Mappings) (targetDb sourceDb : JsValue) (finalDb : obj FinalEntry)
    (c k : string) (models : obj DeviceRecord) (r : DeviceRecord) :
  resolve m targetDb sourceDb = Some finalDb ->
  obj_get finalDb c = Some (Brand models) ->
  obj_get models k = Some r ->
  exists e deviceId deviceVariants,
    collect m targetDb sourceDb = Some e /\
    obj_get (normalizedDeviceMap e) deviceId = Some deviceVariants /\
    (exists v, In v deviceVariants /\ canonicalDeviceName v = k /\
               cc r = cc (data v)) /\
    (exists v, In v deviceVariants /\ canonicalDeviceName v = k /\
               nrpn r = nrpn (data v)) /\
    (forall w, In w deviceVariants -> canonicalDeviceName w = k ->
       length (cc (data w)) <= length (cc r) /\
       length (nrpn (data w)) <= length (nrpn r)).
Proof.
  intros Hres Hc Hk.
  destruct (final_entry_inv _ _ _ _ _ _ _ _ Hres Hc Hk)
    as (e & id & bucket & p & others & He & Hbucket & Hsort & -> & _).
  assert (Hin : forall v, In v (p :: others) <-> In v bucket /\ canonicalDeviceName v = k).
  { intros v. rewrite <- Hsort, sortVariants_In. apply sameDisplayName_In. }
  exists e, id, bucket. do 2 (split; [assumption |]). simpl.
  destruct (mergeAll_list cc mergeDevices_cc (data p) others) as (Hcc & Hpcc & Hocc).
  destruct (mergeAll_list nrpn mergeDevices_nrpn (data p) others) as (Hn & Hpn & Hon).
  split; [| split].
  - destruct Hcc as [E | (v & Hv & E)].
    + exists p. destruct (proj1 (Hin p)) as [? ?]; [by left | by repeat split].
    + exists v. destruct (proj1 (Hin v)) as [? ?]; [by right | by repeat split].
  - destruct Hn as [E | (v & Hv & E)].
    + exists p. destruct (proj1 (Hin p)) as [? ?]; [by left | by repeat split].
    + exists v. destruct (proj1 (Hin v)) as [? ?]; [by right | by repeat split].
  - intros w Hw Hname. destruct (proj2 (Hin w)) as [<- | Hw']; [tauto | tauto |].
    split; [by apply Hocc | by apply Hon].
Qed.

(** A concrete instance of [final_record_has_longest_lists]: the scenario. *)
Lemma final_record_has_longest_lists_witness :
  exists v, canonicalDeviceName v = "GT-1000" /\
            cc Samples.scenarioRecord = cc (data v).
Proof.
  destruct (final_record_has_longest_lists Scenario.aliases Scenario.targetDb
              Scenario.sourceDb Samples.scenarioFinal "BOSS" "GT-1000"
              Samples.scenarioModels Samples.scenarioRecord eq_refl eq_refl eq_refl)
    as (e & id & bucket & _ & _ & (v & _ & Hname & Hcc) & _).
  exists v. by split.
Defined.

Lemma sortVariants_head l p others :
  sortVariants l = p :: others ->
  exists before after,
    l = before ++ p :: after /\
    (forall v, In v before -> paramCount v < paramCount p) /\
    (forall v, In v after -> paramCount v <= paramCount p).
Proof.
  revert p others. induction l as [| v l IH]; intros p others; [discriminate |].
  cbn [sortVariants foldr]. fold (sortVariants l).
  pose proof (sortVariants_perm l) as Hperm.
  pose proof (sortVariants_descending l) as Hdesc.
  destruct (sortVariants l) as [| w rest] eqn:Hs; cbn [insertVariant].
  - intros [= <- <-]. apply Permutation_nil in Hperm as ->.
    exists [], []. split; [reflexivity |]. split; intros ? [].
  - destruct (Nat.leb_spec (paramCount w) (paramCount v)) as [Hle | Hlt].
    + intros [= <- <-]. exists [], l. split; [reflexivity |]. split; [intros ? [] |].
      intros x Hx. apply (Permutation_in _ (Permutation_sym Hperm)) in Hx.
      apply StronglySorted_inv in Hdesc as [_ Hall].
      destruct Hx as [<- | Hx]; [exact Hle |].
      rewrite List.Forall_forall in Hall. specialize (Hall x Hx). simpl in Hall. lia.
    + intros [= <- <-].
      destruct (IH w rest eq_refl) as (before & after & -> & Hbefore & Hafter).
      exists (v :: before), after. split; [reflexivity |]. split; [| exact Hafter].
      intros x [<- | Hx]; [exact Hlt | by apply Hbefore].
Qed.

(** X9. The scalar fields of a device record of the final database
    ([midi_thru], [midi_in], [midi_clock], [phantom_power], [instructions])
    are those of one collected record, the seed of the merge: among the
    records of the bucket with the entry's display name, in the order they
    were collected, the first one with the greatest number of parameters.
    An earlier record has strictly fewer parameters, a later one at most
    as many. *)
Theorem final_scalars_from_seed
    (m : Mappings) (targetDb sourceDb : JsValue) (finalDb : obj FinalEntry)
    (c k : string) (models : obj DeviceRecord) (r : DeviceRecord) :
  resolve m targetDb sourceDb = Some finalDb ->
  obj_get finalDb c = Some (Brand models) ->
  obj_get models k = Some r ->
  exists e deviceId deviceVariants before seed after,
    collect m targetDb sourceDb = Some e /\
    obj_get (normalizedDeviceMap e) deviceId = Some deviceVariants /\
    sameDisplayName k deviceVariants = before ++ seed :: after /\
    (forall v, In v before -> paramCount v < paramCount seed) /\
    (forall v, In v after -> paramCount v <= paramCount seed) /\
    same_scalars r (data seed).
Proof.
  intros Hres Hc Hk.
  destruct (final_entry_inv _ _ _ _ _ _ _ _ Hres Hc Hk)
    as (e & id & bucket & p & others & He & Hbucket & Hsort & -> & Hcollected).
  destruct (sortVariants_head _ _ _ Hsort) as (before & after & Hsplit & Hbefore & Hafter).
  exists e, id, bucket, before, p, after.
  do 5 (split; [assumption |]).
  assert (Hp : In p bucket).
  { apply (proj1 (sameDisplayName_In k bucket p)). rewrite Hsplit.
    apply in_or_app. right. by left. }
  destruct (Hcollected p Hp) as (_ & _ & _ & Hdef & _).
  exact (mergeAll_same_scalars (data p) others Hdef).
Qed.

(** A concrete instance of [final_scalars_from_seed]: the scenario. *)
Lemma final_scalars_from_seed_witness :
  exists seed, canonicalDeviceName seed = "GT-1000" /\
               same_scalars Samples.scenarioRecord (data seed).
Proof.
  destruct (final_scalars_from_seed Scenario.aliases Scenario.targetDb
              Scenario.sourceDb Samples.scenarioFinal "BOSS" "GT-1000"
              Samples.scenarioModels Samples.scenarioRecord eq_refl eq_refl eq_refl)
    as (e & id & bucket & before & seed & after & _ & _ & Hsplit & _ & _ & Hsame).
  exists seed. split; [| exact Hsame].
  apply (proj1 (sameDisplayName_In "GT-1000" bucket seed)). rewrite Hsplit.
  apply in_or_app. right. by left.
Defined.

(** ** When the merge throws *)

Lemma forEachM_is_Some {A S} (f : S -> A -> option S) (ok : A -> bool) l s :
  (forall s x, In x l -> is_Some (f s x) <-> ok x = true) ->
  is_Some (forEachM f l s) <-> forallb ok l = true.
Proof.
  revert s. induction l as [| x l IH]; intros s H; simpl; [split; eauto |].
  rewrite andb_true_iff. pose proof (H s x (or_introl eq_refl)) as Hx.
  destruct (f s x) as [s1 |].
  - rewrite (IH s1) by (intros; apply H; by right).
    split; [intros Hl; split; [apply Hx; eauto | exact Hl] | tauto].
  - split; [intros [? [=]] |]. intros [Hok _]. apply Hx in Hok. by destruct Hok.
Qed.

Lemma normalizePc_inv deviceData deviceData' :
  normalizePc deviceData = Some deviceData' ->
  is_nullish deviceData = false /\ standardizable deviceData' = standardizable deviceData.
Proof.
  unfold normalizePc. intros H. apply bind_Some in H as (d_pc & Hpc & H).
  assert (Hnull : is_nullish deviceData = false).
  { destruct (is_nullish deviceData) eqn:E; [| reflexivity].
    apply (js_get_None deviceData "pc") in E. congruence. }
  split; [exact Hnull |].
  destruct (truthy d_pc && negb (isArray d_pc)); [| by injection H as <-].
  destruct deviceData as [| | | | | | | props]; try (by injection H as <-).
  injection H as <-. unfold standardizable, js_get_opt. simpl.
  by rewrite !obj_get_set_ne.
Qed.

Lemma normalizePc_is_Some deviceData :
  is_Some (normalizePc deviceData) <-> is_nullish deviceData = false.
Proof.
  split.
  - intros [d' H]. by apply normalizePc_inv in H as [? _].
  - intros H. unfold normalizePc. rewrite (js_get_not_nullish _ _ H). simpl.
    destruct (truthy _ && negb _); [destruct deviceData |]; eauto.
Qed.

Lemma targetDevice_is_Some m bk nb cb e entry :
  is_Some (targetDevice m bk nb cb e entry) <-> standardizable entry.2 = true.
Proof.
  destruct entry as [dk d]. unfold targetDevice. simpl.
  destruct (is_nullish d) eqn:Hnull.
  - rewrite (proj2 (js_get_None d "brand") Hnull). simpl.
    unfold standardizable. rewrite Hnull. simpl. split; [intros [? [=]] | discriminate].
  - rewrite !(js_get_not_nullish d) by assumption. simpl.
    rewrite <- (createStandardDevice_is_Some d
                  (js_or (js_get_opt d "brand") (VStr cb))
                  (js_or (js_get_opt d "device_name")
                     (VStr (getModelDisplayName m nb
                              (normalized (normalizeAndMapKey dk (deviceMapping m) None)))))).
    destruct (createStandardDevice _ _ _); simpl; split; eauto; intros [? [=]].
Qed.

Lemma sourceDevice_is_Some m bk nb cb e entry :
  is_Some (sourceDevice m bk nb cb e entry) <-> standardizable entry.2 = true.
Proof.
  destruct entry as [dk d]. unfold sourceDevice. simpl.
  destruct (normalizePc d) as [d' |] eqn:Hpc; simpl.
  - apply normalizePc_inv in Hpc as [_ <-].
    rewrite <- (createStandardDevice_is_Some d' (VStr cb)
                  (VStr (getModelDisplayName m nb
                           (normalized (normalizeAndMapKey dk (deviceMapping m) None))))).
    destruct (createStandardDevice _ _ _); simpl; split; eauto; intros [? [=]].
  - split; [intros [? [=]] |]. intros H.
    assert (Hnull : is_nullish d = false).
    { unfold standardizable in H. by destruct (is_nullish d). }
    apply normalizePc_is_Some in Hnull. rewrite Hpc in Hnull. by destruct Hnull.
Qed.

Lemma targetBrand_is_Some m e entry :
  is_Some (targetBrand m e entry)
  <-> includes reservedKeys entry.1 || devices_ok entry.2 = true.
Proof.
  destruct entry as [bk b]. unfold targetBrand, devices_ok. cbn [fst snd].
  destruct (includes reservedKeys bk); [split; eauto |]. cbn [orb].
  destruct (js_entries b) as [entries |]; simpl; [| split; [intros [? [=]] | discriminate]].
  apply forEachM_is_Some. intros; apply targetDevice_is_Some.
Qed.

Lemma sourceBrand_is_Some m e entry :
  is_Some (sourceBrand m e entry) <-> devices_ok entry.2 = true.
Proof.
  destruct entry as [bk b]. unfold sourceBrand, devices_ok. cbn [fst snd].
  destruct (js_entries b) as [entries |]; simpl; [| split; [intros [? [=]] | discriminate]].
  apply forEachM_is_Some. intros; apply sourceDevice_is_Some.
Qed.

Lemma collect_is_Some m targetDb sourceDb :
  is_Some (collect m targetDb sourceDb) <-> collectable targetDb sourceDb = true.
Proof.
  unfold collect, collectable.
  destruct (js_entries targetDb) as [targetEntries |]; cbn [mbind option_bind];
    [| split; [intros [? [=]] | discriminate]].
  pose proof (forEachM_is_Some (targetBrand m)
                (fun entry => includes reservedKeys entry.1 || devices_ok entry.2)
                targetEntries emptyEngine
                (fun s x _ => targetBrand_is_Some m s x)) as Htarget.
  destruct (forEachM (targetBrand m) targetEntries emptyEngine) as [e |]; cbn [mbind option_bind].
  - rewrite (proj1 Htarget) by eauto.
    destruct (js_entries sourceDb) as [sourceEntries |]; cbn [mbind option_bind];
      [| split; [intros [? [=]] | discriminate]].
    apply forEachM_is_Some. intros; apply sourceBrand_is_Some.
  - split; [intros [? [=]] |]. intros H.
    destruct (js_entries sourceDb); [| discriminate].
    apply andb_true_iff in H as [H _]. apply Htarget in H. by destruct H.
Qed.

(** X10. The merge reaches the final database only if the two parsed
    databases are objects (or other values with entries) whose brands,
    the reserved keys of the target database apart, are objects whose
    every device is accepted by [createStandardDevice]: one device that is
    not accepted, anywhere in either database, makes the script throw
    before it writes. *)
Theorem resolve_only_if_collectable (m : Mappings) (targetDb sourceDb : JsValue)
    (finalDb : obj FinalEntry) :
  resolve m targetDb sourceDb = Some finalDb ->
  collectable targetDb sourceDb = true.
Proof.
  intros H. apply resolve_inv in H as (_ & e & _ & He & _).
  apply (collect_is_Some m). eauto.
Qed.

(** A concrete instance of [resolve_only_if_collectable]: the scenario. *)
Lemma resolve_only_if_collectable_witness :
  collectable Scenario.targetDb Scenario.sourceDb = true.
Proof.
  exact (resolve_only_if_collectable Scenario.aliases Scenario.targetDb
           Scenario.sourceDb Samples.scenarioFinal eq_refl).
Defined.

(** ** Keys that differ in case *)

Lemma lower_char_idempotent c : Str.lower_char (Str.lower_char c) = Str.lower_char c.
Proof.
  unfold Str.lower_char at 1. by rewrite lower_char_not_upper.
Qed.

Lemma toLowerCase_idempotent s : Str.toLowerCase (Str.toLowerCase s) = Str.toLowerCase s.
Proof.
  induction s as [| c s IH]; simpl; [reflexivity |].
  by rewrite lower_char_idempotent, IH.
Qed.

Lemma normalizeAndMapKey_lowercase key table dn :
  truthy_entry table key = None ->
  normalized (normalizeAndMapKey key table dn) =
  normalized (normalizeAndMapKey (Str.toLowerCase key) table dn).
Proof.
  intros Hkey. unfold normalizeAndMapKey. rewrite Hkey, toLowerCase_idempotent.
  destruct (truthy_entry table (Str.toLowerCase key)); [reflexivity |].
  simpl. unfold Str.normalize_id. by rewrite toLowerCase_idempotent.
Qed.

(** X11. Two plain raw keys (ASCII strings that name no member of
    [Object.prototype], as they are or lower-cased) that differ only in
    the case of their letters get the same normalized id, for any alias
    table and display-name table, as long as neither key has an alias
    entry of its own spelling (an exact entry is looked up before the
    lower-cased one and may send the two spellings to different ids). *)
Theorem normalized_ignores_case (key1 key2 : string) (table : gmap string string)
    (displayNames : option (gmap string string)) :
  plain_key key1 = true ->
  plain_key key2 = true ->
  Str.toLowerCase key1 = Str.toLowerCase key2 ->
  truthy_entry table key1 = None ->
  truthy_entry table key2 = None ->
  normalized (normalizeAndMapKey key1 table displayNames) =
  normalized (normalizeAndMapKey key2 table displayNames).
Proof.
  intros _ _ Hcase H1 H2.
  rewrite (normalizeAndMapKey_lowercase key1), (normalizeAndMapKey_lowercase key2)
    by assumption.
  by rewrite Hcase.
Qed.

(** A concrete instance of [normalized_ignores_case]: two spellings of a
    brand with the alias tables of the scenario. *)
Lemma normalized_ignores_case_witness :
  normalized (normalizeAndMapKey "Roland" (manufacturerMapping Scenario.aliases)
                (Some (brandDisplayNames Scenario.aliases))) =
  normalized (normalizeAndMapKey "ROLAND" (manufacturerMapping Scenario.aliases)
                (Some (brandDisplayNames Scenario.aliases))).
Proof.
  exact (normalized_ignores_case "Roland" "ROLAND"
           (manufacturerMapping Scenario.aliases)
           (Some (brandDisplayNames Scenario.aliases))
           eq_refl eq_refl eq_refl eq_refl eq_refl).
Defined.

(** ** Where the manufacturers come from *)

Lemma brandKeysOf_target targetDb sourceDb targetEntries bk b :
  js_entries targetDb = Some targetEntries ->
  In (bk, b) targetEntries -> includes reservedKeys bk = false ->
  In (bk, b) (brandEntriesOf targetDb sourceDb).
Proof.
  intros Ht Hin Hres. unfold brandEntriesOf. rewrite Ht.
  apply in_or_app. left. apply List.filter_In. split; [exact Hin |].
  cbn [fst]. by rewrite Hres.
Qed.

Lemma brandKeysOf_source targetDb sourceDb sourceEntries bk b :
  js_entries sourceDb = Some sourceEntries ->
  In (bk, b) sourceEntries ->
  In (bk, b) (brandEntriesOf targetDb sourceDb).
Proof.
  intros Hs Hin. unfold brandEntriesOf. rewrite Hs.
  apply in_or_app. by right.
Qed.

Lemma brandEntriesOf_key targetDb sourceDb bk b :
  In (bk, b) (brandEntriesOf targetDb sourceDb) -> In bk (brandKeysOf targetDb sourceDb).
Proof. intros H. unfold brandKeysOf. change bk with (fst (bk, b)). by apply in_map. Qed.

(** An invariant of the two loops: it holds of the empty tables, is kept
    when a brand is registered and when a variant is pushed for a brand
    that has been registered. *)
Lemma collect_preserves (P : Engine -> Prop) m targetDb sourceDb e :
  P emptyEngine ->
  (forall e bk man',
     In bk (brandKeysOf targetDb sourceDb) -> P e -> registers m e bk man' ->
     P {| manufacturers := obj_set (manufacturers e) (normalizedBrandOf m bk) man';
          normalizedDeviceMap := normalizedDeviceMap e |}) ->
  (forall e bk dk v,
     P e -> is_Some (obj_get (manufacturers e) (normalizedBrandOf m bk)) ->
     brandKey v = bk -> deviceKey v = dk ->
     P (pushVariant e (normalizedBrandOf m bk) (normalizedDeviceOf m dk)
          (deviceIdOf m bk dk) v)) ->
  collect m targetDb sourceDb = Some e -> P e.
Proof.
  intros Hempty Hreg Hpush. unfold collect. intros H.
  apply bind_Some in H as (targetEntries & Ht & H).
  apply bind_Some in H as (e1 & Htarget & H).
  apply bind_Some in H as (sourceEntries & Hs & Hsource).
  assert (Hkept : forall e0 nb nd id v,
            is_Some (obj_get (manufacturers e0) nb) ->
            is_Some (obj_get (manufacturers (pushVariant e0 nb nd id v)) nb)).
  { intros e0 nb nd id v [man Hman]. unfold pushVariant. simpl. rewrite Hman.
    rewrite obj_get_set_eq. eauto. }
  assert (H1 : P e1).
  { revert Htarget. apply forEachM_preserves; [exact Hempty |].
    intros e0 [bk b] e0' Hin H0. unfold targetBrand.
    destruct (includes reservedKeys bk) eqn:Hres; [by intros [= <-] |].
    intros Hrun. apply bind_Some in Hrun as (entries & _ & Hloop).
    assert (Hk : In bk (brandKeysOf targetDb sourceDb)).
    { apply (brandEntriesOf_key _ _ bk b).
      by apply (brandKeysOf_target _ _ targetEntries). }
    apply (forEachM_preserves _ _
             (fun e => P e /\ is_Some (obj_get (manufacturers e) (normalizedBrandOf m bk))))
      in Hloop; [tauto | |].
    - fold (normalizedBrandOf m bk). simpl.
      destruct (obj_get (manufacturers e0) (normalizedBrandOf m bk)) as [man |] eqn:E;
        (split; [| rewrite obj_get_set_eq; eauto]);
        apply Hreg; try assumption; unfold registers; rewrite E; by split.
    - intros e2 [dk d] e3 _ [H2 Hman] Hstep. unfold targetDevice in Hstep.
      apply bind_Some in Hstep as (? & _ & Hstep).
      apply bind_Some in Hstep as (? & _ & Hstep).
      apply bind_Some in Hstep as (r & _ & [= <-]).
      split; [by apply (Hpush e2 bk dk) | by apply Hkept]. }
  revert Hsource. apply forEachM_preserves; [exact H1 |].
  intros e0 [bk b] e0' Hin H0. unfold sourceBrand.
  intros Hrun. apply bind_Some in Hrun as (entries & _ & Hloop).
  assert (Hk : In bk (brandKeysOf targetDb sourceDb)).
  { apply (brandEntriesOf_key _ _ bk b). by apply (brandKeysOf_source _ _ sourceEntries). }
  apply (forEachM_preserves _ _
           (fun e => P e /\ is_Some (obj_get (manufacturers e) (normalizedBrandOf m bk))))
    in Hloop; [tauto | |].
  - fold (normalizedBrandOf m bk). simpl.
    destruct (obj_get (manufacturers e0) (normalizedBrandOf m bk)) as [man |] eqn:E;
      [destruct (includes (variants man) bk) |].
    + split; [by destruct e0 | rewrite E; eauto].
    + split; [| rewrite obj_get_set_eq; eauto].
      apply Hreg; try assumption; unfold registers; rewrite E; by split.
    + split; [| rewrite obj_get_set_eq; eauto].
      apply Hreg; try assumption; unfold registers; rewrite E; by split.
  - intros e2 [dk d] e3 _ [H2 Hman] Hstep. unfold sourceDevice in Hstep.
    apply bind_Some in Hstep as (? & _ & Hstep).
    apply bind_Some in Hstep as (r & _ & [= <-]).
    split; [by apply (Hpush e2 bk dk) | by apply Hkept].
Qed.

Lemma brands_from_collect m targetDb sourceDb e :
  collect m targetDb sourceDb = Some e ->
  brands_from m (brandKeysOf targetDb sourceDb) e.
Proof.
  apply collect_preserves.
  - split; [constructor | intros nb man []].
  - intros e0 bk man' Hk [Hnd H0] Hreg. split; simpl; [by apply obj_set_NoDup |].
    intros nb man Hin. apply obj_set_In in Hin as [[-> ->] | Hin]; [| by apply H0].
    unfold registers in Hreg.
    destruct (obj_get (manufacturers e0) (normalizedBrandOf m bk)) as [man |] eqn:E.
    + destruct (H0 _ _ (obj_get_In _ _ _ E)) as (bk0 & Hk0 & Hnb & Hname).
      exists bk0. destruct Hreg as [-> _]. by repeat split.
    + exists bk. destruct Hreg as [-> _]. by repeat split.
  - intros e0 bk dk v [Hnd H0] [man Hman] _ _. unfold pushVariant. simpl. rewrite Hman.
    split; [by apply obj_set_NoDup |].
    intros nb man0 Hin. apply obj_set_In in Hin as [[-> ->] | Hin]; [| by apply H0].
    simpl. apply (H0 _ _ (obj_get_In _ _ _ Hman)).
Qed.

Lemma obj_get_map {V W} (f : V -> W) (o : obj V) k :
  obj_get (map (fun kv => (fst kv, f (snd kv))) o) k = f <$> obj_get o k.
Proof.
  induction o as [| [k' v'] o IH]; simpl; [reflexivity |].
  destruct (String.eqb k' k); [reflexivity | exact IH].
Qed.

(** X12. When no brand key of either database has a reserved key as its
    display name, the final database carries [version] and [generatedAt]
    exactly as the target database defines them: the value of the target
    database when it has the property, no property otherwise. *)
Theorem metadata_is_kept
    (m : Mappings) (props : list (string * JsValue)) (sourceDb : JsValue)
    (finalDb : obj FinalEntry) (key : string) :
  resolve m (VObj props) sourceDb = Some finalDb ->
  In key reservedKeys ->
  (forall bk, In bk (brandKeysOf (VObj props) sourceDb) -> canonicalBrandOf m bk <> key) ->
  obj_get finalDb key =
  match obj_get props key with
  | Some VUndefined | None => None
  | Some v => Some (Metadata v)
  end.
Proof.
  intros Hres Hkey Hnames.
  apply resolve_inv in Hres as (metadata & e & Hmd & He & Hassemble).
  unfold assemble in Hassemble.
  rewrite (assemble_loop_frame _ _ _ _ key) with (2 := Hassemble).
  - rewrite obj_get_map, (collectMetadata_get _ _ _ Hmd Hkey).
    destruct (obj_get props key) as [[] |]; reflexivity.
  - intros nb man Hin. apply (proj1 (obj_entries_In _ _)) in Hin.
    destruct (brands_from_collect _ _ _ _ He) as [_ Hfrom].
    destruct (Hfrom nb man Hin) as (bk & Hk & _ & ->). by apply Hnames.
Qed.

(** A concrete instance of [metadata_is_kept]: the scenario with a
    [version] in its target database. *)
Lemma metadata_is_kept_witness :
  obj_get Samples.stampedFinal "version" = Some (Metadata (VStr "1.0.0")).
Proof.
  apply (metadata_is_kept Scenario.aliases Samples.stampedProps Scenario.sourceDb
           Samples.stampedFinal "version").
  - reflexivity.
  - by left.
  - intros bk Hbk. vm_compute in Hbk.
    destruct Hbk as [<- | [<- | []]]; vm_compute; discriminate.
Defined.

(** ** No device is dropped *)

Lemma forEachM_reaches {A S} (f : S -> A -> option S) l (P : S -> Prop) x s s' :
  In x l ->
  (forall s s', f s x = Some s' -> P s') ->
  (forall s y s', In y l -> P s -> f s y = Some s' -> P s') ->
  forEachM f l s = Some s' -> P s'.
Proof.
  revert s. induction l as [| a l IH]; intros s Hx Hnew Hkeep; [destruct Hx |].
  cbn [forEachM]. destruct (f s a) as [s1 |] eqn:Hstep; [| discriminate].
  destruct Hx as [-> | Hx].
  - apply forEachM_preserves; [by apply (Hnew s) |].
    intros s2 y s3 Hy. apply Hkeep. by right.
  - apply IH; [exact Hx | exact Hnew |].
    intros s2 y s3 Hy. apply Hkeep. by right.
Qed.

(** [createStandardDevice] never reads [pc]: the special handling of [pc]
    in the source loop does not change the standardized record. *)
Lemma createStandardDevice_normalizePc deviceData deviceData' brandName deviceName :
  normalizePc deviceData = Some deviceData' ->
  createStandardDevice deviceData' brandName deviceName =
  createStandardDevice deviceData brandName deviceName.
Proof.
  unfold normalizePc. intros H. apply bind_Some in H as (d_pc & _ & H).
  destruct (truthy d_pc && negb (isArray d_pc)); [| by injection H as <-].
  destruct deviceData as [| | | | | | | props]; try (by injection H as <-).
  injection H as <-. unfold createStandardDevice. simpl.
  by rewrite !obj_get_set_ne.
Qed.

Lemma stored_pushVariant m e nb nd id v0 bk dk d :
  stored m e bk dk d -> stored m (pushVariant e nb nd id v0) bk dk d.
Proof.
  intros (bucket & v & b & n & Hget & Hin & Hbk & Hdk & Hd).
  unfold stored, pushVariant. simpl.
  destruct (String.eqb_spec id (deviceIdOf m bk dk)) as [-> | Hne].
  - exists (bucket ++ [v0]), v, b, n. rewrite obj_get_set_eq, Hget. simpl.
    split; [reflexivity |]. split; [apply in_or_app; by left | by repeat split].
  - exists bucket, v, b, n. rewrite obj_get_set_ne by exact Hne. by repeat split.
Qed.

Lemma stored_new m e nb nd bk dk d v0 b n :
  brandKey v0 = bk -> deviceKey v0 = dk ->
  createStandardDevice d b n = Some (data v0) ->
  stored m (pushVariant e nb nd (deviceIdOf m bk dk) v0) bk dk d.
Proof.
  intros Hbk Hdk Hd. unfold stored, pushVariant. simpl.
  exists (default [] (obj_get (normalizedDeviceMap e) (deviceIdOf m bk dk)) ++ [v0]),
    v0, b, n.
  rewrite obj_get_set_eq. split; [reflexivity |].
  split; [apply in_or_app; right; by left | by repeat split].
Qed.

Lemma stored_targetDevice m bk0 nb cb e e' entry bk dk d :
  targetDevice m bk0 nb cb e entry = Some e' ->
  stored m e bk dk d -> stored m e' bk dk d.
Proof.
  destruct entry as [dk0 d0]. unfold targetDevice. intros Hstep.
  apply bind_Some in Hstep as (? & _ & Hstep).
  apply bind_Some in Hstep as (? & _ & Hstep).
  apply bind_Some in Hstep as (r & _ & [= <-]).
  apply stored_pushVariant.
Qed.

Lemma stored_sourceDevice m bk0 nb cb e e' entry bk dk d :
  sourceDevice m bk0 nb cb e entry = Some e' ->
  stored m e bk dk d -> stored m e' bk dk d.
Proof.
  destruct entry as [dk0 d0]. unfold sourceDevice. intros Hstep.
  apply bind_Some in Hstep as (? & _ & Hstep).
  apply bind_Some in Hstep as (r & _ & [= <-]).
  apply stored_pushVariant.
Qed.

Lemma stored_targetBrand m e e' entry bk dk d :
  targetBrand m e entry = Some e' -> stored m e bk dk d -> stored m e' bk dk d.
Proof.
  destruct entry as [bk0 b0]. unfold targetBrand.
  destruct (includes reservedKeys bk0); [by intros [= <-] |].
  intros Hrun Hs. apply bind_Some in Hrun as (entries & _ & Hloop).
  revert Hloop. apply (forEachM_preserves _ _ (fun e => stored m e bk dk d)); [exact Hs |].
  intros e1 y e2 _ H1 Hstep. eapply stored_targetDevice; eassumption.
Qed.

Lemma stored_sourceBrand m e e' entry bk dk d :
  sourceBrand m e entry = Some e' -> stored m e bk dk d -> stored m e' bk dk d.
Proof.
  destruct entry as [bk0 b0]. unfold sourceBrand.
  intros Hrun Hs. apply bind_Some in Hrun as (entries & _ & Hloop).
  revert Hloop. apply (forEachM_preserves _ _ (fun e => stored m e bk dk d)); [exact Hs |].
  intros e1 y e2 _ H1 Hstep. eapply stored_sourceDevice; eassumption.
Qed.

Lemma stored_by_targetBrand m e e' bk b entries dk d :
  targetBrand m e (bk, b) = Some e' -> includes reservedKeys bk = false ->
  js_entries b = Some entries -> In (dk, d) entries ->
  stored m e' bk dk d.
Proof.
  unfold targetBrand. intros Hrun Hres Hentries Hin. rewrite Hres, Hentries in Hrun.
  simpl in Hrun. revert Hrun. apply (forEachM_reaches _ _ (fun e => stored m e bk dk d) (dk, d)); [exact Hin | |].
  - intros e1 e2 Hstep. unfold targetDevice in Hstep.
    apply bind_Some in Hstep as (? & _ & Hstep).
    apply bind_Some in Hstep as (? & _ & Hstep).
    apply bind_Some in Hstep as (r & Hr & [= <-]).
    eapply stored_new; [reflexivity | reflexivity | exact Hr].
  - intros e1 y e2 _ H1 Hstep. eapply stored_targetDevice; eassumption.
Qed.

Lemma stored_by_sourceBrand m e e' bk b entries dk d :
  sourceBrand m e (bk, b) = Some e' ->
  js_entries b = Some entries -> In (dk, d) entries ->
  stored m e' bk dk d.
Proof.
  unfold sourceBrand. intros Hrun Hentries Hin. rewrite Hentries in Hrun.
  simpl in Hrun. revert Hrun. apply (forEachM_reaches _ _ (fun e => stored m e bk dk d) (dk, d)); [exact Hin | |].
  - intros e1 e2 Hstep. unfold sourceDevice in Hstep.
    apply bind_Some in Hstep as (d' & Hpc & Hstep).
    apply bind_Some in Hstep as (r & Hr & [= <-]).
    rewrite (createStandardDevice_normalizePc _ _ _ _ Hpc) in Hr.
    eapply stored_new; [reflexivity | reflexivity | exact Hr].
  - intros e1 y e2 _ H1 Hstep. eapply stored_sourceDevice; eassumption.
Qed.

Lemma stored_collect m targetDb sourceDb e bk dk d :
  collect m targetDb sourceDb = Some e ->
  rawDevice targetDb sourceDb bk dk d -> stored m e bk dk d.
Proof.
  unfold collect. intros H (b & entries & Hb & Hentries & Hin).
  apply bind_Some in H as (targetEntries & Ht & H).
  apply bind_Some in H as (e1 & Htarget & H).
  apply bind_Some in H as (sourceEntries & Hs & Hsource).
  unfold brandEntriesOf in Hb. rewrite Ht, Hs in Hb. simpl in Hb.
  apply in_app_or in Hb as [Hb | Hb].
  - apply List.filter_In in Hb as [Hb Hres]. cbn [fst] in Hres.
    apply negb_true_iff in Hres.
    revert Hsource. apply (forEachM_preserves _ _ (fun e => stored m e bk dk d)).
    + revert Htarget. apply (forEachM_reaches _ _ (fun e => stored m e bk dk d) (bk, b)); [exact Hb | |].
      * intros e0 e0' Hstep.
        eapply stored_by_targetBrand; eassumption.
      * intros e0 y e0' _ H0 Hstep. eapply stored_targetBrand; eassumption.
    + intros e0 y e0' _ H0 Hstep. eapply stored_sourceBrand; eassumption.
  - revert Hsource. apply (forEachM_reaches _ _ (fun e => stored m e bk dk d) (bk, b)); [exact Hb | |].
    + intros e0 e0' Hstep. eapply stored_by_sourceBrand; eassumption.
    + intros e0 y e0' _ H0 Hstep. eapply stored_sourceBrand; eassumption.
Qed.

(** X13. The two loops drop no device: every device of every brand of the
    source database, and of every brand of the target database but the
    reserved keys, has its variant in the bucket of its two normalized
    keys, and the variant's record is the standardized raw device (for a
    source device as well: the special handling of [pc] changes nothing
    in it). *)
Theorem every_device_is_collected
    (m : Mappings) (targetDb sourceDb : JsValue) (e : Engine)
    (bk dk : string) (deviceData : JsValue) :
  collect m targetDb sourceDb = Some e ->
  rawDevice targetDb sourceDb bk dk deviceData ->
  exists deviceVariants v brandName deviceName,
    obj_get (normalizedDeviceMap e) (deviceIdOf m bk dk) = Some deviceVariants /\
    In v deviceVariants /\ brandKey v = bk /\ deviceKey v = dk /\
    createStandardDevice deviceData brandName deviceName = Some (data v).
Proof. apply stored_collect. Qed.

(** A concrete instance of [every_device_is_collected]: the source device
    of the scenario. *)
Lemma every_device_is_collected_witness :
  exists deviceVariants v brandName deviceName,
    obj_get (normalizedDeviceMap Samples.scenarioEngine) "boss_gt-1000"
      = Some deviceVariants /\
    In v deviceVariants /\ brandKey v = "roland" /\ deviceKey v = "gt1000" /\
    createStandardDevice Scenario.sourceDevice brandName deviceName = Some (data v).
Proof.
  apply (every_device_is_collected Scenario.aliases Scenario.targetDb Scenario.sourceDb
           Samples.scenarioEngine "roland" "gt1000" Scenario.sourceDevice).
  - reflexivity.
  - exists (VObj [("gt1000", Scenario.sourceDevice)]), [("gt1000", Scenario.sourceDevice)].
    split; [right; left; reflexivity |]. split; [reflexivity | left; reflexivity].
Defined.

Lemma devices_registered_collect m targetDb sourceDb e :
  collect m targetDb sourceDb = Some e -> devices_registered m e.
Proof.
  apply collect_preserves.
  - intros id bucket v [].
  - intros e0 bk man' _ H0 Hreg id bucket v Hin Hv. simpl in Hin.
    destruct (H0 id bucket v Hin Hv) as (Hid & man & Hman & Hdev).
    split; [exact Hid |]. simpl.
    destruct (String.eqb_spec (normalizedBrandOf m bk) (normalizedBrandOf m (brandKey v)))
      as [Heq | Hne].
    + exists man'. rewrite Heq, obj_get_set_eq. split; [reflexivity |].
      unfold registers in Hreg. rewrite Heq, Hman in Hreg. destruct Hreg as [_ ->].
      exact Hdev.
    + exists man. by rewrite obj_get_set_ne.
  - intros e0 bk dk v0 H0 [man0 Hman0] Hbk Hdk id bucket v Hin Hv.
    unfold pushVariant in *. simpl in *. rewrite Hman0.
    assert (Hold : forall id' bucket', In (id', bucket') (normalizedDeviceMap e0) ->
              In v bucket' ->
              id' = deviceIdOf m (brandKey v) (deviceKey v) /\
              exists man,
                obj_get
                  (obj_set (manufacturers e0) (normalizedBrandOf m bk)
                     {| variants := variants man0; canonicalName := canonicalName man0;
                        devices := obj_set (devices man0) (normalizedDeviceOf m dk)
                                     (deviceIdOf m bk dk) |})
                  (normalizedBrandOf m (brandKey v)) = Some man /\
                obj_get (devices man) (normalizedDeviceOf m (deviceKey v)) = Some id').
    { intros id' bucket' Hin' Hv'.
      destruct (H0 id' bucket' v Hin' Hv') as (Hid & man & Hman & Hdev).
      split; [exact Hid |].
      destruct (String.eqb_spec (normalizedBrandOf m bk) (normalizedBrandOf m (brandKey v)))
        as [Heq | Hne]; [| exists man; by rewrite obj_get_set_ne].
      rewrite Heq in *. rewrite obj_get_set_eq. eexists. split; [reflexivity |].
      simpl. assert (man = man0) as -> by congruence.
      destruct (String.eqb_spec (normalizedDeviceOf m dk) (normalizedDeviceOf m (deviceKey v)))
        as [Heqd | Hned]; [| by rewrite obj_get_set_ne].
      rewrite Heqd, obj_get_set_eq. f_equal. rewrite Hid. unfold deviceIdOf.
      by rewrite Heq, Heqd. }
    apply obj_set_In in Hin as [[-> ->] | Hin]; [| by apply (Hold id bucket)].
    apply in_app_or in Hv as [Hv | [<- | []]].
    + destruct (obj_get (normalizedDeviceMap e0) (deviceIdOf m bk dk)) as [bucket |] eqn:E;
        [| destruct Hv].
      apply (Hold _ bucket); [by apply obj_get_In | exact Hv].
    + rewrite Hbk, Hdk. split; [reflexivity |].
      rewrite obj_get_set_eq. eexists. split; [reflexivity |]. simpl.
      by rewrite obj_get_set_eq.
Qed.

Lemma brandModels_has buckets man models nd id bucket v :
  brandModels buckets man = Some models ->
  In (nd, id) (devices man) -> obj_get buckets id = Some bucket -> In v bucket ->
  is_Some (obj_get models (modelNameOf v)).
Proof.
  unfold brandModels. intros Hloop Hd Hbucket Hv. revert Hloop.
  apply (forEachM_reaches _ _ (fun models => is_Some (obj_get models (modelNameOf v)))
           (nd, id)); [by apply obj_entries_In | |].
  - intros models0 models1 Hstep.
    apply processDevice_get in Hstep as (bucket' & Hbucket' & Hk).
    assert (bucket' = bucket) as -> by congruence.
    rewrite Hk.
    assert (Hin : In v (sameModel (modelNameOf v) bucket)) by (by apply sameModel_In).
    destruct (sameModel (modelNameOf v) bucket) as [| w g] eqn:E; [destruct Hin |].
    apply modelRecord_total. discriminate.
  - intros models0 [nd' id'] models1 _ H0 Hstep.
    apply processDevice_get in Hstep as (bucket' & _ & Hk). rewrite Hk.
    destruct (sameModel (modelNameOf v) bucket') as [| w g] eqn:E; [exact H0 |].
    apply modelRecord_total. discriminate.
Qed.

(** ** The entries of a brand and the buckets they come from *)

Lemma brandModels_exact buckets man models :
  brandModels buckets man = Some models ->
  forall k r, obj_get models k = Some r ->
    exists nd id bucket,
      In (nd, id) (devices man) /\ obj_get buckets id = Some bucket /\
      sameModel k bucket <> [] /\
      modelRecord (canonicalName man) k (sameModel k bucket) = Some r.
Proof.
  unfold brandModels.
  apply (forEachM_preserves _ _
           (fun models => forall k r, obj_get models k = Some r ->
              exists nd id bucket,
                In (nd, id) (devices man) /\ obj_get buckets id = Some bucket /\
                sameModel k bucket <> [] /\
                modelRecord (canonicalName man) k (sameModel k bucket) = Some r)).
  - intros k r H. discriminate H.
  - intros models0 [nd id] models1 Hin IH Hstep k r Hget.
    apply processDevice_get in Hstep as (bucket & Hbucket & Hk).
    rewrite Hk in Hget. destruct (sameModel k bucket) as [| w g] eqn:E; [by apply IH |].
    exists nd, id, bucket. split; [by apply obj_entries_In |].
    split; [exact Hbucket |]. rewrite E. split; [discriminate | exact Hget].
Qed.

Lemma assemble_entry metadata e finalDb nb man :
  List.NoDup (map fst (manufacturers e)) ->
  assemble metadata e = Some finalDb ->
  obj_get (manufacturers e) nb = Some man ->
  sole_name e nb man ->
  exists models,
    obj_get finalDb (canonicalName man) = Some (Brand models) /\
    brandModels (normalizedDeviceMap e) man = Some models.
Proof.
  intros Hnd Hassemble Hman Hsole. unfold assemble in Hassemble. revert Hassemble.
  apply (forEachM_reaches _ _
           (fun f => exists models,
              obj_get f (canonicalName man) = Some (Brand models) /\
              brandModels (normalizedDeviceMap e) man = Some models)
           (nb, man));
    [apply obj_entries_In; by apply obj_get_In | |].
  - intros f f' Hstep. apply assembleBrand_get in Hstep as (models & Hm & Hget & _).
    eauto.
  - intros f [nb' man'] f' Hin (models & Hget & Hm) Hstep.
    apply (proj1 (obj_entries_In _ _)) in Hin.
    apply assembleBrand_get in Hstep as (models' & Hm' & Hget' & Hframe).
    destruct (String.eqb_spec (canonicalName man') (canonicalName man)) as [Heq | Hne];
      [| exists models; by rewrite Hframe].
    pose proof (Hsole _ _ Hin Heq) as ->.
    apply (obj_get_NoDup_In _ _ _ Hnd) in Hin.
    assert (man' = man) as -> by congruence. eauto.
Qed.

Lemma createStandardDevice_lengths deviceData brandName deviceName r :
  createStandardDevice deviceData brandName deviceName = Some r ->
  length (cc r) = rawLength (js_get_opt deviceData "cc") /\
  length (nrpn r) = rawLength (js_get_opt deviceData "nrpn").
Proof.
  intros H. apply createStandardDevice_inv in H as (ccs & nrpns & Hcc & Hnrpn & ->).
  apply map_array_inv in Hcc as (Hlcc & _).
  apply map_array_inv in Hnrpn as (Hlnrpn & _).
  split; assumption.
Qed.

Lemma modelRecord_lengths pk k g r v :
  modelRecord pk k g = Some r -> In v g ->
  length (cc (data v)) <= length (cc r) /\
  length (nrpn (data v)) <= length (nrpn r).
Proof.
  unfold modelRecord. destruct (sortVariants g) as [| p others] eqn:E; [discriminate |].
  intros [= <-] Hv. apply sortVariants_In in Hv. rewrite E in Hv. simpl.
  destruct (mergeAll_list cc mergeDevices_cc (data p) others) as (_ & Hpcc & Hocc).
  destruct (mergeAll_list nrpn mergeDevices_nrpn (data p) others) as (_ & Hpn & Hon).
  destruct Hv as [<- | Hv]; [by split | split; [by apply Hocc | by apply Hon]].
Qed.

(** C3, as the code has it, for an ordinary run (every property name the
    engine uses is plain). Records whose canonical display device names
    differ are never merged with each other: every device entry of the
    final database is the record built from the variants of one bucket
    that carry the entry's display name. Two records of one bucket with
    different display names get two sibling entries, under those names,
    in the brand of the manufacturer that lists the bucket, provided no
    other manufacturer has that manufacturer's display name (the entry of
    the brand is otherwise reinitialised by the manufacturer iterated
    later); each of the two entries is built from the bucket's records of
    its name when no other bucket of the manufacturer holds a record of
    that name. *)
Theorem distinct_models_stay_separate
    (m : Mappings) (targetDb sourceDb : JsValue) (e : Engine)
    (finalDb : obj FinalEntry) :
  collect m targetDb sourceDb = Some e ->
  resolve m targetDb sourceDb = Some finalDb ->
  ordinary_run m targetDb sourceDb ->
  (forall c models k r,
     obj_get finalDb c = Some (Brand models) -> obj_get models k = Some r ->
     exists deviceId deviceVariants,
       obj_get (normalizedDeviceMap e) deviceId = Some deviceVariants /\
       modelRecord c k (sameDisplayName k deviceVariants) = Some r) /\
  (forall deviceId deviceVariants v1 v2,
     obj_get (normalizedDeviceMap e) deviceId = Some deviceVariants ->
     In v1 deviceVariants -> In v2 deviceVariants ->
     canonicalDeviceName v1 <> canonicalDeviceName v2 ->
     exists man,
       obj_get (manufacturers e) (normalizedBrandOf m (brandKey v1)) = Some man /\
       bucket_of e man deviceId deviceVariants /\
       (sole_name e (normalizedBrandOf m (brandKey v1)) man ->
        exists models r1 r2,
          obj_get finalDb (canonicalName man) = Some (Brand models) /\
          obj_get models (canonicalDeviceName v1) = Some r1 /\
          obj_get models (canonicalDeviceName v2) = Some r2 /\
          device_name r1 = VStr (canonicalDeviceName v1) /\
          device_name r2 = VStr (canonicalDeviceName v2) /\
          r1 <> r2 /\
          (sole_bucket e man deviceId (canonicalDeviceName v1) ->
           modelRecord (canonicalName man) (canonicalDeviceName v1)
             (sameDisplayName (canonicalDeviceName v1) deviceVariants) = Some r1) /\
          (sole_bucket e man deviceId (canonicalDeviceName v2) ->
           modelRecord (canonicalName man) (canonicalDeviceName v2)
             (sameDisplayName (canonicalDeviceName v2) deviceVariants) = Some r2))).
Proof.
  intros He Hres _.
  apply resolve_inv in Hres as (metadata & e' & _ & He' & Hassemble).
  assert (e' = e) as -> by congruence.
  assert (Hname : forall deviceId deviceVariants,
            obj_get (normalizedDeviceMap e) deviceId = Some deviceVariants ->
            forall v, In v deviceVariants -> modelNameOf v = canonicalDeviceName v).
  { intros deviceId deviceVariants Hbucket v Hv.
    apply (named_collect _ _ _ _ He deviceId deviceVariants v);
      [by apply obj_get_In | exact Hv]. }
  split.
  - intros c models k r Hc Hk.
    destruct (single_groups_assemble _ _ _ Hassemble c models k r Hc Hk)
      as (deviceId & deviceVariants & Hbucket & Hr).
    exists deviceId, deviceVariants. split; [exact Hbucket |].
    by rewrite <- (sameModel_display _ _ (Hname deviceId deviceVariants Hbucket)).
  - intros deviceId deviceVariants v1 v2 Hbucket Hv1 Hv2 Hne.
    destruct (devices_registered_collect _ _ _ _ He _ _ _ (obj_get_In _ _ _ Hbucket) Hv1)
      as (_ & man & Hman & Hdev).
    exists man. split; [exact Hman |].
    split; [split; [eexists; apply obj_get_In, Hdev | exact Hbucket] |].
    intros Hsole.
    destruct (brands_from_collect _ _ _ _ He) as [Hnd _].
    destruct (assemble_entry _ _ _ _ _ Hnd Hassemble Hman Hsole) as (models & Hget & Hm).
    assert (Hentry : forall v, In v deviceVariants ->
              exists r,
                obj_get models (canonicalDeviceName v) = Some r /\
                device_name r = VStr (canonicalDeviceName v) /\
                (sole_bucket e man deviceId (canonicalDeviceName v) ->
                 modelRecord (canonicalName man) (canonicalDeviceName v)
                   (sameDisplayName (canonicalDeviceName v) deviceVariants) = Some r)).
    { intros v Hv.
      destruct (brandModels_has _ _ _ _ _ _ v Hm (obj_get_In _ _ _ Hdev) Hbucket Hv)
        as [r Hr].
      rewrite (Hname _ _ Hbucket v Hv) in Hr.
      destruct (brandModels_exact _ _ _ Hm _ _ Hr)
        as (nd' & id' & bucket' & Hin' & Hbucket' & Hsome & Hrec).
      exists r. split; [exact Hr |].
      split; [exact (proj1 (modelRecord_device_name _ _ _ _ Hrec)) |].
      intros Hown.
      destruct (sameModel (canonicalDeviceName v) bucket') as [| w g] eqn:E;
        [by destruct Hsome |].
      assert (Hw : In w (sameModel (canonicalDeviceName v) bucket'))
        by (rewrite E; by left).
      apply sameModel_In in Hw as [Hw Hwname].
      rewrite (Hname _ _ Hbucket' w Hw) in Hwname.
      assert (id' = deviceId) as ->.
      { apply (Hown id' bucket' w); [split; eauto | exact Hw | exact Hwname]. }
      assert (bucket' = deviceVariants) as -> by congruence.
      rewrite <- E, (sameModel_display _ _ (Hname _ _ Hbucket)) in Hrec. exact Hrec. }
    destruct (Hentry v1 Hv1) as (r1 & Hr1 & Hd1 & Hown1).
    destruct (Hentry v2 Hv2) as (r2 & Hr2 & Hd2 & Hown2).
    exists models, r1, r2. do 5 (split; [assumption |]).
    split; [| split; assumption].
    intros ->. rewrite Hd1 in Hd2. injection Hd2 as Heq. by apply Hne.
Qed.

(** A concrete instance of [distinct_models_stay_separate]: the target
    device [a_b] / [c] and the source device [a] / [b_c] share the bucket
    [a_b_c] and have the display names [c] and [b_c]; the brand [a_b] of
    the final database has the two sibling entries. *)
Lemma distinct_models_stay_separate_witness :
  obj_get (normalizedDeviceMap Samples.collidingEngine) "a_b_c"
    = Some [Samples.variantC; Samples.variantBC] /\
  exists models r1 r2,
    obj_get Samples.collidingFinal "a_b" = Some (Brand models) /\
    obj_get models "c" = Some r1 /\
    obj_get models "b_c" = Some r2 /\
    r1 <> r2 /\
    modelRecord "a_b" "c" [Samples.variantC] = Some r1 /\
    modelRecord "a_b" "b_c" [Samples.variantBC] = Some r2.
Proof.
  split; [reflexivity |].
  destruct (distinct_models_stay_separate emptyMappings Samples.collidingTarget
              Samples.collidingSource Samples.collidingEngine Samples.collidingFinal
              eq_refl eq_refl)
    as (_ & Hsiblings).
  { split; [apply plain_values_empty |]. split; [apply plain_values_empty |].
    vm_compute. reflexivity. }
  destruct (Hsiblings "a_b_c" [Samples.variantC; Samples.variantBC]
              Samples.variantC Samples.variantBC eq_refl)
    as (man & Hman & _ & Hentries);
    [left; reflexivity | right; left; reflexivity | discriminate |].
  vm_compute in Hman. injection Hman as <-.
  destruct Hentries as (models & r1 & r2 & Hget & H1 & H2 & _ & _ & Hne & Hown1 & Hown2).
  { intros nb' man' Hin Heq. vm_compute in Hin.
    destruct Hin as [[= <- <-] | [[= <- <-] | []]]; [reflexivity | discriminate Heq]. }
  assert (Hsole : forall name, sole_bucket Samples.collidingEngine
            {| variants := ["a_b"]; canonicalName := "a_b";
               devices := [("c", "a_b_c")] |} "a_b_c" name).
  { intros name id' bucket' v' [[nd Hin] _] _ _.
    destruct Hin as [[= _ <-] | []]. reflexivity. }
  exists models, r1, r2. do 4 (split; [assumption |]).
  split; [exact (Hown1 (Hsole _)) | exact (Hown2 (Hsole _))].
Defined.

(** C3 as stated fails. With a configuration that displays the brands
    [a_b] and [z1] as [N1] and the brands [a] and [z2] as [N2], the target
    device [a_b] / [c] and the source device [a] / [b_c] share the bucket
    [a_b_c] with the display names [c] and [b_c]; the final assembly
    stores both entries under [N1] and under [N2], and then reinitialises
    [N1] for [z1] and [N2] for [z2]: the final database holds neither
    [c] nor [b_c]. *)
Lemma siblings_lost_with_replaced_brand :
  exists e v1 v2 finalDb modelsN1 modelsN2,
    collect (loadMappings (Json Samples.lostConfig)) Samples.lostTarget
      Samples.lostSource = Some e /\
    obj_get (normalizedDeviceMap e) "a_b_c" = Some [v1; v2] /\
    canonicalDeviceName v1 = "c" /\ canonicalDeviceName v2 = "b_c" /\
    mergeScript (Json Samples.lostConfig) Samples.lostTarget Samples.lostSource
      = Some finalDb /\
    obj_keys finalDb = ["N1"; "N2"] /\
    obj_get finalDb "N1" = Some (Brand modelsN1) /\ obj_keys modelsN1 = ["x"] /\
    obj_get finalDb "N2" = Some (Brand modelsN2) /\ obj_keys modelsN2 = ["y"].
Proof.
  do 6 eexists.
  split; [vm_compute; reflexivity |].
  split; [vm_compute; reflexivity |].
  do 2 (split; [reflexivity |]).
  split; [vm_compute; reflexivity |].
  split; [reflexivity |].
  split; [vm_compute; reflexivity |].
  split; [reflexivity |].
  split; [vm_compute; reflexivity | reflexivity].
Qed.

(** X14. In an ordinary run no device is lost when no other manufacturer
    has the display name of the device's manufacturer and no other bucket
    of that manufacturer holds a record with the device's display name:
    the final database has, in the brand of the manufacturer and under the
    display name of the device's model, the record merged from the records
    of the device's own bucket that carry that display name, the device's
    own standardized record among them, and that record has at least as
    many [cc] and [nrpn] parameters as the raw device. *)
Theorem no_device_is_lost
    (m : Mappings) (targetDb sourceDb : JsValue) (e : Engine)
    (finalDb : obj FinalEntry) (bk dk : string) (deviceData : JsValue)
    (man : Manufacturer) :
  let name := getModelDisplayName m (normalizedBrandOf m bk) (normalizedDeviceOf m dk) in
  collect m targetDb sourceDb = Some e ->
  resolve m targetDb sourceDb = Some finalDb ->
  ordinary_run m targetDb sourceDb ->
  rawDevice targetDb sourceDb bk dk deviceData ->
  obj_get (manufacturers e) (normalizedBrandOf m bk) = Some man ->
  sole_name e (normalizedBrandOf m bk) man ->
  sole_bucket e man (deviceIdOf m bk dk) name ->
  exists models r bucket v,
    obj_get finalDb (canonicalName man) = Some (Brand models) /\
    obj_get models name = Some r /\
    obj_get (normalizedDeviceMap e) (deviceIdOf m bk dk) = Some bucket /\
    In v (sameDisplayName name bucket) /\
    brandKey v = bk /\ deviceKey v = dk /\
    (exists brandName deviceName,
       createStandardDevice deviceData brandName deviceName = Some (data v)) /\
    modelRecord (canonicalName man) name (sameDisplayName name bucket) = Some r /\
    rawLength (js_get_opt deviceData "cc") <= length (cc r) /\
    rawLength (js_get_opt deviceData "nrpn") <= length (nrpn r).
Proof.
  intros name He Hres _ Hraw Hman Hsole Hown.
  apply resolve_inv in Hres as (metadata & e' & _ & He' & Hassemble).
  assert (e' = e) as -> by congruence.
  destruct (stored_collect _ _ _ _ _ _ _ He Hraw)
    as (bucket & v & brandName & deviceName & Hbucket & Hv & Hbk & Hdk & Hstd).
  destruct (devices_registered_collect _ _ _ _ He _ _ _ (obj_get_In _ _ _ Hbucket) Hv)
    as (_ & man' & Hman' & Hdev).
  rewrite Hbk in Hman'. rewrite Hdk in Hdev.
  assert (man' = man) as -> by congruence.
  destruct (brands_from_collect _ _ _ _ He) as [Hnd _].
  destruct (collect_collected _ _ _ _ He _ _ _ (obj_get_In _ _ _ Hbucket) Hv)
    as (_ & _ & Hdisplay & _).
  rewrite Hbk, Hdk in Hdisplay. fold name in Hdisplay.
  assert (Hname : forall deviceId deviceVariants,
            obj_get (normalizedDeviceMap e) deviceId = Some deviceVariants ->
            forall w, In w deviceVariants -> modelNameOf w = canonicalDeviceName w).
  { intros deviceId deviceVariants Hb w Hw.
    apply (named_collect _ _ _ _ He deviceId deviceVariants w);
      [by apply obj_get_In | exact Hw]. }
  destruct (assemble_entry _ _ _ _ _ Hnd Hassemble Hman Hsole) as (models & Hget & Hm).
  destruct (brandModels_has _ _ _ _ _ _ v Hm (obj_get_In _ _ _ Hdev) Hbucket Hv)
    as [r Hr].
  rewrite (Hname _ _ Hbucket v Hv), Hdisplay in Hr.
  destruct (brandModels_exact _ _ _ Hm _ _ Hr)
    as (nd' & id' & bucket' & Hin' & Hbucket' & Hsome & Hrec).
  destruct (sameModel name bucket') as [| w g] eqn:E; [by destruct Hsome |].
  assert (Hw : In w (sameModel name bucket')) by (rewrite E; by left).
  apply sameModel_In in Hw as [Hw Hwname].
  rewrite (Hname _ _ Hbucket' w Hw) in Hwname.
  assert (id' = deviceIdOf m bk dk) as ->.
  { apply (Hown id' bucket' w); [split; eauto | exact Hw | exact Hwname]. }
  assert (bucket' = bucket) as -> by congruence.
  rewrite <- E, (sameModel_display _ _ (Hname _ _ Hbucket)) in Hrec.
  assert (Hmine : In v (sameDisplayName name bucket)) by (by apply sameDisplayName_In).
  destruct (modelRecord_lengths _ _ _ _ _ Hrec Hmine) as [Hcc Hnrpn].
  destruct (createStandardDevice_lengths _ _ _ _ Hstd) as [Hlcc Hlnrpn].
  exists models, r, bucket, v. do 6 (split; [assumption |]).
  split; [eauto |]. split; [exact Hrec |]. split; lia.
Qed.

(** A concrete instance of [no_device_is_lost]: the source device of the
    scenario, with its two [cc] parameters. *)
Lemma no_device_is_lost_witness :
  exists models r,
    obj_get Samples.scenarioFinal "BOSS" = Some (Brand models) /\
    obj_get models "GT-1000" = Some r /\
    2 <= length (cc r).
Proof.
  destruct (no_device_is_lost Scenario.aliases Scenario.targetDb Scenario.sourceDb
              Samples.scenarioEngine Samples.scenarioFinal "roland" "gt1000"
              Scenario.sourceDevice Samples.scenarioBrand eq_refl eq_refl)
    as (models & r & bucket & v & Hget & Hr & _ & _ & _ & _ & _ & _ & Hcc & _).
  - split; [by apply plain_values_singleton |].
    split; [by apply plain_values_singleton |]. vm_compute. reflexivity.
  - exists (VObj [("gt1000", Scenario.sourceDevice)]), [("gt1000", Scenario.sourceDevice)].
    split; [right; left; reflexivity |]. split; [reflexivity | left; reflexivity].
  - reflexivity.
  - intros nb' man' Hin _. vm_compute in Hin. by destruct Hin as [[= <- _] | []].
  - intros id' bucket' v' [[nd Hin] _] _ _. vm_compute in Hin.
    by destruct Hin as [[= _ <-] | []].
  - exists models, r. split; [exact Hget |]. split; [exact Hr | exact Hcc].
Defined.

(** ** The alias configuration *)

















(** ** The diagnostics report *)

(** A loop that only ever adds: what holds of the final state is what held
    of the first one or was added by one of the elements. *)
Lemma forEachM_collects {A S X} (f : S -> A -> option S)
    (M : S -> X -> Prop) (N : A -> X -> Prop) l s s' :
  (forall s a s', In a l -> f s a = Some s' -> forall x, M s' x <-> M s x \/ N a x) ->
  forEachM f l s = Some s' ->
  forall x, M s' x <-> M s x \/ exists a, In a l /\ N a x.
Proof.
  revert s. induction l as [| a l IH]; intros s Hstep; cbn [forEachM].
  - intros [= <-] x. split; [by left | intros [? | (? & [] & _)]; assumption].
  - destruct (f s a) as [s1 |] eqn:Hf; [| discriminate]. intros Hloop x.
    rewrite (IH s1) by (try exact Hloop; intros; eapply Hstep; eauto; by right).
    rewrite (Hstep s a s1 (or_introl eq_refl) Hf x). split.
    + intros [[? | ?] | (a' & Hin & ?)]; [by left | right; exists a; split; [by left | assumption] |].
      right. exists a'. split; [by right | assumption].
    + intros [? | (a' & [<- | Hin] & ?)]; [left; by left | left; by right |].
      right. exists a'. by split.
Qed.

Lemma set_add_In l x k : In k (Diagnostics.set_add l x) <-> In k l \/ k = x.
Proof.
  unfold Diagnostics.set_add. destruct (includes l x) eqn:E.
  - split; [by left | intros [? | ->]; [assumption |]].
    unfold includes in E. apply existsb_exists in E as (y & Hy & Heq).
    apply String.eqb_eq in Heq. by subst.
  - rewrite in_app_iff. simpl. split.
    + intros [? | [<- | []]]; [by left | by right].
    + intros [? | ->]; [by left | right; by left].
Qed.

Lemma set_add_NoDup l x : List.NoDup l -> List.NoDup (Diagnostics.set_add l x).
Proof.
  unfold Diagnostics.set_add. intros Hnd. destruct (includes l x) eqn:E; [exact Hnd |].
  apply List.NoDup_app; [exact Hnd | repeat constructor; tauto |].
  intros y Hy [<- | []]. unfold includes in E.
  assert (existsb (String.eqb x) l = true); [| congruence].
  apply existsb_exists. exists x. split; [exact Hy | apply String.eqb_refl].
Qed.

Lemma map_add_reported (missing : list (string * list string)) k x bv dk :
  (exists devices, In (bv, devices) (Diagnostics.map_add missing k x) /\ In dk devices)
  <-> (exists devices, In (bv, devices) missing /\ In dk devices) \/ (bv = k /\ dk = x).
Proof.
  induction missing as [| [k' set'] missing IH]; simpl.
  - split.
    + intros (devices & [[= <- <-] | []] & [<- | []]). by right.
    + intros [(devices & [] & _) | [-> ->]]. exists [x]. split; by left.
  - destruct (String.eqb_spec k' k) as [-> | Hne]; simpl.
    + split.
      * intros (devices & [[= <- <-] | Hin] & Hdk).
        -- apply set_add_In in Hdk as [Hdk | ->]; [| by right].
           left. exists set'. split; [by left | exact Hdk].
        -- left. exists devices. split; [by right | exact Hdk].
      * intros [(devices & [[= <- <-] | Hin] & Hdk) | [-> ->]].
        -- exists (Diagnostics.set_add set' x). split; [by left |].
           apply set_add_In. by left.
        -- exists devices. split; [by right | exact Hdk].
        -- exists (Diagnostics.set_add set' x). split; [by left |].
           apply set_add_In. by right.
    + split.
      * intros (devices & [[= <- <-] | Hin] & Hdk).
        -- left. exists set'. split; [by left | exact Hdk].
        -- destruct (proj1 IH) as [(devices' & Hin' & Hdk') | ?]; [eauto | | by right].
           left. exists devices'. split; [by right | exact Hdk'].
      * intros [(devices & [[= <- <-] | Hin] & Hdk) | Hnew].
        -- exists set'. split; [by left | exact Hdk].
        -- destruct (proj2 IH) as (devices' & Hin' & Hdk'); [left; eauto |].
           exists devices'. split; [by right | exact Hdk'].
        -- destruct (proj2 IH) as (devices' & Hin' & Hdk'); [by right |].
           exists devices'. split; [by right | exact Hdk'].
Qed.

Lemma checkDevice_inv l brand r entry r' :
  Diagnostics.checkDevice l brand r entry = Some r' ->
  Diagnostics.missingBrands r' = Diagnostics.missingBrands r /\
  forall bv dk,
    reported r' bv dk <->
    reported r bv dk \/
    (bv = Diagnostics.value brand /\ dk = fst entry /\
     Diagnostics.value brand +:+ "_" +:+ Str.replace_spaces "" (Str.toLowerCase dk)
       ∉ Diagnostics.devicesByValue l).
Proof.
  unfold Diagnostics.checkDevice. case_bool_decide as Hknown; intros [= <-].
  - split; [reflexivity |]. intros bv dk. split; [by left |].
    intros [? | (_ & -> & Hnot)]; [assumption | by destruct Hnot].
  - split; [reflexivity |]. intros bv dk. unfold reported. simpl.
    rewrite map_add_reported. split.
    + intros [? | [-> ->]]; [by left | right; by repeat split].
    + intros [? | (-> & -> & _)]; [by left | by right].
Qed.

Lemma checkDevice_loop l brand entries r r' :
  forEachM (Diagnostics.checkDevice l brand) entries r = Some r' ->
  Diagnostics.missingBrands r' = Diagnostics.missingBrands r /\
  forall bv dk,
    reported r' bv dk <->
    reported r bv dk \/
    (bv = Diagnostics.value brand /\ (exists d, In (dk, d) entries) /\
     Diagnostics.value brand +:+ "_" +:+ Str.replace_spaces "" (Str.toLowerCase dk)
       ∉ Diagnostics.devicesByValue l).
Proof.
  intros Hloop. split.
  - revert Hloop.
    apply (forEachM_preserves _ _
             (fun r1 => Diagnostics.missingBrands r1 = Diagnostics.missingBrands r));
      [reflexivity |].
    intros r1 y r2 _ H1 Hstep. apply checkDevice_inv in Hstep as [-> _]. exact H1.
  - intros bv dk.
    rewrite (forEachM_collects (Diagnostics.checkDevice l brand)
               (fun r x => reported r x.1 x.2)
               (fun entry x =>
                  x.1 = Diagnostics.value brand /\ x.2 = fst entry /\
                  Diagnostics.value brand +:+ "_" +:+
                    Str.replace_spaces "" (Str.toLowerCase x.2)
                    ∉ Diagnostics.devicesByValue l)
               entries r r' (fun r1 a r2 _ Hstep x =>
                               proj2 (checkDevice_inv _ _ _ _ _ Hstep) x.1 x.2)
               Hloop (bv, dk)).
    simpl. split; (intros [? | H]; [by left | right]).
    + destruct H as ([dk0 d] & Hin & -> & Hdk & Hnot). simpl in Hdk. subst dk0.
      split; [reflexivity |]. split; [by exists d | exact Hnot].
    + destruct H as (-> & (d & Hin) & Hnot). exists (dk, d). by repeat split.
Qed.

(** What one brand of a database adds to the report. *)
Lemma checkBrand_inv skip l r bk b r' :
  Diagnostics.checkBrand skip l r (bk, b) = Some r' ->
  (forall k, In k (Diagnostics.missingBrands r') <->
     In k (Diagnostics.missingBrands r) \/
     (k = bk /\ skip && includes reservedKeys bk = false /\
      Diagnostics.findBrand l bk = None)) /\
  (List.NoDup (Diagnostics.missingBrands r) -> List.NoDup (Diagnostics.missingBrands r')) /\
  (forall bv dk,
     reported r' bv dk <->
     reported r bv dk \/
     (skip && includes reservedKeys bk = false /\
      exists brand entries d,
        Diagnostics.findBrand l bk = Some brand /\ js_entries b = Some entries /\
        In (dk, d) entries /\ bv = Diagnostics.value brand /\
        Diagnostics.value brand +:+ "_" +:+ Str.replace_spaces "" (Str.toLowerCase dk)
          ∉ Diagnostics.devicesByValue l)).
Proof.
  unfold Diagnostics.checkBrand.
  destruct (skip && includes reservedKeys bk) eqn:Hskip.
  - intros [= <-]. split; [| split; [tauto |]].
    + intros k. split; [by left | intros [? | (_ & ? & _)]; [assumption | discriminate]].
    + intros bv dk. split; [by left | intros [? | (? & _)]; [assumption | discriminate]].
  - destruct (Diagnostics.findBrand l bk) as [brand |] eqn:Hfind.
    + intros Hrun. apply bind_Some in Hrun as (entries & Hentries & Hloop).
      apply checkDevice_loop in Hloop as [Hbrands Hdevices].
      rewrite Hbrands. split; [| split; [tauto |]].
      * intros k. split; [by left | intros [? | (_ & _ & ?)]; [assumption | discriminate]].
      * intros bv dk. rewrite Hdevices. split; (intros [? | H]; [by left | right]).
        -- destruct H as (-> & (d & Hin) & Hnot). split; [reflexivity |].
           exists brand, entries, d. by repeat split.
        -- destruct H as (_ & brand' & entries' & d & Hb & He & Hin & -> & Hnot).
           injection Hb as <-. rewrite Hentries in He. injection He as <-.
           split; [reflexivity |]. split; [by exists d | exact Hnot].
    + intros [= <-]. simpl. split; [| split; [apply set_add_NoDup |]].
      * intros k. rewrite set_add_In. split; (intros [? | H]; [by left | right]).
        -- by repeat split.
        -- by destruct H as (-> & _).
      * intros bv dk. split; [by left |].
        intros [? | (_ & brand & ? & ? & ? & _)]; [assumption | discriminate].
Qed.

Lemma brandEntriesOf_In targetDb sourceDb targetEntries sourceEntries bk b :
  js_entries targetDb = Some targetEntries ->
  js_entries sourceDb = Some sourceEntries ->
  In (bk, b) (brandEntriesOf targetDb sourceDb) <->
  (In (bk, b) targetEntries /\ true && includes reservedKeys bk = false) \/
  (In (bk, b) sourceEntries /\ false && includes reservedKeys bk = false).
Proof.
  intros Ht Hs. unfold brandEntriesOf. rewrite Ht, Hs. cbn [default andb].
  rewrite in_app_iff, List.filter_In. cbn [fst]. rewrite negb_true_iff. tauto.
Qed.

Lemma run_inv f targetDb sourceDb r :
  Diagnostics.run f targetDb sourceDb = Some r ->
  exists mapping l targetEntries r1 sourceEntries,
    f = Json mapping /\ Diagnostics.buildLookups mapping = Some l /\
    js_entries targetDb = Some targetEntries /\
    forEachM (Diagnostics.checkBrand true l) targetEntries Diagnostics.emptyReport
      = Some r1 /\
    js_entries sourceDb = Some sourceEntries /\
    forEachM (Diagnostics.checkBrand false l) sourceEntries r1 = Some r.
Proof.
  unfold Diagnostics.run. intros H.
  apply bind_Some in H as (mapping & Hf & H).
  apply bind_Some in H as (l & Hl & H).
  apply bind_Some in H as (targetEntries & Ht & H).
  apply bind_Some in H as (r1 & Htarget & H).
  apply bind_Some in H as (sourceEntries & Hs & Hsource).
  exists mapping, l, targetEntries, r1, sourceEntries.
  destruct f; try discriminate. injection Hf as ->. by repeat split.
Qed.

(** X17. The diagnostics script reports as missing exactly the brand keys
    of the two databases (the reserved keys of the target database apart)
    that the configuration knows neither by lower-cased name, nor by
    value with the white space removed, nor by lower-cased value; each is
    reported once. *)
Theorem missing_brands_exactly
    (f : ConfigFile) (targetDb sourceDb : JsValue) (r : Diagnostics.Report) :
  Diagnostics.run f targetDb sourceDb = Some r ->
  exists mapping l,
    f = Json mapping /\ Diagnostics.buildLookups mapping = Some l /\
    List.NoDup (Diagnostics.missingBrands r) /\
    forall k,
      In k (Diagnostics.missingBrands r) <->
      In k (brandKeysOf targetDb sourceDb) /\ Diagnostics.findBrand l k = None.
Proof.
  intros Hrun.
  apply run_inv in Hrun
    as (mapping & l & targetEntries & r1 & sourceEntries & -> & Hl & Ht & Htarget & Hs & Hsource).
  exists mapping, l. do 2 (split; [reflexivity || assumption |]). split.
  - revert Hsource.
    apply (forEachM_preserves _ _ (fun r => List.NoDup (Diagnostics.missingBrands r))).
    + revert Htarget.
      apply (forEachM_preserves _ _ (fun r => List.NoDup (Diagnostics.missingBrands r)));
        [constructor |].
      intros r0 [bk b] r0' _ H0 Hstep. by apply checkBrand_inv in Hstep as (_ & H & _); auto.
    + intros r0 [bk b] r0' _ H0 Hstep. by apply checkBrand_inv in Hstep as (_ & H & _); auto.
  - intros k.
    pose proof (fun skip entries r0 r0' =>
      forEachM_collects (Diagnostics.checkBrand skip l)
        (fun r k => In k (Diagnostics.missingBrands r))
        (fun entry k =>
           k = entry.1 /\ skip && includes reservedKeys entry.1 = false /\
           Diagnostics.findBrand l entry.1 = None)
        entries r0 r0'
        (fun r1 a r2 _ =>
           match a with
           | (bk, b) => fun Hstep => proj1 (checkBrand_inv _ _ _ _ _ _ Hstep)
           end)) as Hcollects.
    rewrite (Hcollects false _ _ _ Hsource k), (Hcollects true _ _ _ Htarget k).
    simpl. unfold brandKeysOf. rewrite in_map_iff. split.
    + intros [[[] | ([bk b] & Hin & -> & Hres & Hfind)] | ([bk b] & Hin & -> & Hres & Hfind)];
        (split; [| exact Hfind]); exists (bk, b); (split; [reflexivity |]);
        apply (brandEntriesOf_In _ _ _ _ _ _ Ht Hs); auto.
    + intros [([bk b] & <- & Hin) Hfind].
      apply (brandEntriesOf_In _ _ _ _ _ _ Ht Hs) in Hin as [[Hin Hres] | [Hin Hres]].
      * left. right. exists (bk, b). by repeat split.
      * right. exists (bk, b). by repeat split.
Qed.

(** X18. When its two loops complete, the diagnostics script has collected
    a device key in [missingDevices] under a brand value exactly when one
    of the two databases holds a device of that key under a brand key the
    configuration knows as that brand, and the brand's value joined by an
    underscore to the lower-cased key with its white space removed is not
    among the configured model ids. This is the content of the collection
    only: the console report that follows is not part of [Diagnostics.run]
    and can still throw. *)
Theorem missing_devices_exactly
    (f : ConfigFile) (targetDb sourceDb : JsValue) (r : Diagnostics.Report) :
  Diagnostics.run f targetDb sourceDb = Some r ->
  exists mapping l,
    f = Json mapping /\ Diagnostics.buildLookups mapping = Some l /\
    forall brandValue deviceKey,
      reported r brandValue deviceKey <->
      exists brandKey brand deviceData,
        rawDevice targetDb sourceDb brandKey deviceKey deviceData /\
        Diagnostics.findBrand l brandKey = Some brand /\
        Diagnostics.value brand = brandValue /\
        Diagnostics.value brand +:+ "_" +:+
          Str.replace_spaces "" (Str.toLowerCase deviceKey)
          ∉ Diagnostics.devicesByValue l.
Proof.
  intros Hrun.
  apply run_inv in Hrun
    as (mapping & l & targetEntries & r1 & sourceEntries & -> & Hl & Ht & Htarget & Hs & Hsource).
  exists mapping, l. do 2 (split; [reflexivity || assumption |]).
  intros bv dk.
  pose proof (fun skip entries r0 r0' =>
    forEachM_collects (Diagnostics.checkBrand skip l)
      (fun r x => reported r x.1 x.2)
      (fun entry x =>
         skip && includes reservedKeys entry.1 = false /\
         exists brand entries d,
           Diagnostics.findBrand l entry.1 = Some brand /\
           js_entries entry.2 = Some entries /\
           In (x.2, d) entries /\ x.1 = Diagnostics.value brand /\
           Diagnostics.value brand +:+ "_" +:+
             Str.replace_spaces "" (Str.toLowerCase x.2)
             ∉ Diagnostics.devicesByValue l)
      entries r0 r0'
      (fun r1 a r2 _ =>
         match a with
         | (bk, b) => fun Hstep x =>
                        proj2 (proj2 (checkBrand_inv _ _ _ _ _ _ Hstep)) x.1 x.2
         end)) as Hcollects.
  rewrite (Hcollects false _ _ _ Hsource (bv, dk)), (Hcollects true _ _ _ Htarget (bv, dk)).
  simpl. unfold rawDevice. split.
  - intros [[(devices & [] & _) | H] | H];
      destruct H as ([bk b] & Hin & Hres & brand & entries & d & Hfind & He & Hd & -> & Hnot);
      exists bk, brand, d; (split; [| by repeat split]); exists b, entries;
      (split; [| by split]); apply (brandEntriesOf_In _ _ _ _ _ _ Ht Hs); auto.
  - intros (bk & brand & d & (b & entries & Hin & He & Hd) & Hfind & <- & Hnot).
    apply (brandEntriesOf_In _ _ _ _ _ _ Ht Hs) in Hin as [[Hin Hres] | [Hin Hres]].
    + left. right. exists (bk, b). split; [exact Hin |]. split; [exact Hres |].
      exists brand, entries, d. by repeat split.
    + right. exists (bk, b). split; [exact Hin |]. split; [exact Hres |].
      exists brand, entries, d. by repeat split.
Qed.

(** A concrete instance of [missing_brands_exactly]: one unknown brand. *)
Lemma missing_brands_exactly_witness :
  exists mapping l,
    Json Samples.accessConfig = Json mapping /\
    Diagnostics.buildLookups mapping = Some l /\
    List.NoDup (Diagnostics.missingBrands Samples.diagReport) /\
    forall k,
      In k (Diagnostics.missingBrands Samples.diagReport) <->
      In k (brandKeysOf Samples.diagTarget Samples.diagSource) /\
      Diagnostics.findBrand l k = None.
Proof.
  apply (missing_brands_exactly (Json Samples.accessConfig) Samples.diagTarget
           Samples.diagSource Samples.diagReport).
  vm_compute. reflexivity.
Defined.

(** A concrete instance of [missing_devices_exactly]: the devices of a
    brand that lists no model. *)
Lemma missing_devices_exactly_witness :
  exists mapping l,
    Json Samples.accessConfig = Json mapping /\
    Diagnostics.buildLookups mapping = Some l /\
    forall brandValue deviceKey,
      reported Samples.diagReport brandValue deviceKey <->
      exists brandKey brand deviceData,
        rawDevice Samples.diagTarget Samples.diagSource brandKey deviceKey deviceData /\
        Diagnostics.findBrand l brandKey = Some brand /\
        Diagnostics.value brand = brandValue /\
        Diagnostics.value brand +:+ "_" +:+
          Str.replace_spaces "" (Str.toLowerCase deviceKey)
          ∉ Diagnostics.devicesByValue l.
Proof.
  apply (missing_devices_exactly (Json Samples.accessConfig) Samples.diagTarget
           Samples.diagSource Samples.diagReport).
  vm_compute. reflexivity.
Defined.

(** ** The latest database file *)

Lemma leb_trans a b c :
  String.leb a b = true -> String.leb b c = true -> String.leb a c = true.
Proof.
  unfold String.leb. revert b c.
  induction a as [| ca a IH]; intros [| cb b] [| cc c]; simpl; try congruence.
  unfold Ascii.compare.
  destruct (N.compare_spec (N_of_ascii ca) (N_of_ascii cb)) as [E1 | L1 | G1];
    destruct (N.compare_spec (N_of_ascii cb) (N_of_ascii cc)) as [E2 | L2 | G2];
    destruct (N.compare_spec (N_of_ascii ca) (N_of_ascii cc)) as [E3 | L3 | G3];
    try congruence; try lia.
  apply IH.
Qed.

Lemma insertName_perm x l : Permutation (insertName x l) (x :: l).
Proof.
  induction l as [| y l IH]; simpl; [reflexivity |].
  destruct (String.leb x y); [reflexivity |].
  rewrite IH. apply perm_swap.
Qed.

Lemma sortNames_perm l : Permutation (sortNames l) l.
Proof.
  induction l as [| x l IH]; simpl; [reflexivity |].
  rewrite insertName_perm. by constructor.
Qed.

Lemma insertName_sorted x l :
  StronglySorted (fun a b => String.leb a b = true) l ->
  StronglySorted (fun a b => String.leb a b = true) (insertName x l).
Proof.
  induction l as [| y l IH]; intros Hl; simpl; [repeat constructor |].
  apply StronglySorted_inv in Hl as [Hl Hy].
  destruct (String.leb x y) eqn:E.
  - constructor; [by constructor |]. constructor; [exact E |].
    rewrite List.Forall_forall in *. intros z Hz. apply (leb_trans x y z E), Hy, Hz.
  - constructor; [by apply IH |].
    rewrite List.Forall_forall in *. intros z Hz.
    apply (Permutation_in _ (insertName_perm x l)) in Hz as [<- | Hz]; [| by apply Hy].
    destruct (String.leb_total x y) as [H | H]; [congruence | exact H].
Qed.

Lemma sortNames_sorted l :
  StronglySorted (fun a b => String.leb a b = true) (sortNames l).
Proof.
  induction l as [| x l IH]; simpl; [constructor |]. by apply insertName_sorted.
Qed.

Lemma sorted_last (l : list string) x :
  StronglySorted (fun a b => String.leb a b = true) (l ++ [x]) ->
  forall y, In y l -> String.leb y x = true.
Proof.
  induction l as [| z l IH]; intros Hs y Hy; [destruct Hy |].
  simpl in Hs. apply StronglySorted_inv in Hs as [Hs Hz].
  destruct Hy as [<- | Hy]; [| by apply IH].
  rewrite List.Forall_forall in Hz. apply Hz, in_or_app. right. by left.
Qed.

Lemma leb_refl s : String.leb s s = true.
Proof. by destruct (String.leb_total s s). Qed.

(** X19. [findLatestDatabase] throws exactly when no file of the
    directory passes the filter (name starting with [midi-database-v],
    ending in [.json] but not in [.min.json]); otherwise it returns one
    of those files, the greatest in the character-by-character order of
    the names. The order is that of the default [sort]: it is not the
    order of the version numbers. *)
Theorem findLatestDatabase_greatest (files : list string) :
  match findLatestDatabase files with
  | Some latest =>
      In latest files /\ isDbFile latest = true /\
      forall file, In file files -> isDbFile file = true ->
        String.leb file latest = true
  | None => forall file, In file files -> isDbFile file = false
  end.
Proof.
  unfold findLatestDatabase.
  destruct (List.filter isDbFile files) as [| f0 dbFiles] eqn:Hfilter.
  - simpl. intros file Hin. destruct (isDbFile file) eqn:E; [| reflexivity].
    assert (Hf : In file (List.filter isDbFile files)) by (by apply List.filter_In).
    rewrite Hfilter in Hf. destruct Hf.
  - cbn [length Nat.eqb].
    pose proof (sortNames_perm (f0 :: dbFiles)) as Hperm.
    pose proof (sortNames_sorted (f0 :: dbFiles)) as Hsorted.
    rewrite <- (rev_involutive (sortNames (f0 :: dbFiles))) in Hperm, Hsorted.
    destruct (rev (sortNames (f0 :: dbFiles))) as [| latest others] eqn:Hrev.
    + apply Permutation_nil in Hperm. discriminate.
    + simpl in *.
      assert (Hmem : forall file, In file (rev others ++ [latest]) <->
                In file files /\ isDbFile file = true).
      { intros file. rewrite <- List.filter_In, Hfilter. split.
        - apply Permutation_in. exact Hperm.
        - apply Permutation_in. symmetry. exact Hperm. }
      destruct (proj1 (Hmem latest)) as [Hin Hdb]; [apply in_or_app; right; by left |].
      split; [exact Hin |]. split; [exact Hdb |].
      intros file Hfile Hok.
      pose proof (proj2 (Hmem file) (conj Hfile Hok)) as Hf.
      apply in_app_or in Hf as [Hf | [<- | []]]; [| apply leb_refl].
      by apply (sorted_last _ _ Hsorted).
Qed.

(** The order of the names is not the order of the versions. *)
Example findLatestDatabase_ex :
  findLatestDatabase
    ["midi-database-v9.json"; "midi-database-v10.json"; "midi-database-v10.min.json";
     "all.json"]
  = Some "midi-database-v9.json".
Proof. reflexivity. Qed.

(** ** The device names of the final database *)




(** ** [merge.js]: the brands of the final database *)

(** The proofs hold for any alias tables: the built-in ones stay folded. *)
#[local] Opaque Legacy.manufacturerMapping Legacy.deviceMapping.

Lemma legacy_pushVariant_In e nb nd id v nb' man' :
  In (nb', man') (Legacy.manufacturers (Legacy.pushVariant e nb nd id v)) ->
  exists man, In (nb', man) (Legacy.manufacturers e) /\
              Legacy.canonicalName man' = Legacy.canonicalName man.
Proof.
  unfold Legacy.pushVariant. simpl.
  destruct (obj_get (Legacy.manufacturers e) nb) as [man |] eqn:E; [| eauto].
  intros Hin. apply obj_set_In in Hin as [[-> ->] | Hin]; [| eauto].
  exists man. split; [by apply obj_get_In | reflexivity].
Qed.

Lemma legacy_pushVariant_has e nb nd id v nb' :
  is_Some (obj_get (Legacy.manufacturers e) nb') ->
  is_Some (obj_get (Legacy.manufacturers (Legacy.pushVariant e nb nd id v)) nb').
Proof.
  unfold Legacy.pushVariant. simpl. intros H.
  destruct (obj_get (Legacy.manufacturers e) nb) as [man |] eqn:E; [| exact H].
  destruct (String.eqb_spec nb nb') as [-> | Hne].
  - rewrite obj_get_set_eq. eauto.
  - by rewrite obj_get_set_ne.
Qed.

(** The inner loops keep the manufacturers' names and keys. *)
Lemma legacy_targetDevices bk nb cb entries e e' :
  forEachM (Legacy.targetDevice bk nb cb) entries e = Some e' ->
  (forall nb' man', In (nb', man') (Legacy.manufacturers e') ->
     exists man, In (nb', man) (Legacy.manufacturers e) /\
                 Legacy.canonicalName man' = Legacy.canonicalName man) /\
  (forall nb', is_Some (obj_get (Legacy.manufacturers e) nb') ->
     is_Some (obj_get (Legacy.manufacturers e') nb')).
Proof.
  apply (forEachM_preserves _ _
           (fun e' =>
              (forall nb' man', In (nb', man') (Legacy.manufacturers e') ->
                 exists man, In (nb', man) (Legacy.manufacturers e) /\
                             Legacy.canonicalName man' = Legacy.canonicalName man) /\
              (forall nb', is_Some (obj_get (Legacy.manufacturers e) nb') ->
                 is_Some (obj_get (Legacy.manufacturers e') nb')))); [split; eauto |].
  intros e1 [dk d] e2 _ [H1 H2] Hstep. unfold Legacy.targetDevice in Hstep.
  apply bind_Some in Hstep as (? & _ & Hstep).
  apply bind_Some in Hstep as (? & _ & Hstep).
  apply bind_Some in Hstep as (r & _ & [= <-]). split.
  - intros nb' man' Hin. apply legacy_pushVariant_In in Hin as (man1 & Hin & ->).
    by apply H1.
  - intros nb' Hnb. by apply legacy_pushVariant_has, H2.
Qed.

Lemma legacy_sourceDevices bk nb entries e e' :
  forEachM (Legacy.sourceDevice bk nb) entries e = Some e' ->
  (forall nb' man', In (nb', man') (Legacy.manufacturers e') ->
     exists man, In (nb', man) (Legacy.manufacturers e) /\
                 Legacy.canonicalName man' = Legacy.canonicalName man) /\
  (forall nb', is_Some (obj_get (Legacy.manufacturers e) nb') ->
     is_Some (obj_get (Legacy.manufacturers e') nb')).
Proof.
  apply (forEachM_preserves _ _
           (fun e' =>
              (forall nb' man', In (nb', man') (Legacy.manufacturers e') ->
                 exists man, In (nb', man) (Legacy.manufacturers e) /\
                             Legacy.canonicalName man' = Legacy.canonicalName man) /\
              (forall nb', is_Some (obj_get (Legacy.manufacturers e) nb') ->
                 is_Some (obj_get (Legacy.manufacturers e') nb')))); [split; eauto |].
  intros e1 [dk d] e2 _ [H1 H2] Hstep. unfold Legacy.sourceDevice in Hstep.
  apply bind_Some in Hstep as (? & _ & Hstep).
  apply bind_Some in Hstep as (r & _ & [= <-]). split.
  - intros nb' man' Hin. apply legacy_pushVariant_In in Hin as (man1 & Hin & ->).
    by apply H1.
  - intros nb' Hnb. by apply legacy_pushVariant_has, H2.
Qed.

Lemma legacy_targetBrand_named targetDb targetEntries e e' bk b :
  js_entries targetDb = Some targetEntries -> In (bk, b) targetEntries ->
  Legacy.targetBrand e (bk, b) = Some e' ->
  Legacy.named_by_target targetDb e -> Legacy.named_by_target targetDb e'.
Proof.
  intros Ht Hin. unfold Legacy.targetBrand.
  destruct (includes reservedKeys bk) eqn:Hres; [by intros [= <-] |].
  intros Hrun H0. apply bind_Some in Hrun as (entries & _ & Hloop).
  apply legacy_targetDevices in Hloop as [Hloop _].
  intros nb' man' Hin'. destruct (Hloop _ _ Hin') as (man1 & Hin1 & ->). simpl in Hin1.
  fold (Legacy.normalizedBrandOf bk) in Hin1. fold (Legacy.canonicalBrandOf bk) in Hin1.
  destruct (obj_get (Legacy.manufacturers e) (Legacy.normalizedBrandOf bk))
    as [man |] eqn:E;
    apply obj_set_In in Hin1 as [[-> ->] | Hin1]; try (by apply (H0 nb')); simpl.
  - apply (H0 _ man). by apply obj_get_In.
  - left. exists bk. split; [| by split].
    unfold Legacy.targetKeys. rewrite Ht. change bk with (fst (bk, b)).
    apply in_map, List.filter_In. split; [exact Hin |]. cbn [fst]. by rewrite Hres.
Qed.

Lemma legacy_sourceBrand_named targetDb e e' entry :
  Legacy.sourceBrand e entry = Some e' ->
  Legacy.named_by_target targetDb e -> Legacy.named_by_target targetDb e'.
Proof.
  destruct entry as [bk b]. unfold Legacy.sourceBrand.
  intros Hrun H0. apply bind_Some in Hrun as (entries & _ & Hloop).
  apply legacy_sourceDevices in Hloop as [Hloop _].
  intros nb' man' Hin'. destruct (Hloop _ _ Hin') as (man1 & Hin1 & ->). simpl in Hin1.
  fold (Legacy.normalizedBrandOf bk) in Hin1.
  destruct (obj_get (Legacy.manufacturers e) (Legacy.normalizedBrandOf bk))
    as [man |] eqn:E; [destruct (includes (Legacy.variants man) bk) |];
    try (by apply (H0 nb'));
    apply obj_set_In in Hin1 as [[-> ->] | Hin1]; try (by apply (H0 nb')); simpl.
  - apply (H0 _ man). by apply obj_get_In.
  - by right.
Qed.

Lemma legacy_collect_inv targetDb sourceDb e :
  Legacy.collect targetDb sourceDb = Some e ->
  exists targetEntries e1 sourceEntries,
    js_entries targetDb = Some targetEntries /\
    forEachM Legacy.targetBrand targetEntries Legacy.emptyEngine = Some e1 /\
    js_entries sourceDb = Some sourceEntries /\
    forEachM Legacy.sourceBrand sourceEntries e1 = Some e.
Proof.
  unfold Legacy.collect. intros H.
  apply bind_Some in H as (targetEntries & Ht & H).
  apply bind_Some in H as (e1 & Htarget & H).
  apply bind_Some in H as (sourceEntries & Hs & Hsource).
  exists targetEntries, e1, sourceEntries. by repeat split.
Qed.

Lemma legacy_collect_named targetDb sourceDb e :
  Legacy.collect targetDb sourceDb = Some e -> Legacy.named_by_target targetDb e.
Proof.
  intros H.
  apply legacy_collect_inv in H as (targetEntries & e1 & sourceEntries & Ht & Htarget & Hs & Hsource).
  revert Hsource. apply (forEachM_preserves _ _ (Legacy.named_by_target targetDb)).
  - revert Htarget. apply (forEachM_preserves _ _ (Legacy.named_by_target targetDb));
      [intros nb man [] |].
    intros e0 [bk b] e0' Hin H0 Hstep.
    by apply (legacy_targetBrand_named _ _ _ _ _ _ Ht Hin Hstep).
  - intros e0 entry e0' _ H0 Hstep. by apply (legacy_sourceBrand_named _ _ _ _ Hstep).
Qed.

Lemma legacy_modelRecord_brand pk k g r :
  Legacy.modelRecord pk k g = Some r -> brand r = Legacy.brandField pk.
Proof.
  unfold Legacy.modelRecord. destruct (Legacy.sortVariants g); [discriminate |].
  by intros [= <-].
Qed.

Lemma legacy_brandModels_brand buckets man models :
  Legacy.brandModels buckets man = Some models ->
  forall k r, obj_get models k = Some r ->
    brand r = Legacy.brandField (Legacy.canonicalName man).
Proof.
  unfold Legacy.brandModels.
  apply (forEachM_preserves _ _
           (fun models => forall k r, obj_get models k = Some r ->
              brand r = Legacy.brandField (Legacy.canonicalName man)));
    [intros k r [=] |].
  intros models0 [nd id] models1 _ H0 Hstep. unfold Legacy.processDevice in Hstep.
  apply bind_Some in Hstep as (bucket & _ & Hloop). revert Hloop.
  apply (forEachM_preserves _ _
           (fun models => forall k r, obj_get models k = Some r ->
              brand r = Legacy.brandField (Legacy.canonicalName man))); [exact H0 |].
  intros models2 [name g] models3 _ H2 Hstep. unfold Legacy.mergeModel in Hstep.
  apply bind_Some in Hstep as (r' & Hr' & [= <-]).
  intros k r. destruct (String.eqb_spec name k) as [-> | Hne].
  - rewrite obj_get_set_eq. intros [= <-]. by apply legacy_modelRecord_brand in Hr'.
  - rewrite obj_get_set_ne by exact Hne. apply H2.
Qed.

Lemma legacy_assembleBrand_get buckets finalDb finalDb' nb man :
  Legacy.assembleBrand buckets finalDb (nb, man) = Some finalDb' ->
  exists models,
    Legacy.brandModels buckets man = Some models /\
    obj_get finalDb' (Legacy.propertyKey (Legacy.canonicalName man))
      = Some (Brand models) /\
    (forall k, k <> Legacy.propertyKey (Legacy.canonicalName man) ->
       obj_get finalDb' k = obj_get finalDb k).
Proof.
  unfold Legacy.assembleBrand. intros H.
  apply bind_Some in H as (models & Hmodels & [= <-]).
  exists models. split; [exact Hmodels |]. split.
  - apply obj_get_set_eq.
  - intros k Hk. rewrite !obj_get_set_ne by congruence. reflexivity.
Qed.

Lemma legacy_assemble_brands metadata e finalDb :
  Legacy.assemble metadata e = Some finalDb ->
  Legacy.brands_of (Legacy.manufacturers e) finalDb.
Proof.
  unfold Legacy.assemble.
  apply (forEachM_preserves _ _ (Legacy.brands_of (Legacy.manufacturers e))).
  - intros c models. rewrite obj_get_map.
    destruct (obj_get metadata c); discriminate.
  - intros f [nb man] f' Hin H0 Hstep c models Hget.
    apply (proj1 (obj_entries_In _ _)) in Hin.
    apply legacy_assembleBrand_get in Hstep as (models' & Hm & Hkey & Hframe).
    destruct (String.eqb_spec c (Legacy.propertyKey (Legacy.canonicalName man)))
      as [-> | Hne].
    + rewrite Hkey in Hget. injection Hget as <-.
      exists nb, man. split; [exact Hin |]. split; [reflexivity |].
      exact (legacy_brandModels_brand _ _ _ Hm).
    + rewrite (Hframe c Hne) in Hget. by apply H0.
Qed.

Lemma legacy_resolve_inv targetDb sourceDb finalDb :
  Legacy.resolve targetDb sourceDb = Some finalDb ->
  exists metadata e,
    Legacy.collect targetDb sourceDb = Some e /\
    Legacy.assemble metadata e = Some finalDb.
Proof.
  unfold Legacy.resolve. intros H.
  apply bind_Some in H as (metadata & _ & H).
  apply bind_Some in H as (e & He & H). eauto.
Qed.

(** X21. In the final database of [merge.js] every brand is named after a
    brand key of the target database, and its records carry that name as
    their [brand], or it is the property [undefined] and its records have
    no [brand]: the name of a brand that only the source database has
    never reaches the output. *)
Theorem legacy_brands_named_by_target
    (targetDb sourceDb : JsValue) (finalDb : obj FinalEntry)
    (c : string) (models : obj DeviceRecord) :
  Legacy.resolve targetDb sourceDb = Some finalDb ->
  obj_get finalDb c = Some (Brand models) ->
  (exists bk,
     In bk (Legacy.targetKeys targetDb) /\ c = Legacy.canonicalBrandOf bk /\
     forall k r, obj_get models k = Some r -> brand r = VStr c) \/
  (c = "undefined" /\
   forall k r, obj_get models k = Some r -> brand r = VUndefined).
Proof.
  intros Hres Hc.
  apply legacy_resolve_inv in Hres as (metadata & e & He & Hassemble).
  destruct (legacy_assemble_brands _ _ _ Hassemble c models Hc)
    as (nb & man & Hin & -> & Hbrand).
  destruct (legacy_collect_named _ _ _ He nb man Hin) as [(bk & Hk & _ & Hname) | Hname];
    rewrite Hname in *; simpl in *.
  - left. exists bk. by repeat split.
  - right. by split.
Qed.

(** A concrete instance of [legacy_brands_named_by_target]: the devices of
    a brand of the source database alone. *)
Lemma legacy_brands_named_by_target_witness :
  (exists bk,
     In bk (Legacy.targetKeys Scenario.targetDb) /\
     "undefined" = Legacy.canonicalBrandOf bk /\
     forall k r, obj_get Samples.legacyNameless k = Some r -> brand r = VStr "undefined") \/
  ("undefined" = "undefined" /\
   forall k r, obj_get Samples.legacyNameless k = Some r -> brand r = VUndefined).
Proof.
  apply (legacy_brands_named_by_target Scenario.targetDb Samples.legacySource
           Samples.legacyFinal "undefined" Samples.legacyNameless).
  - vm_compute. reflexivity.
  - reflexivity.
Defined.

Lemma obj_set_keeps {V} (o : obj V) k v k' :
  is_Some (obj_get o k') -> is_Some (obj_get (obj_set o k v) k').
Proof.
  intros H. destruct (String.eqb_spec k k') as [-> | Hne].
  - rewrite obj_get_set_eq. eauto.
  - by rewrite obj_get_set_ne.
Qed.

Lemma legacy_targetBrand_has e e' entry nb :
  Legacy.targetBrand e entry = Some e' ->
  is_Some (obj_get (Legacy.manufacturers e) nb) ->
  is_Some (obj_get (Legacy.manufacturers e') nb).
Proof.
  destruct entry as [bk b]. unfold Legacy.targetBrand.
  destruct (includes reservedKeys bk); [by intros [= <-] |].
  intros Hrun Hnb. apply bind_Some in Hrun as (entries & _ & Hloop).
  apply legacy_targetDevices in Hloop as [_ Hloop]. apply Hloop. simpl.
  destruct (obj_get (Legacy.manufacturers e) _) as [man |]; by apply obj_set_keeps.
Qed.

Lemma legacy_sourceBrand_has e e' entry nb :
  Legacy.sourceBrand e entry = Some e' ->
  is_Some (obj_get (Legacy.manufacturers e) nb) ->
  is_Some (obj_get (Legacy.manufacturers e') nb).
Proof.
  destruct entry as [bk b]. unfold Legacy.sourceBrand.
  intros Hrun Hnb. apply bind_Some in Hrun as (entries & _ & Hloop).
  apply legacy_sourceDevices in Hloop as [_ Hloop]. apply Hloop. simpl.
  destruct (obj_get (Legacy.manufacturers e) _) as [man |];
    [destruct (includes (Legacy.variants man) bk) |];
    try exact Hnb; by apply obj_set_keeps.
Qed.

Lemma legacy_sourceBrand_registers e e' bk b :
  Legacy.sourceBrand e (bk, b) = Some e' ->
  is_Some (obj_get (Legacy.manufacturers e') (Legacy.normalizedBrandOf bk)).
Proof.
  unfold Legacy.sourceBrand.
  intros Hrun. apply bind_Some in Hrun as (entries & _ & Hloop).
  apply legacy_sourceDevices in Hloop as [_ Hloop]. apply Hloop. simpl.
  fold (Legacy.normalizedBrandOf bk).
  destruct (obj_get (Legacy.manufacturers e) (Legacy.normalizedBrandOf bk))
    as [man |] eqn:E; [destruct (includes (Legacy.variants man) bk) |];
    try (rewrite obj_get_set_eq; eauto).
  rewrite E. eauto.
Qed.

(** A brand that only the source database has gets a manufacturer without
    a name. *)
Lemma legacy_source_only_nameless targetDb sourceDb e sourceEntries bk b :
  Legacy.collect targetDb sourceDb = Some e ->
  js_entries sourceDb = Some sourceEntries -> In (bk, b) sourceEntries ->
  (forall bk', In bk' (Legacy.targetKeys targetDb) ->
     Legacy.normalizedBrandOf bk' <> Legacy.normalizedBrandOf bk) ->
  exists man,
    obj_get (Legacy.manufacturers e) (Legacy.normalizedBrandOf bk) = Some man /\
    Legacy.canonicalName man = None.
Proof.
  intros He Hs Hin Honly. pose proof (legacy_collect_named _ _ _ He) as Hnamed.
  apply legacy_collect_inv in He
    as (targetEntries & e1 & sourceEntries' & _ & _ & Hs' & Hsource).
  rewrite Hs in Hs'. injection Hs' as <-.
  assert (Hman : is_Some (obj_get (Legacy.manufacturers e) (Legacy.normalizedBrandOf bk))).
  { revert Hsource.
    apply (forEachM_reaches _ _
             (fun e => is_Some (obj_get (Legacy.manufacturers e)
                                  (Legacy.normalizedBrandOf bk)))
             (bk, b)); [exact Hin | |].
    - intros e0 e0'. apply legacy_sourceBrand_registers.
    - intros e0 y e0' _ H0 Hstep. by apply (legacy_sourceBrand_has _ _ _ _ Hstep). }
  destruct Hman as [man Hman]. exists man. split; [exact Hman |].
  destruct (Hnamed _ _ (obj_get_In _ _ _ Hman)) as [(bk' & Hk' & Hnb & _) | Hnone];
    [| exact Hnone].
  destruct (Honly bk' Hk'). by symmetry.
Qed.

Lemma legacy_assemble_loop_frame buckets (l : list (string * Legacy.Manufacturer))
    (finalDb finalDb' : obj FinalEntry) (c : string) :
  (forall nb man, In (nb, man) l -> Legacy.propertyKey (Legacy.canonicalName man) <> c) ->
  forEachM (Legacy.assembleBrand buckets) l finalDb = Some finalDb' ->
  obj_get finalDb' c = obj_get finalDb c.
Proof.
  revert finalDb. induction l as [| [nb man] l IH]; intros finalDb Hl; cbn [forEachM].
  - by intros [= <-].
  - destruct (Legacy.assembleBrand buckets finalDb (nb, man)) as [f1 |] eqn:E;
      [| discriminate].
    intros Hrest.
    rewrite (IH f1); [| intros nb' man' Hin; apply (Hl nb'); by right | exact Hrest].
    apply legacy_assembleBrand_get in E as (_ & _ & _ & Hframe).
    apply Hframe. apply not_eq_sym, (Hl nb). by left.
Qed.

(** X22. In [merge.js] a brand that only the source database has (no
    brand key of the target database has its normalized id; the keys are
    plain) gets a manufacturer without [canonicalName], and the final
    database then has a brand under the property [undefined]; unless a
    brand of the target database is itself called ["undefined"], every
    record of that brand has the [brand] field [undefined]. *)
Theorem legacy_source_only_brand_is_undefined
    (targetDb sourceDb : JsValue) (finalDb : obj FinalEntry)
    (sourceEntries : list (string * JsValue)) (bk : string) (brandData : JsValue) :
  Legacy.resolve targetDb sourceDb = Some finalDb ->
  js_entries sourceDb = Some sourceEntries ->
  In (bk, brandData) sourceEntries ->
  plain_key bk = true ->
  forallb plain_key (Legacy.targetKeys targetDb) = true ->
  (forall bk', In bk' (Legacy.targetKeys targetDb) ->
     Legacy.normalizedBrandOf bk' <> Legacy.normalizedBrandOf bk) ->
  (forall bk', In bk' (Legacy.targetKeys targetDb) ->
     Legacy.canonicalBrandOf bk' <> "undefined") ->
  exists e man models,
    Legacy.collect targetDb sourceDb = Some e /\
    obj_get (Legacy.manufacturers e) (Legacy.normalizedBrandOf bk) = Some man /\
    Legacy.canonicalName man = None /\
    obj_get finalDb "undefined" = Some (Brand models) /\
    forall k r, obj_get models k = Some r -> brand r = VUndefined.
Proof.
  intros Hres Hs Hin _ _ Honly Hnamed.
  apply legacy_resolve_inv in Hres as (metadata & e & He & Hassemble).
  destruct (legacy_source_only_nameless _ _ _ _ _ _ He Hs Hin Honly) as (man & Hman & Hname).
  assert (Hentry : exists models, obj_get finalDb "undefined" = Some (Brand models)).
  { pose proof Hassemble as Hloop. unfold Legacy.assemble in Hloop. revert Hloop.
    apply (forEachM_reaches _ _
             (fun f => exists models, obj_get f "undefined" = Some (Brand models))
             (Legacy.normalizedBrandOf bk, man));
      [apply obj_entries_In; by apply obj_get_In | |].
    - intros f f' Hstep. apply legacy_assembleBrand_get in Hstep as (models & _ & Hget & _).
      rewrite Hname in Hget. eauto.
    - intros f [nb' man'] f' _ (models & Hget) Hstep.
      apply legacy_assembleBrand_get in Hstep as (models' & _ & Hget' & Hframe).
      destruct (String.eqb_spec "undefined" (Legacy.propertyKey (Legacy.canonicalName man')))
        as [Heq | Hne]; [rewrite <- Heq in Hget'; eauto |].
      exists models. by rewrite Hframe. }
  destruct Hentry as (models & Hget).
  exists e, man, models. do 4 (split; [assumption |]).
  destruct (legacy_assemble_brands _ _ _ Hassemble _ _ Hget) as (nb' & man' & Hin' & Hkey & Hbrand).
  intros k r Hk. rewrite (Hbrand k r Hk).
  destruct (legacy_collect_named _ _ _ He nb' man' Hin')
    as [(bk' & Hbk' & _ & Hcanon) | Hnone].
  - rewrite Hcanon in Hkey. simpl in Hkey. symmetry in Hkey.
    destruct (Hnamed bk' Hbk' Hkey).
  - by rewrite Hnone.
Qed.

(** A concrete instance of [legacy_source_only_brand_is_undefined]. *)
Lemma legacy_source_only_brand_is_undefined_witness :
  exists e man models,
    Legacy.collect Scenario.targetDb Samples.legacySource = Some e /\
    obj_get (Legacy.manufacturers e) (Legacy.normalizedBrandOf "Moog") = Some man /\
    Legacy.canonicalName man = None /\
    obj_get Samples.legacyFinal "undefined" = Some (Brand models) /\
    forall k r, obj_get models k = Some r -> brand r = VUndefined.
Proof.
  apply (legacy_source_only_brand_is_undefined Scenario.targetDb Samples.legacySource
           Samples.legacyFinal
           [("Moog", VObj [("Sub 37", VObj [])]); ("Korg", VObj [("Minilogue", VObj [])])]
           "Moog" (VObj [("Sub 37", VObj [])])).
  - vm_compute. reflexivity.
  - reflexivity.
  - by left.
  - reflexivity.
  - vm_compute. reflexivity.
  - intros bk' Hbk'. vm_compute in Hbk'. destruct Hbk' as [<- | []].
    vm_compute. discriminate.
  - intros bk' Hbk'. vm_compute in Hbk'. destruct Hbk' as [<- | []].
    vm_compute. discriminate.
Defined.

(** X23. In [merge.js] the manufacturers without a name share the one
    property [undefined], which each of them starts again from an empty
    object: the final database holds under [undefined] the devices of the
    last of them alone, and those of every other brand that only the
    source database has are lost. *)
Theorem legacy_last_nameless_brand_wins
    (targetDb sourceDb : JsValue) (e : Legacy.Engine) (finalDb : obj FinalEntry)
    (l1 l2 : list (string * Legacy.Manufacturer))
    (nb : string) (man : Legacy.Manufacturer) :
  Legacy.collect targetDb sourceDb = Some e ->
  Legacy.resolve targetDb sourceDb = Some finalDb ->
  obj_entries (Legacy.manufacturers e) = l1 ++ (nb, man) :: l2 ->
  Legacy.canonicalName man = None ->
  (forall nb' man', In (nb', man') l2 -> Legacy.canonicalName man' <> None) ->
  (forall bk, In bk (Legacy.targetKeys targetDb) ->
     Legacy.canonicalBrandOf bk <> "undefined") ->
  exists models,
    Legacy.brandModels (Legacy.normalizedDeviceMap e) man = Some models /\
    obj_get finalDb "undefined" = Some (Brand models).
Proof.
  intros He Hres Hentries Hname Hlast Htarget.
  pose proof (legacy_collect_named _ _ _ He) as Hnamed.
  apply legacy_resolve_inv in Hres as (metadata & e' & He' & Hassemble).
  rewrite He in He'. injection He' as <-.
  unfold Legacy.assemble in Hassemble. rewrite Hentries, forEachM_app in Hassemble.
  apply bind_Some in Hassemble as (f1 & _ & Hassemble). cbn [forEachM] in Hassemble.
  destruct (Legacy.assembleBrand _ f1 (nb, man)) as [f2 |] eqn:Hstep; [| discriminate].
  apply legacy_assembleBrand_get in Hstep as (models & Hmodels & Hget & _).
  rewrite Hname in Hget. exists models. split; [exact Hmodels |].
  rewrite <- Hget. revert Hassemble. apply legacy_assemble_loop_frame.
  intros nb' man' Hin Hkey.
  assert (Hin' : In (nb', man') (Legacy.manufacturers e)).
  { apply (proj1 (obj_entries_In _ _)). rewrite Hentries.
    apply in_or_app. right. by right. }
  destruct (Hnamed _ _ Hin') as [(bk & Hk & _ & Hc) | Hnone];
    [| by apply (Hlast nb' man')].
  rewrite Hc in Hkey. by apply (Htarget bk).
Qed.

(** A concrete instance of [legacy_last_nameless_brand_wins]: of the two
    brands of the source database only the devices of the later one are
    in the final database. *)
Lemma legacy_last_nameless_brand_wins_witness :
  exists models,
    obj_get Samples.legacyFinal "undefined" = Some (Brand models) /\
    map fst models = ["Minilogue"].
Proof.
  destruct (legacy_last_nameless_brand_wins Scenario.targetDb Samples.legacySource
              Samples.legacyEngine Samples.legacyFinal
              [("boss", {| Legacy.variants := ["BOSS"];
                           Legacy.canonicalName := Some "BOSS";
                           Legacy.devices := [("gt-1000", "boss_gt-1000")] |});
               ("moog", {| Legacy.variants := ["Moog"];
                           Legacy.canonicalName := None;
                           Legacy.devices := [("sub_37", "moog_sub_37")] |})]
              [] "korg" Samples.legacyKorg)
    as (models & Hmodels & Hget).
  - vm_compute. reflexivity.
  - vm_compute. reflexivity.
  - reflexivity.
  - reflexivity.
  - intros nb' man' [].
  - intros bk Hbk. vm_compute in Hbk. destruct Hbk as [<- | []].
    vm_compute. discriminate.
  - exists models. split; [exact Hget |].
    vm_compute in Hmodels. injection Hmodels as <-. reflexivity.
Defined.

(** ** The properties of the final database *)

Lemma collectMetadata_keys targetDb metadata c v :
  collectMetadata targetDb = Some metadata ->
  obj_get metadata c = Some v ->
  In c reservedKeys /\ js_get targetDb c = Some v /\ v <> VUndefined.
Proof.
  unfold collectMetadata. intros Hloop. revert c v. revert Hloop.
  apply (forEachM_preserves _ _
           (fun metadata => forall c v, obj_get metadata c = Some v ->
              In c reservedKeys /\ js_get targetDb c = Some v /\ v <> VUndefined));
    [intros c v [=] |].
  intros md key md' Hkey H0 Hstep c v.
  apply bind_Some in Hstep as (x & Hx & [= <-]).
  destruct (is_defined x) eqn:Hdef; [| apply H0].
  destruct (String.eqb_spec key c) as [-> | Hne].
  - rewrite obj_get_set_eq. intros [= <-]. split; [exact Hkey |]. split; [exact Hx |].
    intros ->. discriminate.
  - rewrite obj_get_set_ne by exact Hne. apply H0.
Qed.

Lemma assemble_keys metadata e finalDb c entry :
  assemble metadata e = Some finalDb ->
  obj_get finalDb c = Some entry ->
  match entry with
  | Metadata v => obj_get metadata c = Some v
  | Brand models =>
      exists nb man, In (nb, man) (manufacturers e) /\ c = canonicalName man
  end.
Proof.
  unfold assemble. intros Hloop. revert c entry. revert Hloop.
  apply (forEachM_preserves _ _
           (fun f => forall c entry, obj_get f c = Some entry ->
              match entry with
              | Metadata v => obj_get metadata c = Some v
              | Brand models =>
                  exists nb man, In (nb, man) (manufacturers e) /\ c = canonicalName man
              end)).
  - intros c entry. rewrite obj_get_map.
    destruct (obj_get metadata c) as [v |]; simpl; [| discriminate].
    by intros [= <-].
  - intros f [nb man] f' Hin H0 Hstep c entry Hget.
    apply (proj1 (obj_entries_In _ _)) in Hin.
    apply assembleBrand_get in Hstep as (models & _ & Hkey & Hframe).
    destruct (String.eqb_spec c (canonicalName man)) as [-> | Hne].
    + rewrite Hkey in Hget. injection Hget as <-. by exists nb, man.
    + rewrite (Hframe c Hne) in Hget. by apply H0.
Qed.

(** X24. The final database has no property but these: a reserved key
    with the value the target database gives it, or a brand stored under
    the display name of one of the raw brand keys of the two databases. *)
Theorem final_top_level_properties
    (m : Mappings) (targetDb sourceDb : JsValue) (finalDb : obj FinalEntry)
    (c : string) (entry : FinalEntry) :
  resolve m targetDb sourceDb = Some finalDb ->
  obj_get finalDb c = Some entry ->
  match entry with
  | Metadata v =>
      In c reservedKeys /\ js_get targetDb c = Some v /\ v <> VUndefined
  | Brand models =>
      exists bk, In bk (brandKeysOf targetDb sourceDb) /\ c = canonicalBrandOf m bk
  end.
Proof.
  intros Hres Hget.
  apply resolve_inv in Hres as (metadata & e & Hmd & He & Hassemble).
  pose proof (assemble_keys _ _ _ _ _ Hassemble Hget) as Hentry.
  destruct entry as [v | models].
  - by apply (collectMetadata_keys _ _ _ _ Hmd).
  - destruct Hentry as (nb & man & Hin & ->).
    destruct (brands_from_collect _ _ _ _ He) as [_ Hfrom].
    destruct (Hfrom nb man Hin) as (bk & Hk & _ & Hname). by exists bk.
Qed.

(** A concrete instance of [final_top_level_properties]: the brand of the
    scenario. *)
Lemma final_top_level_properties_witness :
  exists bk,
    In bk (brandKeysOf Scenario.targetDb Scenario.sourceDb) /\
    "BOSS" = canonicalBrandOf Scenario.aliases bk.
Proof.
  exact (final_top_level_properties Scenario.aliases Scenario.targetDb Scenario.sourceDb
           Samples.scenarioFinal "BOSS" (Brand Samples.scenarioModels) eq_refl eq_refl).
Defined.

(** ** Every spelling of a brand is an alias *)




